(** * Atlas map viewport: projection, viewport transforms, tile cache,
    inertia and tile URLs, embedded from src/Atlas.js.

    Numeric code (projection, anchored zoom, fly-to, inertia, tile indices)
    is modelled over the real numbers [R], with JavaScript's [Math]
    functions mapped to their real counterparts; cache timestamps are
    integers [Z]; keys and URLs are strings. *)

From Stdlib Require Import Reals Lra Lia Psatz ZArith.
From Stdlib Require Import List String Ascii Bool Sorted Permutation DecimalString.
Import ListNotations.

Open Scope R_scope.

(** ** Constants (Atlas.js, "Constants") *)

Definition EARTH_RADIUS : R := 6378137.
Definition MAX_LATITUDE : R := 85.05112878.
Definition MIN_LATITUDE : R := - 85.05112878.
Definition TILE_SIZE : R := 256.
Definition INERTIA_DECEL : R := 0.0025.
Definition INERTIA_STOP_SPEED : R := 0.02.

Definition RAD2DEG : R := 180 / PI.
Definition DEG2RAD : R := PI / 180.

(** ** JavaScript [Math] helpers on reals *)

(** [Math.floor] *)
Definition js_floor (r : R) : Z := Int_part r.
(** [Math.ceil] *)
Definition js_ceil (r : R) : Z := (- Int_part (- r))%Z.
(** [Math.trunc], used by the [%] operator *)
Definition js_trunc (r : R) : Z :=
  if Rle_dec 0 r then Int_part r else (- Int_part (- r))%Z.
(** The [%] operator on numbers: the remainder keeps the sign of the dividend. *)
Definition js_mod (a b : R) : R := a - b * IZR (js_trunc (a / b)).
(** [Math.pow(2, e)] *)
Definition pow2 (e : R) : R := Rpower 2 e.
(** [Math.max] / [Math.min] *)
Definition js_max (a b : R) : R := Rmax a b.
Definition js_min (a b : R) : R := Rmin a b.

(** [Math.atan2(y, x)] following ECMAScript (no signed zeros in [R]: a zero
    [y] behaves as [+0]). *)
Definition atan2 (y x : R) : R :=
  if Rlt_dec 0 x then atan (y / x)
  else if Rlt_dec x 0 then
    (if Rle_dec 0 y then atan (y / x) + PI else atan (y / x) - PI)
  else if Rlt_dec 0 y then PI / 2
  else if Rlt_dec y 0 then - (PI / 2)
  else 0.

(** [Math.hypot(x, y)] *)
Definition hypot (x y : R) : R := sqrt (x * x + y * y).

(** ** Utility functions *)

(** [normalizeAngle = rad => Math.atan2(Math.sin(rad), Math.cos(rad))] *)
Definition normalizeAngle (rad : R) : R := atan2 (sin rad) (cos rad).

(** [shortestAngleDiff = (from, to) => normalizeAngle(to - from)] *)
Definition shortestAngleDiff (from to : R) : R := normalizeAngle (to - from).

(** [wrapDeltaLon = delta => (((delta + 180) % 360) + 360) % 360 - 180] *)
Definition wrapDeltaLon (delta : R) : R :=
  js_mod (js_mod (delta + 180) 360 + 360) 360 - 180.

(** [rot(x, y, ang)] *)
Record point := mkPoint { px : R; py : R }.

Definition rot (x y ang : R) : point :=
  mkPoint (x * cos ang - y * sin ang) (x * sin ang + y * cos ang).

(** [GISUtils.wrapLongitude]:
    [while (l > 180) l -= 360; while (l < -180) l += 360; return l;]
    The first loop runs [ceil((l - 180) / 360)] times when [l > 180] and
    leaves [l] in [(-180, 180]], so the second loop does not run; the second
    loop runs [ceil((-180 - l) / 360)] times when [l < -180]. *)
Definition wrapLongitude (l : R) : R :=
  if Rlt_dec 180 l then l - 360 * IZR (js_ceil ((l - 180) / 360))
  else if Rlt_dec l (-180) then l + 360 * IZR (js_ceil ((-180 - l) / 360))
  else l.

(** [GISUtils.clampLatitude] *)
Definition clampLatitude (lat : R) : R :=
  js_max MIN_LATITUDE (js_min MAX_LATITUDE lat).

(** ** Web Mercator projection ([WebMercatorProjection]) *)

Record latlng := mkLatLng { lat : R; lon : R }.

(** [const lat = Math.max(Math.min(maxLat, latlng.lat), -maxLat);
     const sin = Math.sin(lat * DEG2RAD);] *)
Definition project_sin (ll : latlng) : R :=
  let maxLat := MAX_LATITUDE in
  let la := js_max (js_min maxLat (lat ll)) (- maxLat) in
  sin (la * DEG2RAD).

Definition project (ll : latlng) : point :=
  let d := EARTH_RADIUS in
  let s := project_sin ll in
  mkPoint (d * lon ll * DEG2RAD) (d * ln ((1 + s) / (1 - s)) / 2).

Definition unproject (p : point) : latlng :=
  let d := EARTH_RADIUS in
  mkLatLng ((2 * atan (exp (py p / d)) - PI / 2) * RAD2DEG)
           ((px p / d) * RAD2DEG).

Definition latLngToTile (ll : latlng) (zoom : R) : point :=
  let scale := pow2 zoom in
  let projected := project ll in
  mkPoint ((px projected + PI * EARTH_RADIUS) / (2 * PI * EARTH_RADIUS) * scale)
          ((PI * EARTH_RADIUS - py projected) / (2 * PI * EARTH_RADIUS) * scale).

Definition tileToLatLng (x y zoom : R) : latlng :=
  let scale := pow2 zoom in
  let projected :=
    mkPoint (x / scale * 2 * PI * EARTH_RADIUS - PI * EARTH_RADIUS)
            (PI * EARTH_RADIUS - y / scale * 2 * PI * EARTH_RADIUS) in
  unproject projected.

(** ** The map viewport ([class Atlas]) *)

(** The zoom bounds of a base layer ([getMinZoom] / [getMaxZoom]). *)
Record zoom_bounds := mkZoomBounds { minZoom : R; maxZoom : R }.

(** The fields of an [Atlas] instance read by the viewport code: [center],
    [zoom], [bearing], the canvas size and device pixel ratio, and the base
    layer's zoom bounds ([_baseLayer], possibly [null]). *)
Record atlas := mkAtlas {
  center : latlng;
  zoom : R;
  bearing : R;
  canvas_width : R;
  canvas_height : R;
  dpr : R;
  baseLayer : option zoom_bounds
}.

(** [const minZoom = this._baseLayer ? this._baseLayer.getMinZoom() : 0;] *)
Definition map_min_zoom (m : atlas) : R :=
  match baseLayer m with Some l => minZoom l | None => 0 end.
(** [const maxZoom = this._baseLayer ? this._baseLayer.getMaxZoom() : 18;] *)
Definition map_max_zoom (m : atlas) : R :=
  match baseLayer m with Some l => maxZoom l | None => 18 end.

Definition set_center (m : atlas) (c : latlng) : atlas :=
  mkAtlas c (zoom m) (bearing m) (canvas_width m) (canvas_height m) (dpr m) (baseLayer m).
Definition set_zoom_field (m : atlas) (z : R) : atlas :=
  mkAtlas (center m) z (bearing m) (canvas_width m) (canvas_height m) (dpr m) (baseLayer m).
Definition set_bearing_field (m : atlas) (b : R) : atlas :=
  mkAtlas (center m) (zoom m) b (canvas_width m) (canvas_height m) (dpr m) (baseLayer m).

(** [Atlas.screenToLatLon(ax, ay, zoom, bearing, center)] *)
Definition screenToLatLon (m : atlas) (ax ay zoom bearing : R) (center : latlng) : latlng :=
  let w := canvas_width m / dpr m in
  let h := canvas_height m / dpr m in
  let zInt := IZR (js_floor zoom) in
  let ts := TILE_SIZE * pow2 (zoom - zInt) in
  let ct := latLngToTile center zInt in
  let anchorVec := mkPoint (ax - w / 2) (ay - h / 2) in
  let v := rot (px anchorVec / ts) (py anchorVec / ts) (- bearing) in
  let tpt := mkPoint (px ct + px v) (py ct + py v) in
  let ll := tileToLatLng (px tpt) (py tpt) zInt in
  mkLatLng (clampLatitude (lat ll)) (wrapLongitude (lon ll)).

(** The default-argument form [map.screenToLatLon(ax, ay)]. *)
Definition screenToLatLon_here (m : atlas) (ax ay : R) : latlng :=
  screenToLatLon m ax ay (zoom m) (bearing m) (center m).

(** [applyZoomRotateAbout]: [newZoom = Math.max(minZoom, Math.min(maxZoom, newZoom))]. *)
Definition clamp_zoom (m : atlas) (z : R) : R :=
  js_max (map_min_zoom m) (js_min (map_max_zoom m) z).

(** [applyZoomRotateAbout], up to [newCenter]: the new center before its
    latitude is clamped and its longitude wrapped.  [anchorLL] is [None] for
    the JavaScript [null]. *)
Definition anchored_center (m : atlas) (ax ay newZoom newBearing : R)
    (anchorLL : option latlng) : latlng :=
  let newZoom := clamp_zoom m newZoom in
  let w := canvas_width m / dpr m in
  let h := canvas_height m / dpr m in
  let anchorVec := mkPoint (ax - w / 2) (ay - h / 2) in
  let currAnchorLL :=
    match anchorLL with
    | Some a => a
    | None => screenToLatLon m ax ay (zoom m) (bearing m) (center m)
    end in
  let zInt := IZR (js_floor newZoom) in
  let ts := TILE_SIZE * pow2 (newZoom - zInt) in
  let Ptile := latLngToTile currAnchorLL zInt in
  let v := rot (px anchorVec / ts) (py anchorVec / ts) (- newBearing) in
  let ctNew := mkPoint (px Ptile - px v) (py Ptile - py v) in
  tileToLatLng (px ctNew) (py ctNew) zInt.

(** [Atlas.applyZoomRotateAbout(ax, ay, newZoom, newBearing, anchorLL)] *)
Definition applyZoomRotateAbout (m : atlas) (ax ay newZoom newBearing : R)
    (anchorLL : option latlng) : atlas :=
  let newCenter := anchored_center m ax ay newZoom newBearing anchorLL in
  mkAtlas (mkLatLng (clampLatitude (lat newCenter)) (wrapLongitude (lon newCenter)))
          (clamp_zoom m newZoom) (normalizeAngle newBearing)
          (canvas_width m) (canvas_height m) (dpr m) (baseLayer m).

(** ** Writers of the viewport state *)

(** The constructor's viewport part ([resize()] supplies the canvas; no base
    layer is set yet):
    [this.center = { lon: GISUtils.wrapLongitude(CONFIG.defaultCenter.lon),
                     lat: GISUtils.clampLatitude(CONFIG.defaultCenter.lat) };
     this.zoom = CONFIG.defaultZoom; this.bearing = 0;] *)
Definition atlas_init (defaultCenter : latlng) (defaultZoom w h dpr : R) : atlas :=
  mkAtlas (mkLatLng (clampLatitude (lat defaultCenter)) (wrapLongitude (lon defaultCenter)))
          defaultZoom 0 w h dpr None.

(** [Atlas.setZoom(z)] (rendering and events omitted). *)
Definition setZoom (m : atlas) (z : R) : atlas :=
  let nz := js_max (map_min_zoom m) (js_min (map_max_zoom m) z) in
  if Req_dec_T nz (zoom m) then m else set_zoom_field m nz.

(** [Atlas.setBearing(rad)] *)
Definition setBearing (m : atlas) (rad : R) : atlas :=
  let nr := normalizeAngle rad in
  if Rlt_dec (Rabs (nr - bearing m)) (/ 1000000) then m else set_bearing_field m nr.

(** [DragPanHandler._dragStart]: the pointer position and the center when the
    drag began. *)
Record drag_start := mkDragStart { ds_x : R; ds_y : R; ds_center : latlng }.

(** [DragPanHandler._onMouseMove] / [_onTouchMove]:
    [this._map.center = this._map.screenToLatLon(w / 2 - dx, h / 2 - dy,
       this._map.zoom, this._map.bearing, this._dragStart.center);] *)
Definition drag_move (m : atlas) (ds : drag_start) (clientX clientY : R) : atlas :=
  let dx := clientX - ds_x ds in
  let dy := clientY - ds_y ds in
  let w := canvas_width m / dpr m in
  let h := canvas_height m / dpr m in
  set_center m (screenToLatLon m (w / 2 - dx) (h / 2 - dy) (zoom m) (bearing m) (ds_center ds)).

(** *** [Atlas.flyTo] *)

(** The options object of [flyTo({ center, zoom, bearing, duration, easing })];
    an absent property is [None]. *)
Record flyto_options := mkFlyToOptions {
  fo_center : option latlng;
  fo_zoom : option R;
  fo_bearing : option R;
  fo_duration : option R;
  fo_easing : option (R -> R)
}.

(** [x || d] on a number: [0] and [undefined] are falsy. *)
Definition num_or (o : option R) (d : R) : R :=
  match o with
  | Some x => if Req_dec_T x 0 then d else x
  | None => d
  end.

(** [EASING.easeInOutCubic] *)
Definition easeInOutCubic (t : R) : R :=
  if Rlt_dec t (1 / 2) then 4 * t * t * t else 1 - (- 2 * t + 2) ^ 3 / 2.

(** [EASING.linear] *)
Definition linear (t : R) : R := t.

Definition FLYTO_DURATION : R := 800.

(** The values [flyTo] captures before its first frame. *)
Record fly_job := mkFlyJob {
  fj_startT : R;
  fj_duration : R;
  fj_easing : R -> R;
  fj_sC : latlng;
  fj_eC : latlng;
  fj_dLon : R;
  fj_dLat : R;
  fj_sZ : R;
  fj_eZ : R;
  fj_sB : R;
  fj_dB : R
}.

(** [flyTo] up to [requestAnimationFrame(step)], started at time [startT]. *)
Definition flyTo_start (m : atlas) (o : flyto_options) (startT : R) : fly_job :=
  (* [center = center || this.center; zoom = zoom || this.zoom; ...] *)
  let center' := match fo_center o with Some c => c | None => center m end in
  let zoom' := num_or (fo_zoom o) (zoom m) in
  let bearing' := num_or (fo_bearing o) (bearing m) in
  let duration := num_or (fo_duration o) FLYTO_DURATION in
  let easing := match fo_easing o with Some e => e | None => easeInOutCubic end in
  let targetZoom := js_max (map_min_zoom m) (js_min (map_max_zoom m) zoom') in
  let sC := center m in
  let eC := mkLatLng (lat center') (wrapLongitude (lon center')) in
  let dLon := wrapDeltaLon (lon eC - lon sC) in
  let dLat := lat eC - lat sC in
  mkFlyJob startT duration easing sC eC dLon dLat (zoom m) targetZoom
           (bearing m) (shortestAngleDiff (bearing m) bearing').

(** [const t = (performance.now() - startT) / Math.max(1, duration);] *)
Definition fly_t (j : fly_job) (now : R) : R :=
  (now - fj_startT j) / js_max 1 (fj_duration j).

(** [const p = t >= 1 ? 1 : easing(Math.max(0, Math.min(1, t)));] *)
Definition fly_p (j : fly_job) (now : R) : R :=
  let t := fly_t j now in
  if Rle_dec 1 t then 1 else fj_easing j (js_max 0 (js_min 1 t)).

(** One frame of [flyTo]'s [step], at time [now]: the new viewport state and
    whether this was the final frame (the one that fires [moveend]). *)
Definition flyTo_frame (m : atlas) (j : fly_job) (now : R) : atlas * bool :=
  let t := fly_t j now in
  let p := fly_p j now in
  let currentLon := lon (fj_sC j) + fj_dLon j * p in
  let final := if Rle_dec 1 t then true else false in
  let c := mkLatLng (clampLatitude (lat (fj_sC j) + fj_dLat j * p))
                    (if final then wrapLongitude currentLon else currentLon) in
  (mkAtlas c (fj_sZ j + (fj_eZ j - fj_sZ j) * p) (normalizeAngle (fj_sB j + fj_dB j * p))
           (canvas_width m) (canvas_height m) (dpr m) (baseLayer m), final).

(** *** Drag inertia ([DragPanHandler._startInertia]) *)

(** Events fired on the map by the modelled code. *)
Inductive map_event := MoveEnd.

Definition map_event_eqb (a b : map_event) : bool :=
  match a, b with MoveEnd, MoveEnd => true end.

(** The variables captured by the inertia [step] closure: the velocity
    [vx], [vy] (pixels per millisecond) and [lastT]. *)
Record inertia := mkInertia { in_vx : R; in_vy : R; in_lastT : R }.

(** [_startInertia(vx, vy)] at time [now]: [None] when no animation frame is
    requested. *)
Definition inertia_start (vx vy now : R) : option inertia :=
  let speed := hypot vx vy in
  if Rlt_dec speed INERTIA_STOP_SPEED then None else Some (mkInertia vx vy now).

(** One [step] of the inertia at time [now]: the new map, the state for the
    next frame ([None] when no further frame is requested), the events fired
    and the pixel offset [(dx, dy)] applied. *)
Definition inertia_step (m : atlas) (st : inertia) (now : R)
    : atlas * option inertia * list map_event * (R * R) :=
  let dt := now - in_lastT st in
  let vx := in_vx st in
  let vy := in_vy st in
  let dx := vx * dt in
  let dy := vy * dt in
  let w := canvas_width m / dpr m in
  let h := canvas_height m / dpr m in
  let m' := set_center m (screenToLatLon_here m (w / 2 - dx) (h / 2 - dy)) in
  let vmag := hypot vx vy in
  let newVmag := js_max 0 (vmag - INERTIA_DECEL * dt) in
  if Rle_dec newVmag INERTIA_STOP_SPEED then (m', None, [MoveEnd], (dx, dy))
  else
    let s := newVmag / num_or (Some vmag) 1 in
    (m', Some (mkInertia (vx * s) (vy * s) now), [], (dx, dy)).

(** Running the inertia over the timestamps of successive animation frames;
    once no frame is requested, later timestamps do nothing. *)
Fixpoint inertia_run (m : atlas) (st : option inertia) (times : list R)
    : atlas * option inertia * list map_event * list (R * R) :=
  match times, st with
  | [], _ => (m, st, [], [])
  | _, None => (m, None, [], [])
  | now :: rest, Some s =>
      let '(m1, st1, ev1, off1) := inertia_step m s now in
      let '(m2, st2, ev2, off2) := inertia_run m1 st1 rest in
      (m2, st2, ev1 ++ ev2, off1 :: off2)
  end.

(** Total horizontal pixel distance of a run. *)
Definition total_dx (offs : list (R * R)) : R := fold_right (fun o acc => fst o + acc) 0 offs.

(** Frame timestamps at least [delta] apart, starting after [t0]. *)
Fixpoint spaced (delta t0 : R) (times : list R) : Prop :=
  match times with
  | [] => True
  | t :: rest => delta <= t - t0 /\ spaced delta t rest
  end.

Definition count_moveend (evs : list map_event) : nat :=
  List.length (List.filter (map_event_eqb MoveEnd) evs).

(** *** The viewport invariants of the data model *)

Definition lat_in_range (c : latlng) : Prop := MIN_LATITUDE <= lat c <= MAX_LATITUDE.
Definition lon_in_wrapped_range (c : latlng) : Prop := -180 <= lon c <= 180.
Definition bearing_in_range (b : R) : Prop := - PI < b <= PI.
Definition zoom_in_range (m : atlas) : Prop := map_min_zoom m <= zoom m <= map_max_zoom m.

(** The invariants every writer keeps (the longitude is treated per writer). *)
Definition viewport_ok (m : atlas) : Prop :=
  lat_in_range (center m) /\ bearing_in_range (bearing m) /\ zoom_in_range m.

(** The writers of the viewport state after construction. A fly-to frame
    carries the job captured when [flyTo] was called. *)
Inductive viewport_op :=
| OpSetZoom (z : R)
| OpSetBearing (rad : R)
| OpDragMove (ds : drag_start) (clientX clientY : R)
| OpZoomRotateAbout (ax ay newZoom newBearing : R) (anchorLL : option latlng)
| OpFlyFrame (j : fly_job) (now : R).

Definition apply_op (m : atlas) (op : viewport_op) : atlas :=
  match op with
  | OpSetZoom z => setZoom m z
  | OpSetBearing rad => setBearing m rad
  | OpDragMove ds x y => drag_move m ds x y
  | OpZoomRotateAbout ax ay z b a => applyZoomRotateAbout m ax ay z b a
  | OpFlyFrame j now => fst (flyTo_frame m j now)
  end.

(** An easing curve maps progress in [[0, 1]] into [[0, 1]]. *)
Definition easing_in_unit (e : R -> R) : Prop :=
  forall t, 0 <= t <= 1 -> 0 <= e t <= 1.

(** What a fly-to frame needs from its job: start and target zoom within the
    layer's bounds and an easing into [[0, 1]] ([flyTo] started from a valid
    viewport provides this with the default easing). *)
Definition op_ready (m : atlas) (op : viewport_op) : Prop :=
  match op with
  | OpFlyFrame j _ =>
      map_min_zoom m <= fj_sZ j <= map_max_zoom m /\
      map_min_zoom m <= fj_eZ j <= map_max_zoom m /\ easing_in_unit (fj_easing j)
  | _ => True
  end.

(** How each writer leaves the longitude: a fly-to frame wraps it on the
    final frame and otherwise leaves the interpolated value as it is. *)
Definition op_lon_result (m : atlas) (op : viewport_op) (m' : atlas) : Prop :=
  match op with
  | OpSetZoom _ | OpSetBearing _ => center m' = center m
  | OpDragMove _ _ _ | OpZoomRotateAbout _ _ _ _ _ => lon_in_wrapped_range (center m')
  | OpFlyFrame j now =>
      (1 <= fly_t j now -> lon_in_wrapped_range (center m')) /\
      (fly_t j now < 1 -> lon (center m') = lon (fj_sC j) + fj_dLon j * fly_p j now)
  end.

(** ** The tile layer ([class TileLayer]) *)

(** [CONFIG.retina] is [true], ["auto"] or another value; the shipped
    configuration is ["auto"]. [CONFIG.retinaSuffix] is ["@2x"]. *)
Inductive retina_mode := RetinaOn | RetinaAuto | RetinaOther.
Definition CONFIG_retina : retina_mode := RetinaAuto.
Definition retinaSuffix : string := "@2x"%string.

(** A record of [tileCache]; [img] and [controller] are not modelled. *)
Record tile_rec := mkTileRec { tr_loaded : bool; tr_loadedAt : Z; tr_lastUsed : Z }.

Inductive layer_event :=
| TileLoadEv (key url : string)
| TileErrorEv (key url : string).

(** State of the promise returned by [_loadTile]. *)
Inductive promise_state := PPending | PResolved | PRejected.

(** The layer's fields. [tileCache] is a [Map] (an association list in
    insertion order with distinct keys), [loadingTiles] a [Set] and
    [loadingControllers] a [Map] whose controllers are not modelled (its
    keys only). [requests] logs every image request issued ([img.src = ...])
    as (key, url); [events] logs the fired events. *)
Record tile_layer := mkTileLayer {
  urlTemplate : string;
  supportsRetina : bool;
  maxCacheSize : nat;
  tileCache : list (string * tile_rec);
  loadingTiles : list string;
  loadingControllers : list string;
  retinaAvailable : bool;
  requests : list (string * string);
  events : list layer_event }.

(** [Map] and [Set] operations on association lists. *)
Definition map_has {A} (k : string) (c : list (string * A)) : bool :=
  existsb (fun e => String.eqb (fst e) k) c.
Definition map_get {A} (k : string) (c : list (string * A)) : option A :=
  option_map snd (find (fun e => String.eqb (fst e) k) c).
Definition map_set {A} (k : string) (v : A) (c : list (string * A)) : list (string * A) :=
  if map_has k c then map (fun e => if String.eqb (fst e) k then (k, v) else e) c
  else c ++ [(k, v)].
Definition map_delete {A} (k : string) (c : list (string * A)) : list (string * A) :=
  filter (fun e => negb (String.eqb (fst e) k)) c.
Definition set_has (k : string) (s : list string) : bool := existsb (String.eqb k) s.
Definition set_add (k : string) (s : list string) : list string :=
  if set_has k s then s else s ++ [k].
Definition set_delete (k : string) (s : list string) : list string :=
  filter (fun k' => negb (String.eqb k' k)) s.

Definition set_tileCache (L : tile_layer) (c : list (string * tile_rec)) : tile_layer :=
  mkTileLayer (urlTemplate L) (supportsRetina L) (maxCacheSize L) c (loadingTiles L)
    (loadingControllers L) (retinaAvailable L) (requests L) (events L).

(** [new TileLayer(urlTemplate, options)]: empty cache, retina available. *)
Definition new_tile_layer (tpl : string) (retina : bool) (maxSize : nat) : tile_layer :=
  mkTileLayer tpl retina maxSize [] [] [] true [] [].

(** The variables captured by the handlers of one load started by
    [_loadTile]: [key], [url], the current [img.src], whether the timeout is
    still armed, whether [signal] is aborted, and the state of the returned
    promise. *)
Record load_job := mkLoadJob {
  lj_key : string; lj_url : string; lj_src : string;
  lj_timer : bool; lj_aborted : bool; lj_result : promise_state }.

Inductive load_result :=
| Existing (t : tile_rec)
| Started (t : tile_rec) (j : load_job).

(** [_loadTile(key, url)] at time [now] ([Date.now()]). *)
Definition loadTile (L : tile_layer) (key url : string) (now : Z) : tile_layer * load_result :=
  match map_get key (tileCache L) with
  | Some t => (L, Existing t)
  | None =>
      let tile := mkTileRec false now now in
      (mkTileLayer (urlTemplate L) (supportsRetina L) (maxCacheSize L)
         (map_set key tile (tileCache L)) (set_add key (loadingTiles L))
         (set_add key (loadingControllers L)) (retinaAvailable L)
         (requests L ++ [(key, url)]) (events L),
       Started tile (mkLoadJob key url url true false PPending))
  end.

(** A promise settles once. *)
Definition settle (r : promise_state) (p : promise_state) : promise_state :=
  match p with PPending => r | _ => p end.

(** JavaScript [s.includes(pat)] and [s.replace(pat, rep)] for a string
    pattern (first occurrence only). *)
Definition includes (s pat : string) : bool :=
  match index 0 pat s with Some _ => true | None => false end.
Definition replace_first (pat rep s : string) : string :=
  match index 0 pat s with
  | Some n =>
      (substring 0 n s ++ rep ++
       substring (n + String.length pat) (String.length s - (n + String.length pat)) s)%string
  | None => s
  end.

(** A string none of whose characters fails [f]. *)
Fixpoint string_forall (f : ascii -> bool) (s : string) : bool :=
  match s with
  | EmptyString => true
  | String c s' => f c && string_forall f s'
  end.

(** [img.onerror] of the load [j]. *)
Definition tile_onerror (L : tile_layer) (j : load_job) : tile_layer * load_job :=
  let j1 := mkLoadJob (lj_key j) (lj_url j) (lj_src j) false (lj_aborted j) (lj_result j) in
  if lj_aborted j then (L, j1)
  else if supportsRetina L && includes (lj_url j) retinaSuffix then
    let nonRetinaUrl := replace_first retinaSuffix "" (lj_url j) in
    (mkTileLayer (urlTemplate L) (supportsRetina L) (maxCacheSize L) (tileCache L)
       (loadingTiles L) (loadingControllers L) false
       (requests L ++ [(lj_key j, nonRetinaUrl)]) (events L),
     mkLoadJob (lj_key j) (lj_url j) nonRetinaUrl false (lj_aborted j) (lj_result j))
  else
    (mkTileLayer (urlTemplate L) (supportsRetina L) (maxCacheSize L) (tileCache L)
       (set_delete (lj_key j) (loadingTiles L)) (set_delete (lj_key j) (loadingControllers L))
       (retinaAvailable L) (requests L)
       (events L ++ [TileErrorEv (lj_key j) (lj_url j)]),
     mkLoadJob (lj_key j) (lj_url j) (lj_src j) false (lj_aborted j)
       (settle PRejected (lj_result j))).

(** The timeout callback of the load [j] (it runs only while armed). *)
Definition tile_timeout (L : tile_layer) (j : load_job) : tile_layer * load_job :=
  if lj_timer j && set_has (lj_key j) (loadingTiles L) then
    (mkTileLayer (urlTemplate L) (supportsRetina L) (maxCacheSize L)
       (map_delete (lj_key j) (tileCache L))
       (set_delete (lj_key j) (loadingTiles L)) (set_delete (lj_key j) (loadingControllers L))
       (retinaAvailable L) (requests L)
       (events L ++ [TileErrorEv (lj_key j) (lj_url j)]),
     mkLoadJob (lj_key j) (lj_url j) (lj_src j) false true (settle PRejected (lj_result j)))
  else (L, j).

(** The body of [render]'s loop for one tile [key] (drawing and the TTL
    reload are not modelled): a missing tile is requested, a loaded one has
    its [lastUsed] refreshed. *)
Definition render_tile (L : tile_layer) (key url : string) (now : Z) : tile_layer :=
  match map_get key (tileCache L) with
  | None => fst (loadTile L key url now)
  | Some t =>
      if tr_loaded t then
        set_tileCache L (map_set key (mkTileRec true (tr_loadedAt t) now) (tileCache L))
      else L
  end.

(** [entries.sort((a, b) => a[1].lastUsed - b[1].lastUsed)]: a stable
    insertion sort. *)
Definition entry_lastUsed (e : string * tile_rec) : Z := tr_lastUsed (snd e).

Fixpoint insert_by_lastUsed (e : string * tile_rec) (l : list (string * tile_rec))
    : list (string * tile_rec) :=
  match l with
  | [] => [e]
  | y :: ys =>
      if Z.leb (entry_lastUsed e) (entry_lastUsed y) then e :: y :: ys
      else y :: insert_by_lastUsed e ys
  end.

Definition sort_by_lastUsed (l : list (string * tile_rec)) : list (string * tile_rec) :=
  fold_right insert_by_lastUsed [] l.

(** [_performEviction] on the cache: the loop deleting [entries[i][0]] for
    [i < removeCount] deletes the keys of the first [removeCount] sorted
    entries. *)
Definition evict_cache (maxSize : nat) (c : list (string * tile_rec)) : list (string * tile_rec) :=
  if Nat.leb (List.length c) maxSize then c
  else
    let entries := sort_by_lastUsed c in
    let removeCount := (List.length c - maxSize)%nat in
    fold_left (fun acc e => map_delete (fst e) acc) (firstn removeCount entries) c.

Definition performEviction (L : tile_layer) : tile_layer :=
  set_tileCache L (evict_cache (maxCacheSize L) (tileCache L)).

(** [String(n)] for an integer-valued number [n]. *)
Definition js_string_of_int (n : Z) : string := NilZero.string_of_int (Z.to_int n).

(** [_shouldRequestRetina()], with [window.devicePixelRatio] ([None] when
    undefined). *)
Definition shouldRequestRetina (L : tile_layer) (mode : retina_mode) (devicePixelRatio : option R)
    : bool :=
  let want :=
    match mode with
    | RetinaOn => true
    | RetinaAuto => if Rlt_dec (3 / 2) (num_or devicePixelRatio 1) then true else false
    | RetinaOther => false
    end in
  want && retinaAvailable L.

(** The indices of [_getTileUrl(x, y, z)] for an integer zoom [z >= 0]:
    [wrappedX = ((x % scale) + scale) % scale], [intX = Math.floor(wrappedX)],
    [intY = Math.max(0, Math.min(scale - 1, Math.floor(y)))]. *)
Definition tile_scale (z : nat) : R := pow2 (INR z).
Definition tile_intX (x : R) (z : nat) : Z :=
  let scale := tile_scale z in
  js_floor (js_mod (js_mod x scale + scale) scale).
Definition tile_intY (y : R) (z : nat) : R :=
  let scale := tile_scale z in
  js_max 0 (js_min (scale - 1) (IZR (js_floor y))).

(** The URL built from the template and the (integer-valued) indices,
    with the retina suffix when requested. *)
Definition tile_url_of (L : tile_layer) (mode : retina_mode) (devicePixelRatio : option R)
    (z : nat) (intX intY : Z) : string :=
  let url := replace_first "{y}" (js_string_of_int intY)
               (replace_first "{x}" (js_string_of_int intX)
                  (replace_first "{z}" (js_string_of_int (Z.of_nat z)) (urlTemplate L))) in
  if supportsRetina L && shouldRequestRetina L mode devicePixelRatio
  then (url ++ retinaSuffix)%string else url.

(** [_getTileUrl(x, y, z)]; [String(intY)] is the decimal of the integer
    [intY]. *)
Definition getTileUrl (L : tile_layer) (mode : retina_mode) (devicePixelRatio : option R)
    (x y : R) (z : nat) : string :=
  tile_url_of L mode devicePixelRatio z (tile_intX x z) (Int_part (tile_intY y z)).

(** The shared [TILE_LAYERS.OSM] instance, created once when the script
    runs: [subdomains[Math.floor(Math.random() * subdomains.length)]] is
    written into the URL template, and the options are [LAYERS.OSM]'s
    ([supportsRetina: true], [maxCacheSize: 500]). [random] is the value
    returned by [Math.random()]; an index outside the array reads
    [undefined], which the template literal writes as ["undefined"]. *)
Definition osm_subdomains : list string := ["a"; "b"; "c"]%string.

Definition js_array_get_string (l : list string) (i : Z) : string :=
  if (i <? 0)%Z then "undefined"%string else nth (Z.to_nat i) l "undefined"%string.

Definition osm_url_template (randomSubdomain : string) : string :=
  ("https://" ++ randomSubdomain ++ ".tile.openstreetmap.org/{z}/{x}/{y}.png")%string.

Definition TILE_LAYERS_OSM (random : R) : tile_layer :=
  let randomSubdomain :=
    js_array_get_string osm_subdomains
      (js_floor (random * INR (List.length osm_subdomains))) in
  new_tile_layer (osm_url_template randomSubdomain) true 500.

(** [n] successive [img.onerror] calls of the load [j] (each new request
    failing in turn). *)
Fixpoint onerror_n (n : nat) (L : tile_layer) (j : load_job) : tile_layer * load_job :=
  match n with
  | O => (L, j)
  | S n' => let '(L1, j1) := tile_onerror L j in onerror_n n' L1 j1
  end.

(** ** More of the viewport *)

(** [Atlas.latLngToContainerPoint(latlng)] *)
Definition latLngToContainerPoint (m : atlas) (ll : latlng) : point :=
  let w := canvas_width m / dpr m in
  let h := canvas_height m / dpr m in
  let zInt := IZR (js_floor (zoom m)) in
  let ts := TILE_SIZE * pow2 (zoom m - zInt) in
  let ct := latLngToTile (center m) zInt in
  let pt := latLngToTile ll zInt in
  let trX := (px pt - px ct) * ts in
  let trY := (py pt - py ct) * ts in
  let anchorVec := rot trX trY (bearing m) in
  mkPoint (w / 2 + px anchorVec) (h / 2 + py anchorVec).

(** [GeoJSONLayer._latLngToScreenPoint(coord)] with [coord = [lon, lat]];
    the layer's map is [None] while the layer is not on a map. *)
Definition latLngToScreenPoint (map : option atlas) (lo la : R) : point :=
  match map with
  | None => mkPoint 0 0
  | Some m =>
      let w := canvas_width m / dpr m in
      let h := canvas_height m / dpr m in
      let zInt := IZR (js_floor (zoom m)) in
      let ts := TILE_SIZE * pow2 (zoom m - zInt) in
      let ct := latLngToTile (center m) zInt in
      let pt := latLngToTile (mkLatLng la lo) zInt in
      let trX := (px pt - px ct) * ts in
      let trY := (py pt - py ct) * ts in
      let anchorVec := rot trX trY (bearing m) in
      mkPoint (w / 2 + px anchorVec) (h / 2 + py anchorVec)
  end.

(** *** Animated zoom and rotation ([Atlas.animateZoomRotateAbout]) *)

Definition WHEEL_ZOOM_STEP : R := 0.25.
Definition WHEEL_ZOOM_DURATION : R := 220.
Definition TAP_ZOOM_DURATION : R := 280.
Definition SNAP_DURATION : R := 300.

(** The values [animateZoomRotateAbout] captures before its first frame. *)
Record zoom_anim := mkZoomAnim {
  za_startT : R;
  za_duration : R;
  za_easing : R -> R;
  za_ax : R;
  za_ay : R;
  za_toZoom : R;
  za_sZoom : R;
  za_sBear : R;
  za_deltaBear : R;
  za_anchorLL : latlng
}.

(** [animateZoomRotateAbout(ax, ay, toZoom, toBearing, duration, easing)]
    started at time [startT] (the indicator and [stopAnimations] are not
    modelled). *)
Definition animateZoomRotateAbout (m : atlas) (ax ay toZoom toBearing duration : R)
    (easing : R -> R) (startT : R) : zoom_anim :=
  mkZoomAnim startT duration easing ax ay toZoom (zoom m) (bearing m)
    (shortestAngleDiff (bearing m) toBearing)
    (screenToLatLon m ax ay (zoom m) (bearing m) (center m)).

(** [const t = (performance.now() - startT) / Math.max(1, duration);] *)
Definition za_t (a : zoom_anim) (now : R) : R :=
  (now - za_startT a) / js_max 1 (za_duration a).

(** One frame of the animation's [step] at time [now], applied to the map as
    it is then: the new map and whether [zoomend] is fired (no further frame
    requested). *)
Definition zoomAnim_frame (m : atlas) (a : zoom_anim) (now : R) : atlas * bool :=
  let t := za_t a now in
  let p := if Rle_dec 1 t then 1 else za_easing a (js_max 0 (js_min 1 t)) in
  let z := za_sZoom a + (za_toZoom a - za_sZoom a) * p in
  let b := za_sBear a + za_deltaBear a * p in
  (applyZoomRotateAbout m (za_ax a) (za_ay a) z b (Some (za_anchorLL a)),
   if Rlt_dec t 1 then false else true).

(** [Atlas.smoothZoomAt(ax, ay, deltaZ)] *)
Definition smoothZoomAt (m : atlas) (ax ay deltaZ startT : R) : zoom_anim :=
  let target := js_max (map_min_zoom m) (js_min (map_max_zoom m) (zoom m + deltaZ)) in
  animateZoomRotateAbout m ax ay target (bearing m) WHEEL_ZOOM_DURATION easeInOutCubic startT.

(** [ScrollZoomHandler._onWheel] *)
Definition onWheel (m : atlas) (clientX clientY deltaY startT : R) : zoom_anim :=
  let dz := if Rlt_dec deltaY 0 then WHEEL_ZOOM_STEP else - WHEEL_ZOOM_STEP in
  smoothZoomAt m clientX clientY dz startT.

(** [DoubleClickZoomHandler._onDoubleClick] *)
Definition onDoubleClick (m : atlas) (clientX clientY startT : R) : zoom_anim :=
  animateZoomRotateAbout m clientX clientY (zoom m + 1) (bearing m) TAP_ZOOM_DURATION
    easeInOutCubic startT.

(** *** Keyboard ([KeyboardPanHandler._onKeyDown]) *)

(** The keys with an effect on the viewport; [KeyN] stands for ["n"] and
    ["N"] ([e.key.toLowerCase() === "n"]). The ["s"] key switches the base
    layer and is treated with the layers below. *)
Inductive key :=
| KeyArrowUp | KeyArrowDown | KeyArrowLeft | KeyArrowRight
| KeyN | KeyR | KeyL | KeyPlus | KeyEqual | KeyMinus | KeyOther.

Inductive key_effect :=
| KeyView (m : atlas)
| KeyAnim (a : zoom_anim).

Definition PAN_STEP_PX : R := 100.

(** [_onKeyDown(e)] at time [now]: the new viewport, or the animation
    started. *)
Definition onKeyDown (m : atlas) (k : key) (now : R) : key_effect :=
  let w := canvas_width m / dpr m in
  let h := canvas_height m / dpr m in
  let pan dx dy :=
    KeyView (set_center m (screenToLatLon m (w / 2 + dx) (h / 2 + dy) (zoom m) (bearing m) (center m))) in
  match k with
  | KeyArrowUp => pan 0 PAN_STEP_PX
  | KeyArrowDown => pan 0 (- PAN_STEP_PX)
  | KeyArrowLeft => pan PAN_STEP_PX 0
  | KeyArrowRight => pan (- PAN_STEP_PX) 0
  | KeyN => KeyAnim (animateZoomRotateAbout m (w / 2) (h / 2) (zoom m) 0 SNAP_DURATION
                       easeInOutCubic now)
  | KeyR => KeyView (setBearing m (bearing m + DEG2RAD * 15))
  | KeyL => KeyView (setBearing m (bearing m - DEG2RAD * 15))
  | KeyPlus | KeyEqual => KeyView (setZoom m (zoom m + 1))
  | KeyMinus => KeyView (setZoom m (zoom m - 1))
  | KeyOther => KeyView m
  end.

(** *** [GISUtils] *)

Definition EARTH_CIRCUMFERENCE : R := 2 * PI * EARTH_RADIUS.

(** [GISUtils.toRadians] and [GISUtils.toDegrees] *)
Definition toRadians (d : R) : R := d * PI / 180.
Definition toDegrees (r : R) : R := r * 180 / PI.

(** [GISUtils.getResolution(lat, z)]: meters per pixel. *)
Definition getResolution (la z : R) : R :=
  EARTH_CIRCUMFERENCE * cos (toRadians la) / (pow2 z * TILE_SIZE).

(** [EASING.easeOutCubic] *)
Definition easeOutCubic (t : R) : R := 1 - (1 - t) ^ 3.

(** What an easing curve of [EASING] provides: it starts at [0], ends at
    [1], stays in [[0, 1]] and never goes back on [[0, 1]]. *)
Definition easing_ok (e : R -> R) : Prop :=
  e 0 = 0 /\ e 1 = 1 /\ easing_in_unit e /\
  (forall s t, 0 <= s -> s <= t -> t <= 1 -> e s <= e t).

(** ** Input handlers ([class Handler]) *)

(** The calls a handler makes to its subclass hooks. *)
Inductive hook_call := AddEvents | RemoveEvents.

(** [_enabled], the hook calls made so far, and the number of entries of
    [_eventListeners] (filled by subclasses). *)
Record handler := mkHandler {
  h_enabled : bool; h_calls : list hook_call; h_eventListeners : nat }.

(** [constructor(map)] *)
Definition new_handler : handler := mkHandler false [] 0.

(** [enable()] *)
Definition h_enable (h : handler) : handler :=
  if h_enabled h then h
  else mkHandler true (h_calls h ++ [AddEvents]) (h_eventListeners h).

(** [disable()] *)
Definition h_disable (h : handler) : handler :=
  if negb (h_enabled h) then h
  else mkHandler false (h_calls h ++ [RemoveEvents]) (h_eventListeners h).

(** [toggle()] *)
Definition h_toggle (h : handler) : handler :=
  if h_enabled h then h_disable h else h_enable h.

(** [destroy()] *)
Definition h_destroy (h : handler) : handler :=
  let h1 := h_disable h in mkHandler (h_enabled h1) (h_calls h1) 0.

Inductive handler_op := HEnable | HDisable | HToggle | HDestroy.

Definition h_apply (h : handler) (op : handler_op) : handler :=
  match op with
  | HEnable => h_enable h
  | HDisable => h_disable h
  | HToggle => h_toggle h
  | HDestroy => h_destroy h
  end.

Definition h_run (h : handler) (ops : list handler_op) : handler := fold_left h_apply ops h.

(** The first [n] hook calls of strict alternation, starting with
    [_addEvents]. *)
Fixpoint alt_calls (n : nat) : list hook_call :=
  match n with
  | O => []
  | S n' => alt_calls n' ++ [if Nat.even n' then AddEvents else RemoveEvents]
  end.

(** ** Drag velocity ([DragPanHandler]) *)

Definition VELOCITY_WINDOW_MS : R := 120.

(** An entry [{ t, x, y }] of [_moveSamples]. *)
Record sample := mkSample { s_t : R; s_x : R; s_y : R }.

(** The [while] loop of [_pushVelocitySample]: shift while the first sample
    is older than [cutoff]. *)
Fixpoint drop_old (cutoff : R) (l : list sample) : list sample :=
  match l with
  | [] => []
  | s :: rest => if Rlt_dec (s_t s) cutoff then drop_old cutoff rest else l
  end.

(** [_pushVelocitySample(x, y)] at time [t] ([performance.now()]). *)
Definition pushVelocitySample (samples : list sample) (t x y : R) : list sample :=
  drop_old (t - VELOCITY_WINDOW_MS) (samples ++ [mkSample t x y]).

(** [_startDrag(clientX, clientY)] on the samples: [_moveSamples = []], then
    one sample. *)
Definition startDrag_samples (t clientX clientY : R) : list sample :=
  pushVelocitySample [] t clientX clientY.

Definition dummy_sample : sample := mkSample 0 0 0.

(** The [while] loop of [_computeVelocity] from index [i]:
    [while (i > 0 && last.t - samples[i].t < VELOCITY_WINDOW_MS * 0.5) i--]. *)
Fixpoint vel_ref_index (samples : list sample) (lastT : R) (i : nat) : nat :=
  match i with
  | O => O
  | S i' =>
      if Rlt_dec (lastT - s_t (nth i samples dummy_sample)) (VELOCITY_WINDOW_MS * 0.5)
      then vel_ref_index samples lastT i'
      else i
  end.

(** [_computeVelocity()] *)
Definition computeVelocity (samples : list sample) : R * R :=
  let n := List.length samples in
  if Nat.ltb n 2 then (0, 0)
  else
    let last := nth (n - 1) samples dummy_sample in
    let i := vel_ref_index samples (s_t last) (n - 2) in
    let ref := nth i samples dummy_sample in
    let dt := js_max 1 (s_t last - s_t ref) in
    ((s_x last - s_x ref) / dt, (s_y last - s_y ref) / dt).

(** The inertia that [_endDrag()] starts at time [now] while dragging
    ([_startInertia] of the computed velocity). *)
Definition endDrag_inertia (samples : list sample) (now : R) : option inertia :=
  inertia_start (fst (computeVelocity samples)) (snd (computeVelocity samples)) now.

(** ** The map's layer list ([Atlas.addLayer], [removeLayer], [setBaseLayer]) *)

(** Layers are compared by identity, here a number; whether a layer is a
    [TileLayer] and its zoom bounds ([getMinZoom()], [getMaxZoom()]) are
    given. [_layers] is an array in insertion order and [_baseLayer] a
    layer or [null]. Rendering, [onAdd]/[onRemove] and the container
    background are not modelled. *)
Record layer_state := mkLayerState {
  ls_layers : list nat; ls_base : option nat; ls_zoom : R }.

Section Layers.

Variable is_tile : nat -> bool.
Variable layer_bounds : nat -> zoom_bounds.

(** [this._layers.splice(this._layers.indexOf(layer), 1)] *)
Fixpoint remove_first (l : nat) (xs : list nat) : list nat :=
  match xs with
  | [] => []
  | x :: rest => if Nat.eqb x l then rest else x :: remove_first l rest
  end.

(** [addLayer(layer)]: [!this._baseLayer || (layer instanceof TileLayer &&
    !this._baseLayer)] is [!this._baseLayer]. *)
Definition addLayer (l : nat) (s : layer_state) : layer_state :=
  if existsb (Nat.eqb l) (ls_layers s) then s
  else
    mkLayerState (ls_layers s ++ [l])
      (match ls_base s with None => Some l | Some b => Some b end) (ls_zoom s).

(** [removeLayer(layer)] *)
Definition removeLayer (l : nat) (s : layer_state) : layer_state :=
  if existsb (Nat.eqb l) (ls_layers s) then
    let layers := remove_first l (ls_layers s) in
    let base := match ls_base s with
                | Some b => if Nat.eqb b l then find is_tile layers else Some b
                | None => None
                end in
    mkLayerState layers base (ls_zoom s)
  else s.

(** [setBaseLayer(newLayer)]; [None] when it throws (not a [TileLayer]). *)
Definition setBaseLayer (nl : nat) (s : layer_state) : option layer_state :=
  if negb (is_tile nl) then None
  else
    let s1 := match ls_base s with
              | Some b => if negb (Nat.eqb b nl) then removeLayer b s else s
              | None => s
              end in
    if negb (existsb (Nat.eqb nl) (ls_layers s1)) then Some (addLayer nl s1)
    else
      Some (mkLayerState (ls_layers s1) (Some nl)
              (js_max (minZoom (layer_bounds nl)) (js_min (maxZoom (layer_bounds nl)) (ls_zoom s1)))).

Inductive layer_op := AddL (l : nat) | RemoveL (l : nat) | SetBaseL (l : nat).

(** A call; one that throws leaves the state as it was. *)
Definition layer_apply (s : layer_state) (op : layer_op) : layer_state :=
  match op with
  | AddL l => addLayer l s
  | RemoveL l => removeLayer l s
  | SetBaseL l => match setBaseLayer l s with Some s' => s' | None => s end
  end.

Definition layer_run (s : layer_state) (ops : list layer_op) : layer_state :=
  fold_left layer_apply ops s.

(** The ["s"] key of [KeyboardPanHandler._onKeyDown], with the layers
    [TILE_LAYERS.ESRI] and [TILE_LAYERS.OSM]. *)
Definition key_s (esri osm : nat) (s : layer_state) : option layer_state :=
  let isEsri := match ls_base s with Some b => Nat.eqb b esri | None => false end in
  if isEsri then setBaseLayer osm s else setBaseLayer esri s.

End Layers.

(** The constructor's [this._layers = []; this._baseLayer = null]. *)
Definition layers_init (z : R) : layer_state := mkLayerState [] None z.

(** The layer list has no repeated layer and the base layer is one of them. *)
Definition layers_ok (s : layer_state) : Prop :=
  NoDup (ls_layers s) /\ (forall b, ls_base s = Some b -> In b (ls_layers s)).

(** ** More of the tile layer *)

(** The body of the inner loop of [_preloadAdjacentZoomTiles] for one tile
    [key]: [if (!this.tileCache.has(key) && !this.loadingTiles.has(key))
    this._loadTile(key, url)]. *)
Definition preload_tile (L : tile_layer) (key url : string) (now : Z) : tile_layer :=
  if negb (map_has key (tileCache L)) && negb (set_has key (loadingTiles L))
  then fst (loadTile L key url now) else L.

(** The preload loop over its (key, url) pairs. *)
Definition preload_run (L : tile_layer) (tiles : list (string * string)) (now : Z) : tile_layer :=
  fold_left (fun L' e => preload_tile L' (fst e) (snd e) now) tiles L.


(** ** Hit testing of GeoJSON shapes ([GeoJSONLayer]) *)

(** The test of one edge in [_pointInRing]:
    [((yi > y) !== (yj > y)) && (x < (xj - xi) * (y - yi) / (yj - yi) + xi)]. *)
Definition edge_crosses (x y : R) (pi pj : point) : bool :=
  negb (Bool.eqb (if Rlt_dec y (py pi) then true else false)
                 (if Rlt_dec y (py pj) then true else false)) &&
  (if Rlt_dec x ((px pj - px pi) * (y - py pi) / (py pj - py pi) + px pi) then true else false).

(** The loop [for (let i = 0, j = ring.length - 1; i < ring.length; j = i++)]:
    [prev] is [ring[j]]. *)
Fixpoint ring_loop (x y : R) (prev : point) (ring : list point) (inside : bool) : bool :=
  match ring with
  | [] => inside
  | p :: rest => ring_loop x y p rest (if edge_crosses x y p prev then negb inside else inside)
  end.

Definition origin : point := mkPoint 0 0.

(** [_pointInRing(x, y, ring)] *)
Definition pointInRing (x y : R) (ring : list point) : bool :=
  match ring with
  | [] => false
  | _ => ring_loop x y (last ring origin) ring false
  end.

(** The hole loop of [_pointInPolygon], with its [break]. *)
Fixpoint holes_loop (x y : R) (holes : list (list point)) : bool :=
  match holes with
  | [] => true
  | h :: rest => if pointInRing x y h then false else holes_loop x y rest
  end.

(** [_pointInPolygon(x, y, rings)] for a polygon with at least its outer
    ring ([rings[0]] of an empty array is [undefined] and the call throws:
    [None]). *)
Definition pointInPolygon (x y : R) (rings : list (list point)) : option bool :=
  match rings with
  | [] => None
  | outer :: holes => Some (if pointInRing x y outer then holes_loop x y holes else false)
  end.

(** One segment of [_pointOnLine]: [None] for [continue] ([lenSq === 0]),
    otherwise whether [distSq < (width / 2) * (width / 2)]. *)
Definition segment_hit (x y : R) (p1 p2 : point) (width : R) : option bool :=
  let dx := px p2 - px p1 in
  let dy := py p2 - py p1 in
  let lenSq := dx * dx + dy * dy in
  if Req_dec_T lenSq 0 then None
  else
    let t := ((x - px p1) * dx + (y - py p1) * dy) / lenSq in
    let t := js_max 0 (js_min 1 t) in
    let closeX := px p1 + t * dx in
    let closeY := py p1 + t * dy in
    let distSq := (x - closeX) * (x - closeX) + (y - closeY) * (y - closeY) in
    Some (if Rlt_dec distSq ((width / 2) * (width / 2)) then true else false).

(** [_pointOnLine(x, y, line, width)] *)
Fixpoint pointOnLine (x y : R) (line : list point) (width : R) : bool :=
  match line with
  | p1 :: ((p2 :: _) as rest) =>
      match segment_hit x y p1 p2 width with
      | Some true => true
      | _ => pointOnLine x y rest width
      end
  | _ => false
  end.

(** ** Concrete tile layers used by the examples below *)

Definition osm_template : string := "https://a.tile.openstreetmap.org/{z}/{x}/{y}.png"%string.

(** A cache of three loaded tiles over a maximum of two. *)
Definition eviction_example : tile_layer :=
  mkTileLayer osm_template false 2
    [("3/1/2"%string, mkTileRec true 5 30); ("3/2/2"%string, mkTileRec true 6 10);
     ("3/3/2"%string, mkTileRec true 7 20)]
    [] [] true [] [].

(** Two tiles requested by [render] on a layer with [maxCacheSize = 1]:
    tile A at time 1, tile B at time 2, the eviction pass, then tile A
    again at time 3; no image has loaded or failed in between. *)
Definition tileA : string := "3/1/2"%string.
Definition tileB : string := "3/2/2"%string.
Definition urlA : string := "https://a.tile.openstreetmap.org/3/1/2.png"%string.
Definition urlB : string := "https://a.tile.openstreetmap.org/3/2/2.png"%string.
Definition dedup_L2 : tile_layer :=
  render_tile (render_tile (new_tile_layer osm_template false 1) tileA urlA 1) tileB urlB 2.
Definition dedup_L3 : tile_layer := performEviction dedup_L2.
Definition dedup_L4 : tile_layer := render_tile dedup_L3 tileA urlA 3.

(** A retina load of tile A on a retina-supporting layer. *)
Definition retina_layer : tile_layer := new_tile_layer osm_template true 500.
Definition retina_job : load_job :=
  mkLoadJob tileA (urlA ++ retinaSuffix) (urlA ++ retinaSuffix) true false PPending.

(** A template with a [{s}] placeholder, as some tile providers publish. *)
Definition subdomain_template : string :=
  "https://{s}.tile.openstreetmap.org/{z}/{x}/{y}.png"%string.

(** ** Concrete viewports used by the examples below *)

(** A 512x512 canvas at device pixel ratio 1, no base layer, zoom 0,
    north-up, centered on (0, 170). *)
Definition view_near_antimeridian : atlas :=
  mkAtlas (mkLatLng 0 170) 0 0 512 512 1 None.

(** A screen point [64/9] pixels right of the canvas center: at zoom 0 this
    is [10] degrees of longitude east of the center, i.e. on the antimeridian. *)
Definition anchor_x_antimeridian : R := 256 + 64 / 9.

(** The fly-to scenario of the spec: from (0, -179) to (0, 179) at zoom 5. *)
Definition flyto_scenario_map : atlas :=
  mkAtlas (mkLatLng 0 (-179)) 3 0 512 512 1 None.
Definition flyto_scenario_options : flyto_options :=
  mkFlyToOptions (Some (mkLatLng 0 179)) (Some 5) None None None.

(** A fly-to across the dateline, from (0, 179) to (0, -179), with linear
    easing and the default duration. *)
Definition flyto_dateline_map : atlas :=
  mkAtlas (mkLatLng 0 179) 3 0 512 512 1 None.
Definition flyto_dateline_options : flyto_options :=
  mkFlyToOptions (Some (mkLatLng 0 (-179))) None None None (Some linear).

(** ** Lemmas on the Web Mercator formulas *)

Lemma PI_neq0' : PI <> 0.
Proof. apply PI_neq0. Qed.

Lemma EARTH_RADIUS_pos : 0 < EARTH_RADIUS.
Proof. unfold EARTH_RADIUS; lra. Qed.

(** The Mercator ratio [(1 + sin φ) / (1 - sin φ)] written with the half-angle
    [θ = φ/2 + π/4]. *)
Lemma mercator_ratio (th : R) :
  0 < th < PI / 2 ->
  0 < 1 - sin (2 * th - PI / 2) /\
  (1 + sin (2 * th - PI / 2)) / (1 - sin (2 * th - PI / 2)) = tan th * tan th.
Proof.
  intros Hth.
  assert (Hs : sin (2 * th - PI / 2) = - cos (2 * th)).
  { rewrite sin_minus, sin_PI2, cos_PI2; ring. }
  assert (Hc : 0 < cos th) by (apply cos_gt_0; lra).
  assert (H2 : cos (2 * th) = cos th * cos th - sin th * sin th).
  { replace (2 * th) with (th + th) by ring. apply cos_plus. }
  pose proof (sin2_cos2 th) as Hsc. unfold Rsqr in Hsc.
  rewrite Hs, H2. unfold tan. split.
  - nra.
  - replace (1 + - (cos th * cos th - sin th * sin th)) with (2 * (sin th * sin th)) by lra.
    replace (1 - - (cos th * cos th - sin th * sin th)) with (2 * (cos th * cos th)) by lra.
    field. lra.
Qed.

Lemma exp_half_ln_sq (t : R) : 0 < t -> exp (ln (t * t) / 2) = t.
Proof.
  intros Ht. rewrite ln_mult by lra.
  replace ((ln t + ln t) / 2) with (ln t) by field.
  apply exp_ln; lra.
Qed.

Lemma MAX_LATITUDE_rad : MAX_LATITUDE * DEG2RAD < PI / 2.
Proof.
  unfold MAX_LATITUDE, DEG2RAD. pose proof PI_RGT_0. nra.
Qed.

(** Latitude round trip through the Mercator [y] formula. *)
Lemma mercator_lat_roundtrip (phi : R) :
  - (PI / 2) < phi < PI / 2 ->
  let s := sin phi in
  2 * atan (exp (ln ((1 + s) / (1 - s)) / 2)) - PI / 2 = phi.
Proof.
  intros Hphi s.
  set (th := phi / 2 + PI / 4).
  assert (Hth : 0 < th < PI / 2) by (unfold th; lra).
  assert (Hphi' : phi = 2 * th - PI / 2) by (unfold th; field).
  subst s. rewrite Hphi'.
  destruct (mercator_ratio th Hth) as [_ Hr]. rewrite Hr.
  assert (Ht : 0 < tan th).
  { unfold tan. apply Rdiv_lt_0_compat.
    - apply sin_gt_0; lra.
    - apply cos_gt_0; lra. }
  rewrite exp_half_ln_sq by exact Ht.
  rewrite atan_tan by lra. reflexivity.
Qed.

(** Mercator [y] round trip through the latitude formula. *)
Lemma mercator_y_roundtrip (u : R) :
  let phi := 2 * atan (exp u) - PI / 2 in
  let s := sin phi in
  ln ((1 + s) / (1 - s)) / 2 = u.
Proof.
  intros phi s.
  set (th := atan (exp u)).
  assert (Hth : 0 < th < PI / 2).
  { unfold th. pose proof (atan_bound (exp u)) as [_ Hb]. split; [|lra].
    rewrite <- atan_0. apply atan_increasing. apply exp_pos. }
  subst s phi. fold th.
  destruct (mercator_ratio th Hth) as [_ Hr]. rewrite Hr.
  unfold th. rewrite tan_atan.
  rewrite ln_mult by apply exp_pos. rewrite ln_exp. field.
Qed.

Lemma Rabs_le_between' (x a : R) : Rabs x <= a -> - a <= x <= a.
Proof. unfold Rabs; destruct (Rcase_abs x); lra. Qed.

Lemma clamp_project_id (la : R) :
  Rabs la <= MAX_LATITUDE -> js_max (js_min MAX_LATITUDE la) (- MAX_LATITUDE) = la.
Proof.
  intros H. apply Rabs_le_between' in H. unfold js_max, js_min.
  rewrite Rmin_right by lra. rewrite Rmax_left by lra. reflexivity.
Qed.

Lemma clampLatitude_id (la : R) :
  Rabs la <= MAX_LATITUDE -> clampLatitude la = la.
Proof.
  intros H. apply Rabs_le_between' in H. unfold clampLatitude, js_max, js_min, MIN_LATITUDE.
  rewrite Rmin_right by lra. rewrite Rmax_right by (unfold MAX_LATITUDE in *; lra).
  reflexivity.
Qed.

Lemma clampLatitude_range (la : R) :
  MIN_LATITUDE <= clampLatitude la <= MAX_LATITUDE.
Proof.
  unfold clampLatitude, js_max, js_min, MIN_LATITUDE, MAX_LATITUDE.
  split.
  - apply Rmax_l.
  - apply Rmax_lub; [lra | apply Rmin_l].
Qed.

Lemma clampLatitude_abs (la : R) : Rabs (clampLatitude la) <= MAX_LATITUDE.
Proof.
  pose proof (clampLatitude_range la). unfold MIN_LATITUDE, MAX_LATITUDE in *.
  apply Rabs_le; lra.
Qed.

(** The clamped latitude in radians stays strictly inside [(-π/2, π/2)]. *)
Lemma project_angle_bound (ll : latlng) :
  let la := js_max (js_min MAX_LATITUDE (lat ll)) (- MAX_LATITUDE) in
  - (PI / 2) < la * DEG2RAD < PI / 2.
Proof.
  intros la.
  assert (Hla : - MAX_LATITUDE <= la <= MAX_LATITUDE).
  { unfold la, js_max, js_min. split; [apply Rmax_r |].
    apply Rmax_lub; [apply Rmin_l | unfold MAX_LATITUDE; lra]. }
  pose proof MAX_LATITUDE_rad. pose proof PI_RGT_0.
  unfold DEG2RAD in *. unfold MAX_LATITUDE in *.
  split; nra.
Qed.

Lemma project_sin_bounds (ll : latlng) :
  0 < 1 - project_sin ll /\ 0 < 1 + project_sin ll.
Proof.
  pose proof (project_angle_bound ll) as Hb. simpl in Hb.
  unfold project_sin. set (a := js_max (js_min MAX_LATITUDE (lat ll)) (- MAX_LATITUDE) * DEG2RAD) in *.
  split.
  - assert (sin a < sin (PI / 2)) by (apply sin_increasing_1; lra).
    rewrite sin_PI2 in *. lra.
  - assert (sin (- (PI / 2)) < sin a) by (apply sin_increasing_1; lra).
    rewrite sin_neg, sin_PI2 in *. lra.
Qed.

Lemma unproject_project (ll : latlng) :
  Rabs (lat ll) <= MAX_LATITUDE -> unproject (project ll) = ll.
Proof.
  intros H. destruct ll as [la lo]. simpl in H.
  unfold unproject, project, project_sin. simpl.
  rewrite clamp_project_id by exact H.
  pose proof (project_angle_bound (mkLatLng la lo)) as Hb. simpl in Hb.
  rewrite clamp_project_id in Hb by exact H.
  pose proof EARTH_RADIUS_pos. pose proof PI_neq0'.
  replace (EARTH_RADIUS * ln ((1 + sin (la * DEG2RAD)) / (1 - sin (la * DEG2RAD))) / 2 / EARTH_RADIUS)
    with (ln ((1 + sin (la * DEG2RAD)) / (1 - sin (la * DEG2RAD))) / 2) by (field; lra).
  rewrite (mercator_lat_roundtrip (la * DEG2RAD) Hb).
  f_equal; unfold RAD2DEG, DEG2RAD; field; lra.
Qed.

Lemma project_unproject (p : point) :
  Rabs (lat (unproject p)) <= MAX_LATITUDE -> project (unproject p) = p.
Proof.
  intros H. destruct p as [x y].
  unfold project, project_sin. rewrite clamp_project_id by exact H.
  unfold unproject in *. simpl in *.
  pose proof EARTH_RADIUS_pos. pose proof PI_neq0'.
  replace ((2 * atan (exp (y / EARTH_RADIUS)) - PI / 2) * RAD2DEG * DEG2RAD)
    with (2 * atan (exp (y / EARTH_RADIUS)) - PI / 2)
    by (unfold RAD2DEG, DEG2RAD; field; lra).
  replace (EARTH_RADIUS * ln ((1 + sin (2 * atan (exp (y / EARTH_RADIUS)) - PI / 2))
           / (1 - sin (2 * atan (exp (y / EARTH_RADIUS)) - PI / 2))) / 2)
    with (EARTH_RADIUS * (ln ((1 + sin (2 * atan (exp (y / EARTH_RADIUS)) - PI / 2))
           / (1 - sin (2 * atan (exp (y / EARTH_RADIUS)) - PI / 2))) / 2)) by field.
  rewrite (mercator_y_roundtrip (y / EARTH_RADIUS)).
  f_equal; unfold RAD2DEG, DEG2RAD; field; lra.
Qed.

Lemma project_clamps (ll : latlng) :
  project ll = project (mkLatLng (clampLatitude (lat ll)) (lon ll)).
Proof.
  unfold project, project_sin. simpl.
  rewrite (clamp_project_id (clampLatitude (lat ll))) by apply clampLatitude_abs.
  assert (E : MIN_LATITUDE = - MAX_LATITUDE) by (unfold MIN_LATITUDE, MAX_LATITUDE; lra).
  unfold clampLatitude, js_max, js_min. rewrite E, Rmax_comm. reflexivity.
Qed.

(** ** C2: Mercator round trip *)

(** C2: for latitude in (-85, 85) and longitude in (-180, 180),
    [unproject (project p)] equals [p] within 1e-9 (in fact exactly); [project]
    uses the latitude clamped to ±85.05112878, and for every input the sine of
    the clamped latitude lies strictly inside (-1, 1), so both the numerator and
    the denominator of the logarithm's argument are positive: no division by zero
    and a finite [y]. *)
Theorem mercator_roundtrip (ll : latlng) :
  -85 < lat ll < 85 -> -180 < lon ll < 180 ->
  Rabs (lat (unproject (project ll)) - lat ll) <= / 1000000000 /\
  Rabs (lon (unproject (project ll)) - lon ll) <= / 1000000000 /\
  (forall ll', project ll' = project (mkLatLng (clampLatitude (lat ll')) (lon ll')) /\
               0 < 1 - project_sin ll' /\ 0 < 1 + project_sin ll').
Proof.
  intros Hlat Hlon.
  rewrite unproject_project.
  2:{ apply Rabs_le. unfold MAX_LATITUDE. lra. }
  unfold Rminus. rewrite !Rplus_opp_r, Rabs_R0.
  split; [lra | split; [lra |]].
  intros ll'. split; [apply project_clamps | apply project_sin_bounds].
Qed.

Lemma mercator_roundtrip_witness :
  (-85 < 0 < 85 /\ -180 < 0 < 180) /\
  Rabs (lat (unproject (project (mkLatLng 0 0))) - 0) <= / 1000000000.
Proof.
  split; [split; lra |].
  apply (mercator_roundtrip (mkLatLng 0 0)); simpl; lra.
Defined.

(** ** Lemmas on [atan2] and [normalizeAngle] *)

Lemma atan_nonpos (x : R) : x <= 0 -> atan x <= 0.
Proof.
  intros H. destruct (Req_dec x 0) as [->|Hn]; [rewrite atan_0; lra|].
  rewrite <- atan_0. left. apply atan_increasing. lra.
Qed.

Lemma atan_pos (x : R) : 0 < x -> 0 < atan x.
Proof. intros H. rewrite <- atan_0. apply atan_increasing. exact H. Qed.

Lemma atan2_range (y x : R) : - PI < atan2 y x <= PI.
Proof.
  pose proof PI_RGT_0 as Hpi.
  unfold atan2.
  destruct (Rlt_dec 0 x) as [Hx|Hx].
  - pose proof (atan_bound (y / x)). lra.
  - destruct (Rlt_dec x 0) as [Hx'|Hx'].
    + destruct (Rle_dec 0 y) as [Hy|Hy].
      * assert (y / x <= 0).
        { assert (Hi : / x < 0) by (apply Rinv_lt_0_compat; exact Hx').
          unfold Rdiv. nra. }
        pose proof (atan_nonpos _ H). pose proof (atan_bound (y / x)). lra.
      * assert (0 < y / x).
        { assert (Hi : / x < 0) by (apply Rinv_lt_0_compat; exact Hx').
          unfold Rdiv. nra. }
        pose proof (atan_pos _ H). pose proof (atan_bound (y / x)). lra.
    + destruct (Rlt_dec 0 y); [lra|].
      destruct (Rlt_dec y 0); lra.
Qed.

Lemma normalizeAngle_range (r : R) : - PI < normalizeAngle r <= PI.
Proof. apply atan2_range. Qed.

Lemma atan_ratio_pos (s c : R) :
  0 < c -> s * s + c * c = 1 ->
  cos (atan (s / c)) = c /\ sin (atan (s / c)) = s.
Proof.
  intros Hc Hsc.
  assert (E : 1 + (s / c)² = Rsqr (/ c)).
  { unfold Rsqr. field_simplify_eq; [lra | lra]. }
  assert (Hq : sqrt (1 + (s / c)²) = / c).
  { rewrite E. apply sqrt_Rsqr. left. apply Rinv_0_lt_compat. exact Hc. }
  rewrite cos_atan, sin_atan, Hq. split; field; lra.
Qed.

Lemma atan_ratio_neg (s c : R) :
  c < 0 -> s * s + c * c = 1 ->
  cos (atan (s / c)) = - c /\ sin (atan (s / c)) = - s.
Proof.
  intros Hc Hsc.
  assert (E : 1 + (s / c)² = Rsqr (- / c)).
  { unfold Rsqr. field_simplify_eq; [lra | lra]. }
  assert (Hq : sqrt (1 + (s / c)²) = - / c).
  { rewrite E. apply sqrt_Rsqr. left. apply Ropp_0_gt_lt_contravar.
    apply Rinv_lt_0_compat. exact Hc. }
  rewrite cos_atan, sin_atan, Hq. split; field; lra.
Qed.

(** [normalizeAngle] changes the angle only by a whole number of turns: it
    keeps the sine and the cosine. *)
Lemma normalizeAngle_cos_sin (b : R) :
  cos (normalizeAngle b) = cos b /\ sin (normalizeAngle b) = sin b.
Proof.
  pose proof (sin2_cos2 b) as Hsc. unfold Rsqr in Hsc.
  assert (Hsc' : sin b * sin b + cos b * cos b = 1) by lra.
  unfold normalizeAngle, atan2.
  destruct (Rlt_dec 0 (cos b)) as [Hc|Hc].
  - apply atan_ratio_pos; assumption.
  - destruct (Rlt_dec (cos b) 0) as [Hc'|Hc'].
    + destruct (atan_ratio_neg _ _ Hc' Hsc') as [Ec Es].
      destruct (Rle_dec 0 (sin b)).
      * rewrite neg_cos, neg_sin, Ec, Es. split; ring.
      * unfold Rminus. rewrite cos_plus, sin_plus, cos_neg, sin_neg, cos_PI, sin_PI, Ec, Es.
        split; ring.
    + assert (Hc0 : cos b = 0) by lra.
      rewrite Hc0 in Hsc'.
      destruct (Rlt_dec 0 (sin b)).
      * rewrite cos_PI2, sin_PI2, Hc0. split; [reflexivity | nra].
      * destruct (Rlt_dec (sin b) 0).
        -- rewrite cos_neg, sin_neg, cos_PI2, sin_PI2, Hc0. split; [reflexivity | nra].
        -- exfalso. assert (sin b = 0) by lra. nra.
Qed.

Lemma rot_normalizeAngle (x y b : R) :
  rot x y (- normalizeAngle b) = rot x y (- b).
Proof.
  destruct (normalizeAngle_cos_sin b) as [Ec Es].
  unfold rot. rewrite !cos_neg, !sin_neg, Ec, Es. reflexivity.
Qed.

(** ** Lemmas on [Math.floor], [Math.ceil] and [wrapLongitude] *)

Lemma Int_part_bounds (r : R) : IZR (Int_part r) <= r < IZR (Int_part r) + 1.
Proof. destruct (base_Int_part r). lra. Qed.

Lemma Int_part_IZR (z : Z) : Int_part (IZR z) = z.
Proof. symmetry. apply Int_part_spec. lra. Qed.

Lemma js_ceil_bounds (r : R) : r <= IZR (js_ceil r) < r + 1.
Proof.
  unfold js_ceil. rewrite opp_IZR. pose proof (Int_part_bounds (- r)). lra.
Qed.

Lemma wrapLongitude_range (l : R) : -180 <= wrapLongitude l <= 180.
Proof.
  unfold wrapLongitude.
  destruct (Rlt_dec 180 l).
  - pose proof (js_ceil_bounds ((l - 180) / 360)). lra.
  - destruct (Rlt_dec l (-180)).
    + pose proof (js_ceil_bounds ((-180 - l) / 360)). lra.
    + lra.
Qed.

Lemma wrapLongitude_shift (l : R) : exists k : Z, wrapLongitude l = l + 360 * IZR k.
Proof.
  unfold wrapLongitude.
  destruct (Rlt_dec 180 l).
  - exists (- js_ceil ((l - 180) / 360))%Z. rewrite opp_IZR. ring.
  - destruct (Rlt_dec l (-180)).
    + exists (js_ceil ((-180 - l) / 360)). ring.
    + exists 0%Z. simpl. ring.
Qed.

Lemma wrapLongitude_id (l : R) : -180 <= l <= 180 -> wrapLongitude l = l.
Proof.
  intros H. unfold wrapLongitude.
  destruct (Rlt_dec 180 l); [lra|]. destruct (Rlt_dec l (-180)); [lra|]. reflexivity.
Qed.

(** Two longitudes of [[-180, 180]] a whole number of turns apart are equal,
    or are the two names [180] and [-180] of the antimeridian. *)
Lemma lon_congruent_in_range (a b : R) (k : Z) :
  -180 <= a <= 180 -> -180 <= b <= 180 -> b = a + 360 * IZR k ->
  b = a \/ (a = 180 /\ b = -180) \/ (a = -180 /\ b = 180).
Proof.
  intros Ha Hb E.
  assert (Hk1 : IZR k <= 1) by lra.
  assert (Hk2 : -1 <= IZR k) by lra.
  apply le_IZR in Hk1. apply le_IZR in Hk2.
  assert (Hk : (k = -1 \/ k = 0 \/ k = 1)%Z) by lia.
  destruct Hk as [ -> | [ -> | -> ] ]; simpl in E.
  - right. left. lra.
  - left. lra.
  - right. right. lra.
Qed.

(** ** Tile-space lemmas *)

Lemma pow2_pos (z : R) : 0 < pow2 z.
Proof. unfold pow2, Rpower. apply exp_pos. Qed.

Lemma tile_of_latlng_of_tile (x y z : R) :
  Rabs (lat (tileToLatLng x y z)) <= MAX_LATITUDE ->
  latLngToTile (tileToLatLng x y z) z = mkPoint x y.
Proof.
  intros H. unfold tileToLatLng in *. unfold latLngToTile.
  rewrite project_unproject by exact H. simpl.
  pose proof (pow2_pos z). pose proof EARTH_RADIUS_pos. pose proof PI_neq0'.
  f_equal; field; lra.
Qed.

Lemma tile_scale_inv (q : point) (sc : R) :
  0 < sc ->
  mkPoint ((px q + PI * EARTH_RADIUS) / (2 * PI * EARTH_RADIUS) * sc / sc * 2 * PI * EARTH_RADIUS
             - PI * EARTH_RADIUS)
          (PI * EARTH_RADIUS - (PI * EARTH_RADIUS - py q) / (2 * PI * EARTH_RADIUS) * sc / sc
             * 2 * PI * EARTH_RADIUS) = q.
Proof.
  intros Hs. destruct q as [a b]. simpl.
  pose proof EARTH_RADIUS_pos. pose proof PI_neq0'.
  f_equal; field; lra.
Qed.

Lemma latlng_of_tile_of_latlng (ll : latlng) (z : R) :
  Rabs (lat ll) <= MAX_LATITUDE ->
  tileToLatLng (px (latLngToTile ll z)) (py (latLngToTile ll z)) z = ll.
Proof.
  intros H. unfold tileToLatLng, latLngToTile. cbv zeta. cbn [px py].
  rewrite tile_scale_inv by apply pow2_pos.
  apply unproject_project. exact H.
Qed.

Lemma latLngToTile_lon_shift (la lo k z : R) :
  latLngToTile (mkLatLng la (lo + 360 * k)) z =
  mkPoint (px (latLngToTile (mkLatLng la lo) z) + k * pow2 z)
          (py (latLngToTile (mkLatLng la lo) z)).
Proof.
  unfold latLngToTile, project, project_sin. simpl.
  pose proof (pow2_pos z). pose proof EARTH_RADIUS_pos. pose proof PI_neq0'.
  f_equal. unfold DEG2RAD. field. lra.
Qed.

Lemma tileToLatLng_x_shift (x y k z : R) :
  tileToLatLng (x + k * pow2 z) y z =
  mkLatLng (lat (tileToLatLng x y z)) (lon (tileToLatLng x y z) + 360 * k).
Proof.
  unfold tileToLatLng, unproject. simpl.
  pose proof (pow2_pos z). pose proof EARTH_RADIUS_pos. pose proof PI_neq0'.
  f_equal. unfold RAD2DEG. field. lra.
Qed.

Lemma latlng_eta (ll : latlng) : mkLatLng (lat ll) (lon ll) = ll.
Proof. destruct ll; reflexivity. Qed.

(** The tile-space step of the anchored zoom: moving the center to
    [Ptile - v] and reading back the point at offset [v] gives the anchor,
    whatever whole number of turns the center's longitude is shifted by. *)
Lemma anchor_tile_step (A : latlng) (v : point) (z k : R) :
  Rabs (lat A) <= MAX_LATITUDE ->
  let Ptile := latLngToTile A z in
  let nc := tileToLatLng (px Ptile - px v) (py Ptile - py v) z in
  Rabs (lat nc) <= MAX_LATITUDE ->
  let ct := latLngToTile (mkLatLng (lat nc) (lon nc + 360 * k)) z in
  tileToLatLng (px ct + px v) (py ct + py v) z = mkLatLng (lat A) (lon A + 360 * k).
Proof.
  intros HA Ptile nc Hnc ct.
  unfold ct. rewrite latLngToTile_lon_shift, latlng_eta.
  unfold nc. rewrite tile_of_latlng_of_tile by exact Hnc. cbn [px py].
  replace (px Ptile - px v + k * pow2 z + px v) with (px Ptile + k * pow2 z) by ring.
  replace (py Ptile - py v + py v) with (py Ptile) by ring.
  rewrite tileToLatLng_x_shift. unfold Ptile.
  rewrite latlng_of_tile_of_latlng by exact HA. reflexivity.
Qed.

(** ** C1: anchored zoom/rotate *)

(** C1 (amended): when the center recomputed by [applyZoomRotateAbout] needs no
    latitude clamping, the geocoordinate read under the anchor pixel after the
    operation has the same latitude as before and the same longitude, except
    that an anchor on the antimeridian may read [180] on one side and [-180]
    on the other (both are values of [wrapLongitude]). *)
Theorem applyZoomRotateAbout_keeps_anchor (m : atlas) (ax ay newZoom newBearing : R) :
  Rabs (lat (anchored_center m ax ay newZoom newBearing None)) <= MAX_LATITUDE ->
  let before := screenToLatLon_here m ax ay in
  let after := screenToLatLon_here (applyZoomRotateAbout m ax ay newZoom newBearing None) ax ay in
  lat after = lat before /\
  (lon after = lon before \/
   (lon before = 180 /\ lon after = -180) \/ (lon before = -180 /\ lon after = 180)).
Proof.
  intros Hnc before after.
  set (A := screenToLatLon m ax ay (zoom m) (bearing m) (center m)).
  assert (Hbefore : before = A) by reflexivity.
  assert (HA : Rabs (lat A) <= MAX_LATITUDE) by (unfold A, screenToLatLon; apply clampLatitude_abs).
  assert (HlonA : -180 <= lon A <= 180) by (unfold A, screenToLatLon; apply wrapLongitude_range).
  set (nz := clamp_zoom m newZoom).
  set (zInt := IZR (js_floor nz)).
  set (ts := TILE_SIZE * pow2 (nz - zInt)).
  set (w := canvas_width m / dpr m).
  set (h := canvas_height m / dpr m).
  set (v := rot ((ax - w / 2) / ts) ((ay - h / 2) / ts) (- newBearing)).
  assert (Hnc_eq : anchored_center m ax ay newZoom newBearing None =
                   tileToLatLng (px (latLngToTile A zInt) - px v)
                                (py (latLngToTile A zInt) - py v) zInt) by reflexivity.
  rewrite Hnc_eq in Hnc.
  destruct (wrapLongitude_shift (lon (anchored_center m ax ay newZoom newBearing None))) as [k Hk].
  assert (Hafter : after =
    mkLatLng (clampLatitude (lat (tileToLatLng
                (px (latLngToTile (mkLatLng (lat (anchored_center m ax ay newZoom newBearing None))
                     (lon (anchored_center m ax ay newZoom newBearing None) + 360 * IZR k)) zInt) + px v)
                (py (latLngToTile (mkLatLng (lat (anchored_center m ax ay newZoom newBearing None))
                     (lon (anchored_center m ax ay newZoom newBearing None) + 360 * IZR k)) zInt) + py v)
                zInt)))
             (wrapLongitude (lon (tileToLatLng
                (px (latLngToTile (mkLatLng (lat (anchored_center m ax ay newZoom newBearing None))
                     (lon (anchored_center m ax ay newZoom newBearing None) + 360 * IZR k)) zInt) + px v)
                (py (latLngToTile (mkLatLng (lat (anchored_center m ax ay newZoom newBearing None))
                     (lon (anchored_center m ax ay newZoom newBearing None) + 360 * IZR k)) zInt) + py v)
                zInt)))).
  { unfold after, screenToLatLon_here, applyZoomRotateAbout, screenToLatLon.
    cbn [center zoom bearing canvas_width canvas_height dpr lat lon].
    rewrite rot_normalizeAngle. rewrite <- Hk.
    rewrite (clampLatitude_id (lat (anchored_center m ax ay newZoom newBearing None))).
    - reflexivity.
    - rewrite Hnc_eq. exact Hnc. }
  rewrite Hafter, Hbefore. rewrite Hnc_eq.
  rewrite (anchor_tile_step A v zInt (IZR k) HA Hnc). cbn [lat lon].
  rewrite (clampLatitude_id _ HA). split; [reflexivity|].
  destruct (wrapLongitude_shift (lon A + 360 * IZR k)) as [k' Hk'].
  apply (lon_congruent_in_range (lon A) _ (k + k')).
  - exact HlonA.
  - apply wrapLongitude_range.
  - rewrite Hk', plus_IZR. ring.
Qed.

(** *** Evaluating the viewport at zoom 0 on the equator *)

Lemma floor_IZR0 : IZR (js_floor 0) = 0.
Proof. unfold js_floor. rewrite Int_part_IZR. reflexivity. Qed.

Lemma pow2_0 : pow2 0 = 1.
Proof. unfold pow2. apply Rpower_O. lra. Qed.

Lemma latLngToTile_equator0 (lo : R) :
  latLngToTile (mkLatLng 0 lo) 0 = mkPoint ((lo + 180) / 360) (1 / 2).
Proof.
  unfold latLngToTile, project, project_sin. cbn [lat lon px py].
  rewrite pow2_0.
  replace (js_max (js_min MAX_LATITUDE 0) (- MAX_LATITUDE) * DEG2RAD) with 0.
  2:{ rewrite clamp_project_id; [ring | rewrite Rabs_R0; unfold MAX_LATITUDE; lra]. }
  rewrite sin_0. replace ((1 + 0) / (1 - 0)) with 1 by field. rewrite ln_1.
  pose proof EARTH_RADIUS_pos. pose proof PI_neq0'.
  unfold DEG2RAD. f_equal; field; lra.
Qed.

Lemma tileToLatLng_equator0 (x : R) :
  tileToLatLng x (1 / 2) 0 = mkLatLng 0 (x * 360 - 180).
Proof.
  unfold tileToLatLng, unproject. cbn [px py]. rewrite pow2_0.
  pose proof EARTH_RADIUS_pos. pose proof PI_neq0'.
  replace ((PI * EARTH_RADIUS - 1 / 2 / 1 * 2 * PI * EARTH_RADIUS) / EARTH_RADIUS) with 0
    by (field; lra).
  rewrite exp_0, atan_1.
  unfold RAD2DEG. f_equal; field; lra.
Qed.

Lemma anchor_before_antimeridian :
  screenToLatLon_here view_near_antimeridian anchor_x_antimeridian 256 = mkLatLng 0 180.
Proof.
  unfold screenToLatLon_here, screenToLatLon, view_near_antimeridian, anchor_x_antimeridian.
  cbn [center zoom bearing canvas_width canvas_height dpr px py].
  rewrite floor_IZR0. replace (0 - 0) with 0 by ring. rewrite pow2_0, latLngToTile_equator0.
  unfold rot. rewrite Ropp_0, cos_0, sin_0. cbn [px py].
  match goal with
  | |- context [tileToLatLng ?x ?y 0] =>
      replace y with (1 / 2) by (unfold TILE_SIZE; field);
      replace x with 1 by (unfold TILE_SIZE; field)
  end.
  rewrite tileToLatLng_equator0. cbn [lat lon].
  rewrite clampLatitude_id by (rewrite Rabs_R0; unfold MAX_LATITUDE; lra).
  rewrite wrapLongitude_id; [f_equal; ring | lra].
Qed.

Lemma clamp_zoom_antimeridian : clamp_zoom view_near_antimeridian 0 = 0.
Proof.
  unfold clamp_zoom, map_min_zoom, map_max_zoom, view_near_antimeridian, js_max, js_min.
  cbn [baseLayer]. rewrite Rmin_right by lra. rewrite Rmax_right by lra. reflexivity.
Qed.

Lemma anchored_center_antimeridian :
  anchored_center view_near_antimeridian anchor_x_antimeridian 256 0 PI None = mkLatLng 0 190.
Proof.
  unfold anchored_center. rewrite clamp_zoom_antimeridian.
  change (screenToLatLon view_near_antimeridian anchor_x_antimeridian 256
            (zoom view_near_antimeridian) (bearing view_near_antimeridian)
            (center view_near_antimeridian))
    with (screenToLatLon_here view_near_antimeridian anchor_x_antimeridian 256).
  rewrite anchor_before_antimeridian.
  rewrite floor_IZR0. replace (0 - 0) with 0 by ring. rewrite pow2_0, latLngToTile_equator0.
  unfold rot, view_near_antimeridian, anchor_x_antimeridian.
  cbn [canvas_width canvas_height dpr px py].
  rewrite cos_neg, sin_neg, cos_PI, sin_PI.
  match goal with
  | |- context [tileToLatLng ?x ?y 0] =>
      replace y with (1 / 2) by (unfold TILE_SIZE; field);
      replace x with (37 / 36) by (unfold TILE_SIZE; field)
  end.
  rewrite tileToLatLng_equator0. f_equal. field.
Qed.

Lemma wrapLongitude_190 : wrapLongitude 190 = -170.
Proof.
  unfold wrapLongitude, js_ceil.
  destruct (Rlt_dec 180 190) as [_|H]; [|lra].
  replace (Int_part (- ((190 - 180) / 360))) with (-1)%Z.
  - simpl. lra.
  - apply Int_part_spec. lra.
Qed.

Lemma anchor_after_antimeridian :
  screenToLatLon_here
    (applyZoomRotateAbout view_near_antimeridian anchor_x_antimeridian 256 0 PI None)
    anchor_x_antimeridian 256 = mkLatLng 0 (-180).
Proof.
  unfold applyZoomRotateAbout. rewrite anchored_center_antimeridian, clamp_zoom_antimeridian.
  cbn [lat lon]. rewrite wrapLongitude_190.
  rewrite clampLatitude_id by (rewrite Rabs_R0; unfold MAX_LATITUDE; lra).
  unfold screenToLatLon_here, screenToLatLon, view_near_antimeridian, anchor_x_antimeridian.
  cbn [center zoom bearing canvas_width canvas_height dpr px py].
  rewrite floor_IZR0. replace (0 - 0) with 0 by ring. rewrite pow2_0, latLngToTile_equator0.
  rewrite rot_normalizeAngle. unfold rot.
  rewrite cos_neg, sin_neg, cos_PI, sin_PI. cbn [px py].
  match goal with
  | |- context [tileToLatLng ?x ?y 0] =>
      replace y with (1 / 2) by (unfold TILE_SIZE; field);
      replace x with 0 by (unfold TILE_SIZE; field)
  end.
  rewrite tileToLatLng_equator0. cbn [lat lon].
  rewrite clampLatitude_id by (rewrite Rabs_R0; unfold MAX_LATITUDE; lra).
  rewrite wrapLongitude_id; [f_equal; ring | lra].
Qed.

(** C1 counterexample: with the map centered on (0, 170) at zoom 0 and the
    anchor on the antimeridian, turning the map by π at the same zoom (a zoom
    inside the [0, 18] range used without a base layer) reads the anchor's
    longitude as [180] before and [-180] after: they differ by 360 degrees,
    not by at most 1e-6. *)
Lemma applyZoomRotateAbout_anchor_cex :
  map_min_zoom view_near_antimeridian <= 0 <= map_max_zoom view_near_antimeridian /\
  lon (screenToLatLon_here view_near_antimeridian anchor_x_antimeridian 256) = 180 /\
  lon (screenToLatLon_here
         (applyZoomRotateAbout view_near_antimeridian anchor_x_antimeridian 256 0 PI None)
         anchor_x_antimeridian 256) = -180 /\
  ~ (Rabs (lon (screenToLatLon_here
                 (applyZoomRotateAbout view_near_antimeridian anchor_x_antimeridian 256 0 PI None)
                 anchor_x_antimeridian 256)
           - lon (screenToLatLon_here view_near_antimeridian anchor_x_antimeridian 256))
      <= / 1000000).
Proof.
  rewrite anchor_after_antimeridian, anchor_before_antimeridian. cbn [lon].
  unfold map_min_zoom, map_max_zoom, view_near_antimeridian. cbn [baseLayer].
  split; [lra | split; [reflexivity | split; [reflexivity |]]].
  unfold Rabs. destruct (Rcase_abs _); lra.
Qed.

Lemma applyZoomRotateAbout_keeps_anchor_witness :
  Rabs (lat (anchored_center view_near_antimeridian anchor_x_antimeridian 256 0 PI None))
    <= MAX_LATITUDE /\
  lat (screenToLatLon_here
         (applyZoomRotateAbout view_near_antimeridian anchor_x_antimeridian 256 0 PI None)
         anchor_x_antimeridian 256)
  = lat (screenToLatLon_here view_near_antimeridian anchor_x_antimeridian 256).
Proof.
  assert (H : Rabs (lat (anchored_center view_near_antimeridian anchor_x_antimeridian 256 0 PI None))
                <= MAX_LATITUDE).
  { rewrite anchored_center_antimeridian. cbn [lat]. rewrite Rabs_R0.
    unfold MAX_LATITUDE. lra. }
  split; [exact H |].
  apply (applyZoomRotateAbout_keeps_anchor view_near_antimeridian anchor_x_antimeridian 256 0 PI H).
Defined.

(** ** The [%] operator and [wrapDeltaLon] *)

Lemma js_mod_shift (a b : R) : exists k : Z, js_mod a b = a - b * IZR k.
Proof. exists (js_trunc (a / b)). reflexivity. Qed.

Lemma js_mod_bounds (a b : R) : 0 < b -> - b < js_mod a b < b.
Proof.
  intros Hb. unfold js_mod, js_trunc.
  destruct (Rle_dec 0 (a / b)) as [H|H].
  - pose proof (Int_part_bounds (a / b)) as [H1 H2].
    assert (E : a = b * (a / b)) by (field; lra).
    split; [| nra].
    assert (0 <= b * (a / b) - b * IZR (Int_part (a / b))) by nra. nra.
  - rewrite opp_IZR. pose proof (Int_part_bounds (- (a / b))) as [H1 H2].
    assert (E : a = b * (a / b)) by (field; lra).
    split; nra.
Qed.

Lemma js_mod_nonneg (a b : R) : 0 < b -> 0 <= a -> 0 <= js_mod a b < b.
Proof.
  intros Hb Ha. unfold js_mod, js_trunc.
  assert (Hab : 0 <= a / b) by (apply Rmult_le_pos; [lra | left; apply Rinv_0_lt_compat; lra]).
  destruct (Rle_dec 0 (a / b)) as [_|H]; [|lra].
  pose proof (Int_part_bounds (a / b)) as [H1 H2].
  assert (E : a = b * (a / b)) by (field; lra).
  split; nra.
Qed.

Lemma wrapDeltaLon_range (d : R) : -180 <= wrapDeltaLon d < 180.
Proof.
  unfold wrapDeltaLon.
  pose proof (js_mod_bounds (d + 180) 360 ltac:(lra)).
  pose proof (js_mod_nonneg (js_mod (d + 180) 360 + 360) 360 ltac:(lra) ltac:(lra)).
  lra.
Qed.

Lemma wrapDeltaLon_shift (d : R) : exists k : Z, wrapDeltaLon d = d + 360 * IZR k.
Proof.
  unfold wrapDeltaLon.
  destruct (js_mod_shift (d + 180) 360) as [k1 E1].
  destruct (js_mod_shift (js_mod (d + 180) 360 + 360) 360) as [k2 E2].
  exists (1 - k1 - k2)%Z. rewrite E2, E1, !minus_IZR. simpl. ring.
Qed.

Lemma wrapDeltaLon_358 : wrapDeltaLon (179 - -179) = -2.
Proof.
  unfold wrapDeltaLon, js_mod, js_trunc.
  destruct (Rle_dec 0 ((179 - -179 + 180) / 360)) as [_|H]; [|lra].
  replace (Int_part ((179 - -179 + 180) / 360)) with 1%Z by (apply Int_part_spec; lra).
  destruct (Rle_dec 0 ((179 - -179 + 180 - 360 * IZR 1 + 360) / 360)) as [_|H]; [|simpl in H; lra].
  replace (Int_part ((179 - -179 + 180 - 360 * IZR 1 + 360) / 360)) with 1%Z
    by (apply Int_part_spec; simpl; lra).
  simpl. lra.
Qed.

(** ** C6: fly-to interpolation *)

(** C6: [flyTo] computes the longitude delta with [wrapDeltaLon], which lies in
    [[-180, 180)] and differs from the raw east-west difference by whole turns
    (from -179 to 179 it is -2, the 2-degree path); each frame sets the
    latitude to the (clamped) linear interpolation and the zoom to the linear
    interpolation by the eased progress [p]; the bearing delta is the shortest
    angular difference (in [(-π, π]], same sine and cosine as the raw
    difference) scaled by [p]; the longitude is [start + dLon * p], wrapped by
    [wrapLongitude] only on the final frame ([t >= 1]). *)
Theorem flyTo_interpolation (m : atlas) (o : flyto_options) (startT now : R) :
  let j := flyTo_start m o startT in
  let p := fly_p j now in
  let m' := fst (flyTo_frame m j now) in
  let final := snd (flyTo_frame m j now) in
  (-180 <= fj_dLon j < 180 /\
   exists k : Z, fj_dLon j = lon (fj_eC j) - lon (fj_sC j) + 360 * IZR k) /\
  fj_dLon (flyTo_start flyto_scenario_map flyto_scenario_options startT) = -2 /\
  lat (center m') = clampLatitude (lat (fj_sC j) + (lat (fj_eC j) - lat (fj_sC j)) * p) /\
  zoom m' = fj_sZ j + (fj_eZ j - fj_sZ j) * p /\
  (- PI < fj_dB j <= PI /\
   cos (fj_dB j) = cos (num_or (fo_bearing o) (bearing m) - bearing m) /\
   sin (fj_dB j) = sin (num_or (fo_bearing o) (bearing m) - bearing m)) /\
  bearing m' = normalizeAngle (fj_sB j + fj_dB j * p) /\
  (final = true <-> 1 <= fly_t j now) /\
  lon (center m') =
    (if final then wrapLongitude (lon (fj_sC j) + fj_dLon j * p)
     else lon (fj_sC j) + fj_dLon j * p).
Proof.
  intros j p m' final.
  split; [split; [apply wrapDeltaLon_range | apply wrapDeltaLon_shift] |].
  split.
  { unfold flyTo_start, flyto_scenario_map, flyto_scenario_options. cbn.
    rewrite (wrapLongitude_id 179) by lra. apply wrapDeltaLon_358. }
  split; [reflexivity |].
  split; [reflexivity |].
  split.
  { split; [apply normalizeAngle_range | apply normalizeAngle_cos_sin]. }
  split; [reflexivity |].
  unfold final, m', flyTo_frame. cbn [fst snd center lon].
  destruct (Rle_dec 1 (fly_t j now)); split; try reflexivity; intuition congruence.
Qed.

(** ** C7: viewport invariants *)

Lemma clampLatitude_in_range (la : R) : lat_in_range (mkLatLng (clampLatitude la) 0).
Proof. unfold lat_in_range. apply clampLatitude_range. Qed.

Lemma screenToLatLon_ranges (m : atlas) (ax ay z b : R) (c : latlng) :
  lat_in_range (screenToLatLon m ax ay z b c) /\
  lon_in_wrapped_range (screenToLatLon m ax ay z b c).
Proof.
  unfold lat_in_range, lon_in_wrapped_range, screenToLatLon. cbn [lat lon].
  split; [apply clampLatitude_range | apply wrapLongitude_range].
Qed.

Lemma js_clamp_range (lo hi z : R) : lo <= hi -> lo <= js_max lo (js_min hi z) <= hi.
Proof.
  intros H. unfold js_max, js_min. split; [apply Rmax_l |].
  apply Rmax_lub; [lra | apply Rmin_l].
Qed.

Lemma fly_p_unit (j : fly_job) (now : R) :
  easing_in_unit (fj_easing j) -> 0 <= fly_p j now <= 1.
Proof.
  intros He. unfold fly_p.
  destruct (Rle_dec 1 (fly_t j now)); [lra |].
  apply He. unfold js_max, js_min. split; [apply Rmax_l |].
  apply Rmax_lub; [lra | apply Rmin_l].
Qed.

(** C7 (amended): the constructor clamps the latitude, wraps the longitude
    into [[-180, 180]] (both ends included) and sets bearing 0 (its zoom is
    [defaultZoom], unclamped); from a viewport whose latitude, bearing and zoom
    are in range (and a base layer with [minZoom <= maxZoom]), [setZoom],
    [setBearing], drag pan, [applyZoomRotateAbout] and every [flyTo] frame keep
    latitude in [[-85.05112878, 85.05112878]], bearing in [(-π, π]] and zoom in
    [[minZoom, maxZoom]]; drag pan and [applyZoomRotateAbout] put the longitude
    in [[-180, 180]], [setZoom]/[setBearing] leave the center unchanged, and a
    [flyTo] frame wraps the longitude only on its final frame: an intermediate
    frame sets the interpolated longitude [sC.lon + dLon * p] unwrapped. *)
Theorem viewport_writes_invariant (m : atlas) (op : viewport_op) :
  map_min_zoom m <= map_max_zoom m -> viewport_ok m -> op_ready m op ->
  (viewport_ok (apply_op m op) /\ op_lon_result m op (apply_op m op)) /\
  (forall dc dz w h d,
     lat_in_range (center (atlas_init dc dz w h d)) /\
     lon_in_wrapped_range (center (atlas_init dc dz w h d)) /\
     bearing (atlas_init dc dz w h d) = 0).
Proof.
  intros Hmm [Hlat [Hb Hz]] Hready.
  split.
  2:{ intros dc dz w h d. unfold atlas_init, lat_in_range, lon_in_wrapped_range. cbn.
      split; [apply clampLatitude_range | split; [apply wrapLongitude_range | reflexivity]]. }
  destruct op as [z | rad | ds x y | ax ay z b a | j now]; cbn [apply_op op_lon_result].
  - (* setZoom *)
    unfold setZoom.
    destruct (Req_dec_T _ _); [split; [split; auto | reflexivity] |].
    unfold viewport_ok, set_zoom_field, zoom_in_range, map_min_zoom, map_max_zoom in *.
    cbn in *. repeat split; try apply Hlat; try apply Hb;
      (apply js_clamp_range; exact Hmm).
  - (* setBearing *)
    unfold setBearing.
    destruct (Rlt_dec _ _); [split; [split; auto | reflexivity] |].
    unfold viewport_ok, set_bearing_field, zoom_in_range, bearing_in_range, map_min_zoom, map_max_zoom in *.
    cbn in *. repeat split; try apply Hlat; try apply Hz; apply normalizeAngle_range.
  - (* drag pan *)
    unfold drag_move, set_center.
    destruct (screenToLatLon_ranges m (canvas_width m / dpr m / 2 - (x - ds_x ds))
                (canvas_height m / dpr m / 2 - (y - ds_y ds)) (zoom m) (bearing m) (ds_center ds))
      as [H1 H2].
    unfold viewport_ok, zoom_in_range, map_min_zoom, map_max_zoom in *. cbn in *.
    repeat split; try apply H1; try apply H2; try apply Hb; apply Hz.
  - (* applyZoomRotateAbout *)
    unfold applyZoomRotateAbout, viewport_ok, lat_in_range, lon_in_wrapped_range,
      bearing_in_range, zoom_in_range. cbn [center lat lon bearing zoom].
    assert (Hzr := js_clamp_range _ _ z Hmm).
    unfold clamp_zoom, map_min_zoom, map_max_zoom in *. cbn [baseLayer].
    repeat split; try apply clampLatitude_range; try apply normalizeAngle_range;
      try apply wrapLongitude_range; apply Hzr.
  - (* a flyTo frame *)
    destruct Hready as [HsZ [HeZ He]].
    pose proof (fly_p_unit j now He) as Hp.
    unfold flyTo_frame, viewport_ok, lat_in_range, lon_in_wrapped_range,
      bearing_in_range, zoom_in_range. cbn [fst center lat lon bearing zoom].
    unfold map_min_zoom, map_max_zoom in *. cbn [baseLayer].
    split.
    + repeat split; try apply clampLatitude_range; try apply normalizeAngle_range.
      * destruct (baseLayer m); nra.
      * destruct (baseLayer m); nra.
    + split.
      * intros Ht. destruct (Rle_dec 1 (fly_t j now)); [| lra].
        apply wrapLongitude_range.
      * intros Ht. destruct (Rle_dec 1 (fly_t j now)); [lra | reflexivity].
Qed.

Lemma wrapDeltaLon_neg358 : wrapDeltaLon (-179 - 179) = 2.
Proof.
  unfold wrapDeltaLon, js_mod, js_trunc.
  destruct (Rle_dec 0 ((-179 - 179 + 180) / 360)) as [H|_]; [lra |].
  replace (Int_part (- ((-179 - 179 + 180) / 360))) with 0%Z by (apply Int_part_spec; lra).
  destruct (Rle_dec 0 ((-179 - 179 + 180 - 360 * IZR (- 0) + 360) / 360)) as [_|H];
    [| simpl in H; lra].
  replace (Int_part ((-179 - 179 + 180 - 360 * IZR (- 0) + 360) / 360)) with 0%Z
    by (apply Int_part_spec; simpl; lra).
  simpl. lra.
Qed.

(** C7 counterexample: the constructor with default center longitude [-180]
    keeps [-180], outside [(-180, 180]]; an intermediate frame of a linear
    fly-to from longitude 179 to -179 (600 ms into the 800 ms default) sets the
    longitude to [180.5]; the constructor's zoom [25] is outside the [[0, 18]]
    bounds used without a base layer. *)
Lemma viewport_invariant_cex :
  lon (center (atlas_init (mkLatLng 0 (-180)) 3 512 512 1)) = -180 /\
  lon (center (fst (flyTo_frame flyto_dateline_map
                      (flyTo_start flyto_dateline_map flyto_dateline_options 0) 600))) = 180 + 1 / 2 /\
  zoom (atlas_init (mkLatLng 0 0) 25 512 512 1) = 25 /\
  map_max_zoom (atlas_init (mkLatLng 0 0) 25 512 512 1) = 18.
Proof.
  split; [| split; [| split; reflexivity]].
  - unfold atlas_init. cbn. apply wrapLongitude_id. lra.
  - unfold flyTo_frame, flyTo_start, fly_p, fly_t, flyto_dateline_map, flyto_dateline_options.
    cbn [fj_startT fj_duration fj_easing fj_sC fj_dLon fo_duration fo_easing fo_center num_or
         lon lat center fst].
    rewrite (wrapLongitude_id (-179)) by lra.
    rewrite wrapDeltaLon_neg358.
    unfold FLYTO_DURATION, js_max, js_min, linear.
    rewrite (Rmax_right 1 800) by lra.
    destruct (Rle_dec 1 ((600 - 0) / 800)) as [H|_]; [lra |].
    rewrite (Rmin_right 1 ((600 - 0) / 800)) by lra.
    rewrite (Rmax_right 0 ((600 - 0) / 800)) by lra.
    field.
Qed.

(** ** Lemmas on the drag inertia *)

Lemma hypot_nonneg (x y : R) : 0 <= hypot x y.
Proof. unfold hypot. apply sqrt_pos. Qed.

Lemma hypot_scale (x y s : R) : 0 <= s -> hypot (x * s) (y * s) = s * hypot x y.
Proof.
  intros Hs. unfold hypot.
  replace (x * s * (x * s) + y * s * (y * s)) with ((s * s) * (x * x + y * y)) by ring.
  rewrite sqrt_mult_alt by nra.
  rewrite sqrt_square by exact Hs. reflexivity.
Qed.

Lemma hypot_1_0 : hypot 1 0 = 1.
Proof.
  unfold hypot. replace (1 * 1 + 0 * 0) with 1 by ring. apply sqrt_1.
Qed.

Lemma hypot_x_0 (x : R) : 0 <= x -> hypot x 0 = x.
Proof.
  intros Hx. unfold hypot. replace (x * x + 0 * 0) with (x * x) by ring.
  apply sqrt_square; exact Hx.
Qed.

Lemma inertia_start_spec (vx vy t0 : R) :
  (inertia_start vx vy t0 = None <-> hypot vx vy < INERTIA_STOP_SPEED) /\
  (INERTIA_STOP_SPEED <= hypot vx vy -> inertia_start vx vy t0 = Some (mkInertia vx vy t0)).
Proof.
  unfold inertia_start. destruct (Rlt_dec (hypot vx vy) INERTIA_STOP_SPEED) as [H|H].
  - split; [tauto | intros; lra].
  - split; [split; [discriminate | intros; lra] | reflexivity].
Qed.

(** One frame: either the speed drops to the threshold and [moveend] fires,
    or the speed is lowered by [INERTIA_DECEL * dt] and nothing fires. *)
Lemma inertia_step_spec (m : atlas) (st : inertia) (now : R) :
  in_lastT st <= now ->
  match inertia_step m st now with
  | (_, Some st', evs, _) =>
      hypot (in_vx st') (in_vy st') =
        hypot (in_vx st) (in_vy st) - INERTIA_DECEL * (now - in_lastT st) /\
      INERTIA_STOP_SPEED < hypot (in_vx st') (in_vy st') /\
      in_lastT st' = now /\ evs = []
  | (_, None, evs, _) =>
      hypot (in_vx st) (in_vy st) - INERTIA_DECEL * (now - in_lastT st) <= INERTIA_STOP_SPEED /\
      evs = [MoveEnd]
  end.
Proof.
  intros Hdt. unfold inertia_step.
  set (v := hypot (in_vx st) (in_vy st)).
  pose proof (hypot_nonneg (in_vx st) (in_vy st)) as Hv. fold v in Hv.
  unfold js_max.
  destruct (Rle_dec (Rmax 0 (v - INERTIA_DECEL * (now - in_lastT st))) INERTIA_STOP_SPEED)
    as [Hle|Hgt].
  - split; [| reflexivity].
    pose proof (Rmax_r 0 (v - INERTIA_DECEL * (now - in_lastT st))). lra.
  - apply Rnot_le_lt in Hgt.
    assert (Hpos : 0 < v - INERTIA_DECEL * (now - in_lastT st)).
    { unfold Rmax in Hgt. destruct (Rle_dec 0 _); unfold INERTIA_STOP_SPEED in Hgt; lra. }
    rewrite Rmax_right in * by lra.
    assert (Hv0 : v <> 0).
    { intros E. rewrite E in Hpos. unfold INERTIA_DECEL in Hpos. nra. }
    unfold num_or. destruct (Req_dec_T v 0) as [E|_]; [contradiction|].
    cbn [in_vx in_vy in_lastT].
    rewrite hypot_scale.
    2:{ apply Rmult_le_pos; [lra | apply Rlt_le, Rinv_0_lt_compat; lra]. }
    fold v.
    assert (Heq : (v - INERTIA_DECEL * (now - in_lastT st)) / v * v
                  = v - INERTIA_DECEL * (now - in_lastT st)) by (field; exact Hv0).
    rewrite Heq. unfold INERTIA_STOP_SPEED in *.
    repeat split; try reflexivity; lra.
Qed.

(** One frame moves the center to the point shown [(dx, dy)] pixels before
    the canvas center, with [(dx, dy)] the velocity times the frame's [dt],
    and scales the velocity by a positive factor. *)
Lemma inertia_step_motion (m : atlas) (st : inertia) (now : R) :
  let dx := in_vx st * (now - in_lastT st) in
  let dy := in_vy st * (now - in_lastT st) in
  match inertia_step m st now with
  | (m', st', _, off) =>
      off = (dx, dy) /\
      m' = set_center m (screenToLatLon_here m (canvas_width m / dpr m / 2 - dx)
                                               (canvas_height m / dpr m / 2 - dy)) /\
      (forall st'', st' = Some st'' ->
         exists k, 0 < k /\ in_vx st'' = k * in_vx st /\ in_vy st'' = k * in_vy st)
  end.
Proof.
  intros dx dy. unfold inertia_step. fold dx dy.
  set (v := hypot (in_vx st) (in_vy st)).
  pose proof (hypot_nonneg (in_vx st) (in_vy st)) as Hv. fold v in Hv.
  set (nv := js_max 0 (v - INERTIA_DECEL * (now - in_lastT st))).
  destruct (Rle_dec nv INERTIA_STOP_SPEED) as [Hle|Hgt].
  - split; [reflexivity | split; [reflexivity | discriminate]].
  - split; [reflexivity | split; [reflexivity |]].
    intros st'' E. injection E as <-. cbn [in_vx in_vy].
    apply Rnot_le_lt in Hgt.
    assert (Hd : 0 < num_or (Some v) 1).
    { unfold num_or. destruct (Req_dec_T v 0); lra. }
    exists (nv / num_or (Some v) 1). split.
    + apply Rdiv_lt_0_compat; [unfold INERTIA_STOP_SPEED in Hgt; lra | exact Hd].
    + unfold num_or. split; ring.
Qed.

Lemma inertia_run_None (m : atlas) (times : list R) :
  inertia_run m None times = (m, None, [], []).
Proof. destruct times; reflexivity. Qed.

(** With frames at least [delta] apart, a running inertia whose speed exceeds
    the threshold by less than [INERTIA_DECEL * delta] times the number of
    frames stops within those frames, firing [moveend] exactly once. *)
Lemma inertia_run_stops (times : list R) :
  forall (m : atlas) (st : inertia) (delta : R),
  0 < delta -> spaced delta (in_lastT st) times ->
  INERTIA_STOP_SPEED <= hypot (in_vx st) (in_vy st) ->
  hypot (in_vx st) (in_vy st) - INERTIA_STOP_SPEED < INERTIA_DECEL * delta * INR (List.length times) ->
  match inertia_run m (Some st) times with
  | (_, st', evs, _) => st' = None /\ count_moveend evs = 1%nat
  end.
Proof.
  induction times as [| t rest IH]; intros m st delta Hd Hs Hge Hlen.
  - exfalso. cbn [List.length INR] in Hlen. rewrite Rmult_0_r in Hlen. lra.
  - destruct Hs as [Ht Hs].
    assert (Hdt : in_lastT st <= t) by lra.
    pose proof (inertia_step_spec m st t Hdt) as Hstep.
    cbn [inertia_run].
    destruct (inertia_step m st t) as [[[m1 [st1|]] ev1] off1].
    + destruct Hstep as (Hv & Hgt & HT & ->).
      assert (Hlen' : hypot (in_vx st1) (in_vy st1) - INERTIA_STOP_SPEED
                      < INERTIA_DECEL * delta * INR (List.length rest)).
      { rewrite Hv. cbn [List.length] in Hlen. rewrite S_INR in Hlen.
        unfold INERTIA_DECEL in *. nra. }
      rewrite <- HT in Hs.
      specialize (IH m1 st1 delta Hd Hs ltac:(lra) Hlen').
      destruct (inertia_run m1 (Some st1) rest) as [[[m2 st2] ev2] off2].
      exact IH.
    + destruct Hstep as (_ & ->).
      rewrite inertia_run_None. split; reflexivity.
Qed.

(** The two frame schedules of the counterexample, from a release at time 0
    with velocity [(1, 0)] px/ms on [view_near_antimeridian]. *)
Lemma inertia_run_one_frame :
  match inertia_run view_near_antimeridian (inertia_start 1 0 0) [400] with
  | (_, st', evs, offs) => st' = None /\ evs = [MoveEnd] /\ total_dx offs = 400
  end.
Proof.
  rewrite (proj2 (inertia_start_spec 1 0 0)) by (rewrite hypot_1_0; unfold INERTIA_STOP_SPEED; lra).
  pose proof (inertia_step_spec view_near_antimeridian (mkInertia 1 0 0) 400 ltac:(cbn; lra)) as H.
  cbn [inertia_run].
  destruct (inertia_step view_near_antimeridian (mkInertia 1 0 0) 400) as [[[m1 [st1|]] ev1] off1] eqn:E.
  - exfalso. destruct H as (Hv & Hgt & _). cbn [in_vx in_vy in_lastT] in Hv.
    rewrite hypot_1_0 in Hv. unfold INERTIA_DECEL, INERTIA_STOP_SPEED in *. lra.
  - destruct H as (_ & ->). try rewrite inertia_run_None.
    unfold inertia_step in E.
    destruct (Rle_dec _ _); inversion E; subst.
    cbn. split; [reflexivity | split; [reflexivity | ring]].
Qed.

Lemma inertia_run_two_frames :
  match inertia_run view_near_antimeridian (inertia_start 1 0 0) [300; 600] with
  | (_, st', evs, offs) => st' = None /\ evs = [MoveEnd] /\ total_dx offs = 375
  end.
Proof.
  rewrite (proj2 (inertia_start_spec 1 0 0)) by (rewrite hypot_1_0; unfold INERTIA_STOP_SPEED; lra).
  cbn [inertia_run].
  unfold inertia_step at 1. cbn [in_vx in_vy in_lastT].
  rewrite hypot_1_0. unfold js_max.
  rewrite Rmax_right by (unfold INERTIA_DECEL; lra).
  destruct (Rle_dec _ _) as [Hle|_]; [exfalso; unfold INERTIA_DECEL, INERTIA_STOP_SPEED in Hle; lra|].
  unfold num_or. destruct (Req_dec_T 1 0) as [E|_]; [lra|].
  set (m1 := set_center _ _).
  unfold inertia_step. cbn [in_vx in_vy in_lastT].
  replace ((1 - INERTIA_DECEL * (300 - 0)) / 1) with (1 / 4) by (unfold INERTIA_DECEL; lra).
  replace (0 * (1 / 4)) with 0 by ring.
  rewrite hypot_x_0 by lra.
  rewrite Rmax_left by (unfold INERTIA_DECEL; lra).
  destruct (Rle_dec _ _) as [_|Hn]; [| exfalso; apply Hn; unfold INERTIA_STOP_SPEED; lra].
  cbn. split; [reflexivity | split; [reflexivity | lra]].
Qed.

(** C8 (counterexample): the inertia's duration and distance are not
    determined by the release velocity alone. Released at time 0 with
    velocity (1, 0) px/ms, one frame at 400 ms ends the motion at 400 ms
    after 400 px, while frames at 300 ms and 600 ms end it at 600 ms after
    375 px; both runs fire [moveend] once. *)
Lemma inertia_schedule_cex :
  match inertia_run view_near_antimeridian (inertia_start 1 0 0) [400] with
  | (_, st', evs, offs) => st' = None /\ evs = [MoveEnd] /\ total_dx offs = 400
  end /\
  match inertia_run view_near_antimeridian (inertia_start 1 0 0) [300; 600] with
  | (_, st', evs, offs) => st' = None /\ evs = [MoveEnd] /\ total_dx offs = 375
  end /\
  (400 : R) <> 375.
Proof.
  split; [exact inertia_run_one_frame |].
  split; [exact inertia_run_two_frames | lra].
Qed.

(** C8 (amended): inertia starts exactly when the release speed
    [hypot vx vy] is at least [INERTIA_STOP_SPEED]; each frame lowers the
    speed by [INERTIA_DECEL * dt], keeping the direction, unless the result is
    at most the threshold, in which case the frame fires [moveend] and
    requests no further frame; each frame moves the center to the point
    shown the velocity times [dt] pixels before the canvas center and scales
    the velocity by a positive factor; with frame intervals of at least [delta > 0],
    the motion ends within any number of frames [n] with
    [speed - INERTIA_STOP_SPEED < INERTIA_DECEL * delta * n], firing exactly
    one [moveend]. *)
Theorem inertia_decay (m : atlas) (vx vy t0 delta : R) (times : list R)
  (Hd : 0 < delta) (Hs : spaced delta t0 times)
  (Hv : INERTIA_STOP_SPEED <= hypot vx vy)
  (Hn : hypot vx vy - INERTIA_STOP_SPEED < INERTIA_DECEL * delta * INR (List.length times)) :
  (forall vx' vy' t, inertia_start vx' vy' t = None <-> hypot vx' vy' < INERTIA_STOP_SPEED) /\
  (forall (m' : atlas) (st : inertia) (now : R), in_lastT st <= now ->
     match inertia_step m' st now with
     | (_, Some st', evs, _) =>
         hypot (in_vx st') (in_vy st') =
           hypot (in_vx st) (in_vy st) - INERTIA_DECEL * (now - in_lastT st) /\
         INERTIA_STOP_SPEED < hypot (in_vx st') (in_vy st') /\
         in_lastT st' = now /\ evs = []
     | (_, None, evs, _) =>
         hypot (in_vx st) (in_vy st) - INERTIA_DECEL * (now - in_lastT st)
           <= INERTIA_STOP_SPEED /\ evs = [MoveEnd]
     end) /\
  (forall (m' : atlas) (st : inertia) (now : R),
     let dx := in_vx st * (now - in_lastT st) in
     let dy := in_vy st * (now - in_lastT st) in
     match inertia_step m' st now with
     | (m'', st', _, off) =>
         off = (dx, dy) /\
         m'' = set_center m' (screenToLatLon_here m' (canvas_width m' / dpr m' / 2 - dx)
                                                    (canvas_height m' / dpr m' / 2 - dy)) /\
         (forall st'', st' = Some st'' ->
            exists k, 0 < k /\ in_vx st'' = k * in_vx st /\ in_vy st'' = k * in_vy st)
     end) /\
  match inertia_run m (inertia_start vx vy t0) times with
  | (_, st', evs, _) => st' = None /\ count_moveend evs = 1%nat
  end.
Proof.
  split; [intros; apply inertia_start_spec |].
  split; [intros; apply inertia_step_spec; assumption |].
  split; [intros; apply inertia_step_motion |].
  rewrite (proj2 (inertia_start_spec vx vy t0) Hv).
  apply (inertia_run_stops times m (mkInertia vx vy t0) delta); cbn [in_vx in_vy in_lastT]; assumption.
Qed.

(** ** Lemmas on the tile cache *)

Definition lastUsed_le (a b : string * tile_rec) : Prop :=
  (entry_lastUsed a <= entry_lastUsed b)%Z.

Lemma insert_by_lastUsed_perm (e : string * tile_rec) (l : list (string * tile_rec)) :
  Permutation (e :: l) (insert_by_lastUsed e l).
Proof.
  induction l as [| y ys IH]; cbn [insert_by_lastUsed]; [reflexivity |].
  destruct (Z.leb _ _); [reflexivity |].
  eapply perm_trans; [apply perm_swap |]. apply perm_skip, IH.
Qed.

Lemma sort_by_lastUsed_perm (l : list (string * tile_rec)) : Permutation l (sort_by_lastUsed l).
Proof.
  induction l as [| e l IH]; cbn; [reflexivity |].
  eapply perm_trans; [apply perm_skip, IH | apply insert_by_lastUsed_perm].
Qed.

Lemma insert_by_lastUsed_sorted (e : string * tile_rec) (l : list (string * tile_rec)) :
  StronglySorted lastUsed_le l -> StronglySorted lastUsed_le (insert_by_lastUsed e l).
Proof.
  induction l as [| y ys IH]; intros Hs; cbn [insert_by_lastUsed].
  - constructor; [constructor | constructor].
  - apply StronglySorted_inv in Hs as [Hs Hf].
    destruct (Z.leb (entry_lastUsed e) (entry_lastUsed y)) eqn:E.
    + apply Z.leb_le in E. constructor; [constructor; assumption |].
      constructor; [exact E |].
      rewrite Forall_forall in *. intros z Hz. specialize (Hf z Hz).
      unfold lastUsed_le in *. lia.
    + apply Z.leb_gt in E. constructor; [apply IH, Hs |].
      rewrite Forall_forall in *. intros z Hz.
      apply (Permutation_in _ (Permutation_sym (insert_by_lastUsed_perm e ys))) in Hz.
      destruct Hz as [<- | Hz]; [unfold lastUsed_le; lia | apply Hf, Hz].
Qed.

Lemma sort_by_lastUsed_sorted (l : list (string * tile_rec)) :
  StronglySorted lastUsed_le (sort_by_lastUsed l).
Proof.
  induction l as [| e l IH]; cbn; [constructor | apply insert_by_lastUsed_sorted, IH].
Qed.

Lemma filter_filter' {A} (f g : A -> bool) (l : list A) :
  filter f (filter g l) = filter (fun x => g x && f x) l.
Proof.
  induction l as [| a l IH]; cbn; [reflexivity |].
  destruct (g a); cbn; [destruct (f a); cbn; rewrite IH; reflexivity | exact IH].
Qed.

Lemma filter_true' {A} (l : list A) : filter (fun _ => true) l = l.
Proof. induction l as [| a l IH]; cbn; [reflexivity | rewrite IH; reflexivity]. Qed.

Lemma fold_map_delete (R c : list (string * tile_rec)) :
  fold_left (fun acc e => map_delete (fst e) acc) R c =
  filter (fun e => negb (existsb (String.eqb (fst e)) (map fst R))) c.
Proof.
  revert c. induction R as [| r R IH]; intros c; cbn [fold_left map existsb].
  - symmetry. apply filter_true'.
  - rewrite IH. unfold map_delete. rewrite filter_filter'.
    apply filter_ext. intros e. rewrite negb_orb. reflexivity.
Qed.

Lemma NoDup_map_fst_eq (l : list (string * tile_rec)) (a b : string * tile_rec) :
  NoDup (map fst l) -> In a l -> In b l -> fst a = fst b -> a = b.
Proof.
  induction l as [| x l IH]; intros Hnd Ha Hb Hab; [destruct Ha |].
  cbn [map] in Hnd. inversion Hnd as [| ? ? Hnotin Hnd']; subst.
  destruct Ha as [<- | Ha], Hb as [<- | Hb]; auto.
  - exfalso. apply Hnotin. rewrite Hab. apply in_map, Hb.
  - exfalso. apply Hnotin. rewrite <- Hab. apply in_map, Ha.
Qed.

Lemma NoDup_app_disjoint {A} (l1 l2 : list A) (x : A) :
  NoDup (l1 ++ l2) -> In x l1 -> In x l2 -> False.
Proof.
  induction l1 as [| a l1 IH]; intros Hnd H1 H2; [destruct H1 |].
  cbn in Hnd. inversion Hnd as [| ? ? Hnotin Hnd']; subst.
  destruct H1 as [<- | H1].
  - apply Hnotin, in_or_app. right. exact H2.
  - exact (IH Hnd' H1 H2).
Qed.

Lemma StronglySorted_app_le {A} (R : A -> A -> Prop) (l1 l2 : list A) (a b : A) :
  StronglySorted R (l1 ++ l2) -> In a l1 -> In b l2 -> R a b.
Proof.
  induction l1 as [| x l1 IH]; intros Hs Ha Hb; [destruct Ha |].
  cbn in Hs. apply StronglySorted_inv in Hs as [Hs Hf].
  destruct Ha as [<- | Ha].
  - rewrite Forall_forall in Hf. apply Hf, in_or_app. right. exact Hb.
  - exact (IH Hs Ha Hb).
Qed.

Lemma Permutation_filter' {A} (f : A -> bool) (l l' : list A) :
  Permutation l l' -> Permutation (filter f l) (filter f l').
Proof.
  induction 1; cbn.
  - constructor.
  - destruct (f x); [apply perm_skip |]; assumption.
  - destruct (f x), (f y); try apply perm_swap; try apply perm_skip; reflexivity.
  - eapply perm_trans; eassumption.
Qed.

Lemma filter_all_false {A} (f : A -> bool) (l : list A) :
  (forall x, In x l -> f x = false) -> filter f l = [].
Proof.
  induction l as [| a l IH]; intros H; cbn; [reflexivity |].
  rewrite (H a (or_introl eq_refl)). apply IH. intros x Hx. apply H. right. exact Hx.
Qed.

Lemma filter_all_true {A} (f : A -> bool) (l : list A) :
  (forall x, In x l -> f x = true) -> filter f l = l.
Proof.
  induction l as [| a l IH]; intros H; cbn; [reflexivity |].
  rewrite (H a (or_introl eq_refl)), IH; [reflexivity |].
  intros x Hx. apply H. right. exact Hx.
Qed.

(** The eviction pass on a cache with distinct keys holding more than
    [maxSize] entries: the kept entries are the sorted entries after the
    first [length c - maxSize], and every removed entry was used no later
    than every kept one. *)
Lemma evict_cache_spec (maxSize : nat) (c : list (string * tile_rec)) :
  NoDup (map fst c) -> (maxSize < List.length c)%nat ->
  let Rm := firstn (List.length c - maxSize) (sort_by_lastUsed c) in
  let K := skipn (List.length c - maxSize) (sort_by_lastUsed c) in
  Permutation (evict_cache maxSize c) K /\
  (forall e, In e c -> ~ In e (evict_cache maxSize c) -> In e Rm) /\
  (forall a b, In a Rm -> In b K -> lastUsed_le a b).
Proof.
  intros Hnd Hlt Rm K.
  assert (Hperm := sort_by_lastUsed_perm c).
  assert (Hsplit : sort_by_lastUsed c = Rm ++ K) by (symmetry; apply firstn_skipn).
  assert (Hnd' : NoDup (map fst Rm ++ map fst K)).
  { rewrite <- map_app, <- Hsplit. eapply Permutation_NoDup; [| exact Hnd].
    apply Permutation_map, Hperm. }
  set (f := fun e : string * tile_rec => negb (existsb (String.eqb (fst e)) (map fst Rm))).
  assert (Hev : evict_cache maxSize c = filter f c).
  { unfold evict_cache. destruct (Nat.leb (List.length c) maxSize) eqn:E.
    - apply Nat.leb_le in E. lia.
    - apply fold_map_delete. }
  assert (HinRm : forall e : string * tile_rec, existsb (String.eqb (fst e)) (map fst Rm) = true <-> In (fst e) (map fst Rm)).
  { intros e. rewrite existsb_exists. split.
    - intros (k & Hk & Heq). apply String.eqb_eq in Heq. rewrite Heq. exact Hk.
    - intros Hk. exists (fst e). split; [exact Hk | apply String.eqb_refl]. }
  split; [| split].
  - rewrite Hev. eapply perm_trans; [apply Permutation_filter', Hperm |].
    rewrite Hsplit, filter_app.
    rewrite (filter_all_false f Rm).
    2:{ intros x Hx. unfold f. apply negb_false_iff, HinRm, in_map, Hx. }
    rewrite (filter_all_true f K); [reflexivity |].
    intros x Hx. unfold f. apply negb_true_iff.
    destruct (existsb _ _) eqn:E; [| reflexivity].
    exfalso. apply HinRm in E. apply (NoDup_app_disjoint _ _ _ Hnd' E), in_map, Hx.
  - intros e He Hnot. rewrite Hev in Hnot.
    assert (Hfe : f e = false).
    { destruct (f e) eqn:E; [| reflexivity]. exfalso. apply Hnot, filter_In. split; assumption. }
    unfold f in Hfe. apply negb_false_iff, HinRm, in_map_iff in Hfe.
    destruct Hfe as (e0 & Hk & He0).
    assert (He0c : In e0 c).
    { apply (Permutation_in _ (Permutation_sym Hperm)). rewrite Hsplit. apply in_or_app. left. exact He0. }
    rewrite <- (NoDup_map_fst_eq c e0 e Hnd He0c He Hk). exact He0.
  - intros a b Ha Hb. apply (StronglySorted_app_le _ Rm K); [| assumption | assumption].
    rewrite <- Hsplit. apply sort_by_lastUsed_sorted.
Qed.

Lemma performEviction_small (L : tile_layer) :
  (List.length (tileCache L) <= maxCacheSize L)%nat -> performEviction L = L.
Proof.
  intros H. unfold performEviction, evict_cache.
  apply Nat.leb_le in H. rewrite H. destruct L; reflexivity.
Qed.

(** ** C4: least-recently-used eviction *)

(** C4: on a cache with distinct keys holding [maxCacheSize + k] entries
    ([k >= 1]), one eviction pass leaves [maxCacheSize] entries; the cache
    before the pass is a rearrangement of the [k] removed entries followed by
    the kept ones, and every removed entry has a [lastUsed] no later than
    every kept entry. A cache holding at most [maxCacheSize] entries is left
    unchanged. *)
Theorem performEviction_lru (L : tile_layer) (k : nat)
  (Hnd : NoDup (map fst (tileCache L)))
  (Hsize : List.length (tileCache L) = (maxCacheSize L + k)%nat)
  (Hk : (1 <= k)%nat) :
  List.length (tileCache (performEviction L)) = maxCacheSize L /\
  (exists removed,
     Permutation (tileCache L) (removed ++ tileCache (performEviction L)) /\
     List.length removed = k /\
     forall a b, In a removed -> In b (tileCache (performEviction L)) ->
       (entry_lastUsed a <= entry_lastUsed b)%Z) /\
  (forall L', (List.length (tileCache L') <= maxCacheSize L')%nat -> performEviction L' = L').
Proof.
  set (c := tileCache L).
  assert (Hlt : (maxCacheSize L < List.length c)%nat) by (unfold c; lia).
  destruct (evict_cache_spec (maxCacheSize L) c Hnd Hlt) as (Hp & _ & Hle).
  set (Rm := firstn (List.length c - maxCacheSize L) (sort_by_lastUsed c)) in *.
  set (K := skipn (List.length c - maxCacheSize L) (sort_by_lastUsed c)) in *.
  assert (Hc' : tileCache (performEviction L) = evict_cache (maxCacheSize L) c) by reflexivity.
  rewrite Hc'.
  assert (Hsl : List.length (sort_by_lastUsed c) = List.length c)
    by (symmetry; apply Permutation_length, sort_by_lastUsed_perm).
  assert (HK : List.length K = maxCacheSize L).
  { unfold K. rewrite length_skipn, Hsl. lia. }
  split; [| split].
  - rewrite (Permutation_length Hp). exact HK.
  - exists Rm. split; [| split].
    + eapply perm_trans; [apply sort_by_lastUsed_perm |].
      rewrite <- (firstn_skipn (List.length c - maxCacheSize L) (sort_by_lastUsed c)).
      fold Rm K. apply Permutation_app_head, Permutation_sym, Hp.
    + unfold Rm. rewrite length_firstn, Hsl. unfold c in *. lia.
    + intros a b Ha Hb. apply Hle; [exact Ha |].
      apply (Permutation_in _ Hp), Hb.
  - apply performEviction_small.
Qed.

Lemma performEviction_lru_witness :
  (NoDup (map fst (tileCache eviction_example)) /\
   List.length (tileCache eviction_example) = (maxCacheSize eviction_example + 1)%nat /\
   (1 <= 1)%nat) /\
  List.length (tileCache (performEviction eviction_example)) = maxCacheSize eviction_example.
Proof.
  assert (H1 : NoDup (map fst (tileCache eviction_example))).
  { cbn. repeat constructor; cbn; intuition discriminate. }
  assert (H2 : List.length (tileCache eviction_example) = (maxCacheSize eviction_example + 1)%nat)
    by reflexivity.
  assert (H3 : (1 <= 1)%nat) by lia.
  split; [auto |].
  exact (proj1 (performEviction_lru eviction_example 1 H1 H2 H3)).
Defined.

(** ** C3: de-duplication of tile loads *)

Lemma loadTile_existing (L : tile_layer) (key url : string) (now : Z) (t : tile_rec) :
  map_get key (tileCache L) = Some t -> loadTile L key url now = (L, Existing t).
Proof. intros H. unfold loadTile. rewrite H. reflexivity. Qed.

(** C3: a request for a key that has a cache record returns that record and
    issues no image request; but the eviction pass removes a pending record
    without aborting its load (its [lastUsed] is its creation time), and
    [render] then requests the same key again: with [maxCacheSize = 1], tile
    A is requested twice while its first load is still in flight. *)
Theorem tile_dedup_eviction :
  (forall L key url now t, map_get key (tileCache L) = Some t ->
     loadTile L key url now = (L, Existing t)) /\
  set_has tileA (loadingTiles dedup_L3) = true /\
  map_get tileA (tileCache dedup_L3) = None /\
  requests dedup_L4 = [(tileA, urlA); (tileB, urlB); (tileA, urlA)] /\
  events dedup_L4 = [].
Proof.
  split; [exact loadTile_existing |].
  vm_compute. repeat split; reflexivity.
Qed.

(** ** C5: tile load failures *)

Lemma set_has_set_delete (k : string) (s : list string) :
  set_has k (set_delete k s) = false.
Proof.
  unfold set_has, set_delete.
  induction s as [| a s IH]; cbn; [reflexivity |].
  destruct (String.eqb a k) eqn:E; cbn; [exact IH |].
  rewrite IH, orb_false_r. apply String.eqb_neq. apply String.eqb_neq in E. congruence.
Qed.

Lemma onerror_n_retina (n : nat) :
  forall (L : tile_layer) (j : load_job),
  lj_aborted j = false -> lj_result j = PPending ->
  supportsRetina L && includes (lj_url j) retinaSuffix = true ->
  match onerror_n (S n) L j with
  | (L', j') =>
      lj_result j' = PPending /\ events L' = events L /\ lj_timer j' = false /\
      lj_src j' = replace_first retinaSuffix "" (lj_url j) /\
      lj_key j' = lj_key j /\ lj_url j' = lj_url j /\ lj_aborted j' = false /\
      retinaAvailable L' = false /\ tileCache L' = tileCache L /\
      loadingTiles L' = loadingTiles L /\
      requests L' = requests L ++ repeat (lj_key j, replace_first retinaSuffix "" (lj_url j)) (S n)
  end.
Proof.
  induction n as [| n IH]; intros L j Ha Hp Hr.
  - cbn [onerror_n]. unfold tile_onerror. rewrite Ha, Hr. cbn.
    repeat split; assumption || reflexivity.
  - change (onerror_n (S (S n)) L j) with
      (let '(L1, j1) := tile_onerror L j in onerror_n (S n) L1 j1).
    unfold tile_onerror at 1. rewrite Ha, Hr. cbn zeta.
    set (L1 := mkTileLayer _ _ _ _ _ _ _ _ _).
    set (j1 := mkLoadJob _ _ _ _ _ _).
    specialize (IH L1 j1 eq_refl Hp Hr).
    destruct (onerror_n (S n) L1 j1) as [L' j'].
    destruct IH as (H1 & H2 & H3 & H4 & H5 & H6 & H7 & H8 & H9 & H10 & H11).
    cbn in *. repeat split; try assumption.
    rewrite H11, <- app_assoc. reflexivity.
Qed.

(** C5: with the load [j] pending and not aborted, a failure on a layer
    without retina support, or of a URL without ["@2x"], clears the key from
    [loadingTiles], fires [tileerror] and rejects the promise returned by
    [_loadTile] (the [catch] block rethrows), while the pending record stays
    in [tileCache]. A failure of a ["@2x"] URL on a retina-supporting layer
    re-requests the URL without ["@2x"]; since the handler tests the captured
    [url], every later failure does the same again: after any number of
    failures the promise is still pending, no [tileerror] has fired, and the
    timeout, cleared by the first failure, does nothing. *)
Theorem tile_error_handling (L : tile_layer) (j : load_job)
  (Ha : lj_aborted j = false) (Hp : lj_result j = PPending) :
  (supportsRetina L && includes (lj_url j) retinaSuffix = false ->
   match tile_onerror L j with
   | (L', j') =>
       lj_result j' = PRejected /\
       events L' = events L ++ [TileErrorEv (lj_key j) (lj_url j)] /\
       set_has (lj_key j) (loadingTiles L') = false /\
       tileCache L' = tileCache L
   end) /\
  (supportsRetina L && includes (lj_url j) retinaSuffix = true ->
   forall n, (1 <= n)%nat ->
   match onerror_n n L j with
   | (L', j') =>
       lj_result j' = PPending /\ events L' = events L /\
       lj_src j' = replace_first retinaSuffix "" (lj_url j) /\
       requests L' = requests L ++ repeat (lj_key j, replace_first retinaSuffix "" (lj_url j)) n /\
       tile_timeout L' j' = (L', j')
   end).
Proof.
  split.
  - intros Hr. unfold tile_onerror. rewrite Ha, Hr. cbn.
    rewrite Hp. repeat split; try reflexivity. apply set_has_set_delete.
  - intros Hr n Hn. destruct n as [| n]; [lia |].
    pose proof (onerror_n_retina n L j Ha Hp Hr) as H.
    destruct (onerror_n (S n) L j) as [L' j'].
    destruct H as (H1 & H2 & H3 & H4 & _ & _ & _ & _ & _ & _ & H11).
    repeat split; try assumption.
    unfold tile_timeout. rewrite H3. reflexivity.
Qed.

Lemma tile_error_handling_witness :
  (lj_aborted retina_job = false /\ lj_result retina_job = PPending) /\
  match onerror_n 2 retina_layer retina_job with
  | (L', j') =>
      lj_result j' = PPending /\ events L' = events retina_layer /\
      lj_src j' = replace_first retinaSuffix "" (lj_url retina_job) /\
      requests L' = requests retina_layer ++
        repeat (lj_key retina_job, replace_first retinaSuffix "" (lj_url retina_job)) 2 /\
      tile_timeout L' j' = (L', j')
  end.
Proof.
  assert (H1 : lj_aborted retina_job = false) by reflexivity.
  assert (H2 : lj_result retina_job = PPending) by reflexivity.
  split; [auto |].
  apply (proj2 (tile_error_handling retina_layer retina_job H1 H2)); [vm_compute; reflexivity | lia].
Defined.

(** ** Lemmas on the tile URL *)

Lemma tile_scale_IZR (z : nat) : tile_scale z = IZR (2 ^ Z.of_nat z).
Proof.
  unfold tile_scale, pow2. rewrite Rpower_pow by lra.
  rewrite <- pow_IZR. reflexivity.
Qed.

Lemma tile_scale_Z_pos (z : nat) : (1 <= 2 ^ Z.of_nat z)%Z.
Proof.
  assert (H : (0 < 2 ^ Z.of_nat z)%Z) by (apply Z.pow_pos_nonneg; lia). lia.
Qed.

Lemma Rmin_IZR (a b : Z) : Rmin (IZR a) (IZR b) = IZR (Z.min a b).
Proof.
  unfold Rmin. destruct (Rle_dec (IZR a) (IZR b)) as [H|H].
  - apply le_IZR in H. rewrite Z.min_l by exact H. reflexivity.
  - apply Rnot_le_lt, lt_IZR in H. rewrite Z.min_r by lia. reflexivity.
Qed.

Lemma Rmax_IZR (a b : Z) : Rmax (IZR a) (IZR b) = IZR (Z.max a b).
Proof.
  unfold Rmax. destruct (Rle_dec (IZR a) (IZR b)) as [H|H].
  - apply le_IZR in H. rewrite Z.max_r by exact H. reflexivity.
  - apply Rnot_le_lt, lt_IZR in H. rewrite Z.max_l by lia. reflexivity.
Qed.

Lemma tile_intY_IZR (y : R) (z : nat) :
  tile_intY y z = IZR (Z.max 0 (Z.min (2 ^ Z.of_nat z - 1) (js_floor y))).
Proof.
  unfold tile_intY, js_max, js_min. rewrite tile_scale_IZR.
  rewrite <- minus_IZR, Rmin_IZR, Rmax_IZR. reflexivity.
Qed.

Lemma tile_intX_range (x : R) (z : nat) : (0 <= tile_intX x z < 2 ^ Z.of_nat z)%Z.
Proof.
  unfold tile_intX. rewrite tile_scale_IZR.
  set (S := (2 ^ Z.of_nat z)%Z).
  assert (HS : (1 <= S)%Z) by apply tile_scale_Z_pos.
  assert (HSR : 0 < IZR S) by (apply IZR_lt; lia).
  pose proof (js_mod_bounds x (IZR S) HSR) as Hm.
  pose proof (js_mod_nonneg (js_mod x (IZR S) + IZR S) (IZR S) HSR ltac:(lra)) as Hw.
  set (w := js_mod (js_mod x (IZR S) + IZR S) (IZR S)) in *.
  unfold js_floor. pose proof (Int_part_bounds w) as Hb.
  split.
  - assert (H : -1 < IZR (Int_part w)) by lra.
    apply (lt_IZR (-1)) in H. lia.
  - apply lt_IZR. lra.
Qed.

(** On tile coordinates already in range the indices are the floors. *)
Lemma js_mod_small (a b : R) : 0 < b -> 0 <= a < b -> js_mod a b = a.
Proof.
  intros Hb Ha. unfold js_mod, js_trunc.
  assert (H0 : 0 <= a / b < 1).
  { split; [apply Rmult_le_pos; [lra | left; apply Rinv_0_lt_compat; lra] |].
    apply (Rmult_lt_reg_r b); [lra |]. unfold Rdiv. rewrite Rmult_assoc, Rinv_l by lra. lra. }
  destruct (Rle_dec 0 (a / b)) as [_|H]; [| lra].
  replace (Int_part (a / b)) with 0%Z by (apply Int_part_spec; cbn; lra).
  cbn. ring.
Qed.

Lemma js_mod_shift_one (a b : R) : 0 < b -> 0 <= a < b -> js_mod (a + b) b = a.
Proof.
  intros Hb Ha. unfold js_mod, js_trunc.
  assert (H1 : 1 <= (a + b) / b < 2).
  { replace ((a + b) / b) with (a / b + 1) by (field; lra).
    assert (0 <= a / b < 1).
    { split; [apply Rmult_le_pos; [lra | left; apply Rinv_0_lt_compat; lra] |].
      apply (Rmult_lt_reg_r b); [lra |]. unfold Rdiv. rewrite Rmult_assoc, Rinv_l by lra. lra. }
    lra. }
  destruct (Rle_dec 0 ((a + b) / b)) as [_|H]; [| lra].
  replace (Int_part ((a + b) / b)) with 1%Z by (apply Int_part_spec; cbn; lra).
  cbn. ring.
Qed.

Lemma tile_intX_in_range (x : R) (z : nat) :
  0 <= x < tile_scale z -> tile_intX x z = js_floor x.
Proof.
  intros Hx. unfold tile_intX.
  assert (Hs : 0 < tile_scale z) by lra.
  rewrite (js_mod_small x _ Hs Hx), (js_mod_shift_one x _ Hs Hx). reflexivity.
Qed.

Lemma tile_scale_3 : tile_scale 3 = 8.
Proof. rewrite tile_scale_IZR. reflexivity. Qed.

Lemma getTileUrl_1_2_3 (L : tile_layer) (mode : retina_mode) (dpr' : option R) :
  getTileUrl L mode dpr' 1 2 3 = tile_url_of L mode dpr' 3 1 2.
Proof.
  unfold getTileUrl.
  rewrite tile_intX_in_range by (rewrite tile_scale_3; lra).
  rewrite tile_intY_IZR. unfold js_floor.
  rewrite !Int_part_IZR. reflexivity.
Qed.

(** ** C10: tile indices in the URL *)

(** C10: for every integer zoom [z >= 0] and all real tile coordinates [x]
    and [y], the URL of [_getTileUrl] is built from an x index in
    [[0, 2^z)] and an integer y index in [[0, 2^z - 1]]. *)
Theorem tile_url_indices_in_range (L : tile_layer) (mode : retina_mode)
  (devicePixelRatio : option R) (x y : R) (z : nat) :
  getTileUrl L mode devicePixelRatio x y z =
    tile_url_of L mode devicePixelRatio z (tile_intX x z) (Int_part (tile_intY y z)) /\
  (0 <= tile_intX x z < 2 ^ Z.of_nat z)%Z /\
  IZR (Int_part (tile_intY y z)) = tile_intY y z /\
  (0 <= Int_part (tile_intY y z) <= 2 ^ Z.of_nat z - 1)%Z.
Proof.
  split; [reflexivity |]. split; [apply tile_intX_range |].
  rewrite tile_intY_IZR, Int_part_IZR.
  pose proof (tile_scale_Z_pos z). split; [reflexivity | lia].
Qed.

(** ** C9: tile URL resolution *)

Lemma string_append_empty (s : string) : (s ++ "")%string = s.
Proof. induction s as [| a s IH]; cbn; [reflexivity | rewrite IH; reflexivity]. Qed.

Lemma retina_layer_after_error :
  retinaAvailable (fst (tile_onerror retina_layer retina_job)) = false /\
  supportsRetina (fst (tile_onerror retina_layer retina_job)) = true /\
  urlTemplate (fst (tile_onerror retina_layer retina_job)) = osm_template.
Proof. vm_compute. repeat split; reflexivity. Qed.

Lemma str_app_assoc (a b c : string) : ((a ++ b) ++ c)%string = (a ++ (b ++ c))%string.
Proof. induction a as [| x a IH]; cbn; [reflexivity | rewrite IH; reflexivity]. Qed.

Lemma str_length_app (a b : string) :
  String.length (a ++ b) = (String.length a + String.length b)%nat.
Proof. induction a as [| x a IH]; cbn; [reflexivity | rewrite IH; reflexivity]. Qed.

(** A pattern starting with [c] is not found inside a prefix free of [c]. *)
Lemma index_app_skip (c : ascii) (pat p s : string) :
  string_forall (fun a => negb (Ascii.eqb a c)) p = true ->
  index 0 (String c pat) (p ++ s) =
  match index 0 (String c pat) s with
  | Some n => Some (String.length p + n)%nat
  | None => None
  end.
Proof.
  induction p as [| a p IH]; cbn [string_forall append]; intros H.
  - destruct (index 0 (String c pat) s); reflexivity.
  - apply andb_true_iff in H as [Ha Hp].
    cbn [index prefix].
    destruct (ascii_dec c a) as [E | _].
    + subst a. rewrite Ascii.eqb_refl in Ha. discriminate.
    + rewrite (IH Hp). destruct (index 0 (String c pat) s); reflexivity.
Qed.

Lemma substring_app_prefix (p s : string) (k : nat) :
  substring 0 (String.length p + k) (p ++ s) = (p ++ substring 0 k s)%string.
Proof. induction p as [| a p IH]; cbn; [reflexivity | rewrite IH; reflexivity]. Qed.

Lemma substring_app_skip (p s : string) (k l : nat) :
  substring (String.length p + k) l (p ++ s) = substring k l s.
Proof. induction p as [| a p IH]; cbn; [reflexivity | apply IH]. Qed.

(** [s.replace(pat, rep)] leaves a prefix free of the pattern's first
    character in front. *)
Lemma replace_first_app (c : ascii) (pat rep p s : string) :
  string_forall (fun a => negb (Ascii.eqb a c)) p = true ->
  replace_first (String c pat) rep (p ++ s) = (p ++ replace_first (String c pat) rep s)%string.
Proof.
  intros H. unfold replace_first. rewrite (index_app_skip c pat p s H).
  set (lp := String.length (String c pat)).
  destruct (index 0 (String c pat) s) as [n |]; [| reflexivity].
  rewrite substring_app_prefix, str_length_app.
  replace (String.length p + n + lp)%nat with (String.length p + (n + lp))%nat by lia.
  replace (String.length p + String.length s - (String.length p + (n + lp)))%nat
    with (String.length s - (n + lp))%nat by lia.
  rewrite substring_app_skip, str_app_assoc. reflexivity.
Qed.

Lemma replace3_app (h t zs xs ys : string) :
  string_forall (fun a => negb (Ascii.eqb a "{"%char)) h = true ->
  replace_first "{y}" ys (replace_first "{x}" xs (replace_first "{z}" zs (h ++ t))) =
  (h ++ replace_first "{y}" ys (replace_first "{x}" xs (replace_first "{z}" zs t)))%string.
Proof.
  intros H.
  rewrite (replace_first_app "{"%char "z}" zs h t H).
  rewrite (replace_first_app "{"%char "x}" xs h _ H).
  rewrite (replace_first_app "{"%char "y}" ys h _ H).
  reflexivity.
Qed.

(** [Math.floor(Math.random() * 3)] is [0], [1] or [2]. *)
Lemma osm_subdomain_index (random : R) :
  0 <= random < 1 -> (0 <= js_floor (random * INR (List.length osm_subdomains)) <= 2)%Z.
Proof.
  intros Hr. cbn [List.length osm_subdomains].
  replace (INR 3) with 3 by (cbn; ring).
  unfold js_floor. destruct (base_Int_part (random * 3)) as [H1 H2].
  split.
  - assert (H : -1 < IZR (Int_part (random * 3))) by lra.
    apply lt_IZR in H. lia.
  - assert (H : IZR (Int_part (random * 3)) < 3) by lra.
    apply lt_IZR in H. lia.
Qed.

Lemma TILE_LAYERS_OSM_subdomain (random : R) :
  0 <= random < 1 ->
  exists sub, In sub osm_subdomains /\ urlTemplate (TILE_LAYERS_OSM random) = osm_url_template sub.
Proof.
  intros Hr. pose proof (osm_subdomain_index random Hr) as Hi.
  unfold TILE_LAYERS_OSM. cbv zeta.
  set (i := js_floor (random * INR (List.length osm_subdomains))) in *.
  exists (js_array_get_string osm_subdomains i). split; [| reflexivity].
  unfold js_array_get_string. destruct (Z.ltb_spec i 0); [lia |].
  assert (E : (Z.to_nat i = 0 \/ Z.to_nat i = 1 \/ Z.to_nat i = 2)%nat) by lia.
  destruct E as [E | [E | E]]; rewrite E; cbn; auto.
Qed.

(** Every URL of a layer with the OSM template is on the subdomain's host. *)
Lemma osm_url_host (sub : string) :
  In sub osm_subdomains ->
  includes (osm_url_template sub) "{s}" = false /\
  forall L, urlTemplate L = osm_url_template sub ->
  forall mode dpr' x y z, exists rest,
    getTileUrl L mode dpr' x y z = ("https://" ++ sub ++ ".tile.openstreetmap.org/" ++ rest)%string.
Proof.
  intros Hin.
  assert (Hh : string_forall (fun a => negb (Ascii.eqb a "{"%char))
                 ("https://" ++ sub ++ ".tile.openstreetmap.org/")%string = true /\
               osm_url_template sub =
                 (("https://" ++ sub ++ ".tile.openstreetmap.org/") ++ "{z}/{x}/{y}.png")%string /\
               includes (osm_url_template sub) "{s}" = false).
  { destruct Hin as [<- | [<- | [<- | []]]]; vm_compute; repeat split. }
  destruct Hh as (Hh & Ht & Hs).
  split; [exact Hs |].
  intros L HL mode dpr' x y z. unfold getTileUrl, tile_url_of. rewrite HL, Ht, replace3_app by exact Hh.
  rewrite <- !str_app_assoc.
  destruct (supportsRetina L && shouldRequestRetina L mode dpr').
  - eexists. rewrite !str_app_assoc. reflexivity.
  - eexists. rewrite !str_app_assoc. reflexivity.
Qed.

(** C9 (counterexample): a [{s}] placeholder is left in the URL, and after
    one failed ["@2x"] load a retina-supporting layer no longer appends
    ["@2x"], though the device pixel ratio (2) exceeds the threshold. *)
Lemma tile_url_template_cex :
  getTileUrl (new_tile_layer subdomain_template false 500) CONFIG_retina None 1 2 3 =
    "https://{s}.tile.openstreetmap.org/3/1/2.png"%string /\
  getTileUrl (fst (tile_onerror retina_layer retina_job)) CONFIG_retina (Some 2) 1 2 3 =
    "https://a.tile.openstreetmap.org/3/1/2.png"%string.
Proof.
  rewrite !getTileUrl_1_2_3. unfold tile_url_of.
  destruct retina_layer_after_error as (Hra & Hsr & Ht).
  set (L' := fst (tile_onerror retina_layer retina_job)) in *.
  assert (E : shouldRequestRetina L' CONFIG_retina (Some 2) = false).
  { unfold shouldRequestRetina. rewrite Hra. apply andb_false_r. }
  rewrite E, andb_false_r, Ht. cbn [supportsRetina new_tile_layer andb urlTemplate].
  vm_compute. split; reflexivity.
Qed.

(** C9 (amended): the URL substitutes the first [{z}], [{x}] and [{y}] of
    the template (a subdomain is part of the template itself) and appends
    ["@2x"] exactly when the layer supports retina, retina is still
    available for the layer, and [CONFIG.retina] is [true] or is ["auto"]
    with a device pixel ratio (1 when unset or 0) above 1.5. A failed
    ["@2x"] load on a retina-supporting layer re-requests the URL with the
    first ["@2x"] removed and disables retina for the layer. The template of
    a layer never changes after creation, and [TILE_LAYERS.OSM] picks one of
    the subdomains [a], [b], [c] when it is created and writes it into its
    template, which has no [{s}]: every URL of that layer is on that
    subdomain's host. *)
Theorem tile_url_resolution (L : tile_layer) (mode : retina_mode)
  (devicePixelRatio : option R) (x y : R) (z : nat) :
  getTileUrl L mode devicePixelRatio x y z =
    (replace_first "{y}" (js_string_of_int (Int_part (tile_intY y z)))
       (replace_first "{x}" (js_string_of_int (tile_intX x z))
          (replace_first "{z}" (js_string_of_int (Z.of_nat z)) (urlTemplate L))) ++
     (if supportsRetina L && shouldRequestRetina L mode devicePixelRatio
      then retinaSuffix else ""))%string /\
  (supportsRetina L && shouldRequestRetina L mode devicePixelRatio = true <->
   supportsRetina L = true /\ retinaAvailable L = true /\
   (mode = RetinaOn \/ (mode = RetinaAuto /\ 3 / 2 < num_or devicePixelRatio 1))) /\
  (forall j : load_job,
     lj_aborted j = false -> supportsRetina L = true ->
     includes (lj_url j) retinaSuffix = true ->
     match tile_onerror L j with
     | (L', j') =>
         lj_src j' = replace_first retinaSuffix "" (lj_url j) /\
         requests L' = requests L ++ [(lj_key j, lj_src j')] /\
         forall mode' dpr', shouldRequestRetina L' mode' dpr' = false
     end) /\
  (forall key url now j,
     urlTemplate (fst (loadTile L key url now)) = urlTemplate L /\
     urlTemplate (fst (tile_onerror L j)) = urlTemplate L /\
     urlTemplate (fst (tile_timeout L j)) = urlTemplate L /\
     urlTemplate (performEviction L) = urlTemplate L) /\
  (forall random, 0 <= random < 1 ->
     exists sub, In sub osm_subdomains /\
       urlTemplate (TILE_LAYERS_OSM random) = osm_url_template sub /\
       includes (urlTemplate (TILE_LAYERS_OSM random)) "{s}" = false /\
       forall L', urlTemplate L' = urlTemplate (TILE_LAYERS_OSM random) ->
       forall mode' dpr' x' y' z', exists rest,
         getTileUrl L' mode' dpr' x' y' z' =
           ("https://" ++ sub ++ ".tile.openstreetmap.org/" ++ rest)%string).
Proof.
  split; [| split; [| split; [| split]]].
  - unfold getTileUrl, tile_url_of.
    destruct (supportsRetina L && shouldRequestRetina L mode devicePixelRatio);
      [reflexivity | symmetry; apply string_append_empty].
  - unfold shouldRequestRetina.
    destruct (supportsRetina L), (retinaAvailable L); cbn;
      try (rewrite ?andb_false_r; split; [discriminate | intros (? & ? & _); discriminate]).
    destruct mode.
    + split; [intros _; auto | reflexivity].
    + destruct (Rlt_dec (3 / 2) (num_or devicePixelRatio 1)) as [H|H].
      * split; [intros _; auto | reflexivity].
      * split; [discriminate | intros (_ & _ & [E | [_ H']]); [discriminate | contradiction]].
    + split; [discriminate | intros (_ & _ & [E | [E _]]); discriminate].
  - intros j Ha Hs Hi. unfold tile_onerror. rewrite Ha, Hs, Hi. cbn.
    repeat split. intros mode' dpr'. unfold shouldRequestRetina. apply andb_false_r.
  - intros key url now j. split; [| split; [| split]].
    + unfold loadTile. destruct (map_get key (tileCache L)); reflexivity.
    + unfold tile_onerror. destruct (lj_aborted j); [reflexivity |].
      destruct (supportsRetina L && includes (lj_url j) retinaSuffix); reflexivity.
    + unfold tile_timeout. destruct (lj_timer j && set_has (lj_key j) (loadingTiles L)); reflexivity.
    + reflexivity.
  - intros random Hr.
    destruct (TILE_LAYERS_OSM_subdomain random Hr) as (sub & Hin & Ht).
    destruct (osm_url_host sub Hin) as [Hs Hu].
    exists sub. rewrite Ht. split; [exact Hin | split; [reflexivity | split; [exact Hs |]]].
    intros L' HL'. apply Hu, HL'.
Qed.

(** ** Extra: the screen mapping and the zoom animations *)

Lemma rot_div (x y a s : R) :
  s <> 0 -> rot (x / s) (y / s) a = mkPoint (px (rot x y a) / s) (py (rot x y a) / s).
Proof. intros Hs. unfold rot. cbn [px py]. f_equal; field; exact Hs. Qed.

Lemma rot_rot_neg (x y b : R) :
  rot (px (rot x y b)) (py (rot x y b)) (- b) = mkPoint x y.
Proof.
  unfold rot. cbn [px py]. rewrite cos_neg, sin_neg.
  pose proof (sin2_cos2 b) as H. unfold Rsqr in H.
  f_equal.
  - transitivity (x * (sin b * sin b + cos b * cos b)); [ring | rewrite H; ring].
  - transitivity (y * (sin b * sin b + cos b * cos b)); [ring | rewrite H; ring].
Qed.

Lemma tile_px_pos (z : R) : 0 < TILE_SIZE * pow2 z.
Proof. unfold TILE_SIZE. pose proof (pow2_pos z). lra. Qed.

(** Reading back the screen point of a geocoordinate. *)
Lemma screenToLatLon_of_offset (m : atlas) (ll : latlng) (b : R) :
  Rabs (lat ll) <= MAX_LATITUDE -> -180 <= lon ll <= 180 ->
  let zInt := IZR (js_floor (zoom m)) in
  let ts := TILE_SIZE * pow2 (zoom m - zInt) in
  let ct := latLngToTile (center m) zInt in
  let pt := latLngToTile ll zInt in
  let av := rot ((px pt - px ct) * ts) ((py pt - py ct) * ts) b in
  screenToLatLon m (canvas_width m / dpr m / 2 + px av) (canvas_height m / dpr m / 2 + py av)
    (zoom m) b (center m) = ll.
Proof.
  intros Hla Hlo zInt ts ct pt av.
  assert (Hts : ts <> 0) by (pose proof (tile_px_pos (zoom m - zInt)); unfold ts; lra).
  unfold screenToLatLon. fold zInt. fold ts. fold ct. cbn [px py].
  replace (canvas_width m / dpr m / 2 + px av - canvas_width m / dpr m / 2) with (px av) by ring.
  replace (canvas_height m / dpr m / 2 + py av - canvas_height m / dpr m / 2) with (py av) by ring.
  rewrite rot_div by exact Hts. unfold av. rewrite rot_rot_neg. cbn [px py].
  replace (px ct + (px pt - px ct) * ts / ts) with (px pt) by (field; exact Hts).
  replace (py ct + (py pt - py ct) * ts / ts) with (py pt) by (field; exact Hts).
  unfold pt. rewrite latlng_of_tile_of_latlng by exact Hla.
  rewrite clampLatitude_id by exact Hla. rewrite wrapLongitude_id by exact Hlo.
  apply latlng_eta.
Qed.

(** X1: the screen point given by [latLngToContainerPoint] is read back by
    [screenToLatLon] as the same geocoordinate. *)
Theorem latLngToContainerPoint_roundtrip (m : atlas) (ll : latlng) :
  Rabs (lat ll) <= MAX_LATITUDE -> -180 <= lon ll <= 180 ->
  let p := latLngToContainerPoint m ll in
  screenToLatLon_here m (px p) (py p) = ll.
Proof.
  intros Hla Hlo p.
  exact (screenToLatLon_of_offset m ll (bearing m) Hla Hlo).
Qed.

(** X2: a GeoJSON coordinate [[lon, lat]] is drawn where the map's
    [latLngToContainerPoint] puts [{lat, lon}], so [screenToLatLon] reads it
    back; a layer not on a map draws everything at [(0, 0)]. *)
Theorem geojson_screen_point (m : atlas) (lo la : R) :
  Rabs la <= MAX_LATITUDE -> -180 <= lo <= 180 ->
  latLngToScreenPoint (Some m) lo la = latLngToContainerPoint m (mkLatLng la lo) /\
  screenToLatLon_here m (px (latLngToScreenPoint (Some m) lo la))
                        (py (latLngToScreenPoint (Some m) lo la)) = mkLatLng la lo /\
  latLngToScreenPoint None lo la = mkPoint 0 0.
Proof.
  intros Hla Hlo.
  assert (E : latLngToScreenPoint (Some m) lo la = latLngToContainerPoint m (mkLatLng la lo))
    by reflexivity.
  split; [exact E | split; [| reflexivity]].
  rewrite E. apply (screenToLatLon_of_offset m (mkLatLng la lo) (bearing m)); assumption.
Qed.

Lemma clampLatitude_strict (la : R) :
  Rabs (clampLatitude la) < MAX_LATITUDE -> clampLatitude la = la.
Proof.
  intros H. apply Rabs_def2 in H.
  unfold clampLatitude, js_max, js_min, MIN_LATITUDE, MAX_LATITUDE, Rmax, Rmin in *.
  repeat destruct Rle_dec; lra.
Qed.

(** [applyZoomRotateAbout] with a given anchor [A] puts [A] under the anchor
    pixel (up to the two names of the antimeridian) when the new center
    needs no clamping. *)
Lemma applyZoomRotateAbout_anchor_some (m : atlas) (ax ay newZoom newBearing : R) (A : latlng) :
  Rabs (lat A) <= MAX_LATITUDE -> -180 <= lon A <= 180 ->
  Rabs (lat (center (applyZoomRotateAbout m ax ay newZoom newBearing (Some A)))) < MAX_LATITUDE ->
  let after := screenToLatLon_here (applyZoomRotateAbout m ax ay newZoom newBearing (Some A)) ax ay in
  lat after = lat A /\
  (lon after = lon A \/ (lon A = 180 /\ lon after = -180) \/ (lon A = -180 /\ lon after = 180)).
Proof.
  intros HA HlonA Hc after.
  assert (Hnc0 : clampLatitude (lat (anchored_center m ax ay newZoom newBearing (Some A)))
                 = lat (anchored_center m ax ay newZoom newBearing (Some A)))
    by (apply clampLatitude_strict; exact Hc).
  assert (Hnc : Rabs (lat (anchored_center m ax ay newZoom newBearing (Some A))) <= MAX_LATITUDE)
    by (rewrite <- Hnc0; apply clampLatitude_abs).
  set (nz := clamp_zoom m newZoom).
  set (zInt := IZR (js_floor nz)).
  set (ts := TILE_SIZE * pow2 (nz - zInt)).
  set (w := canvas_width m / dpr m).
  set (h := canvas_height m / dpr m).
  set (v := rot ((ax - w / 2) / ts) ((ay - h / 2) / ts) (- newBearing)).
  assert (Hnc_eq : anchored_center m ax ay newZoom newBearing (Some A) =
                   tileToLatLng (px (latLngToTile A zInt) - px v)
                                (py (latLngToTile A zInt) - py v) zInt) by reflexivity.
  destruct (wrapLongitude_shift (lon (anchored_center m ax ay newZoom newBearing (Some A)))) as [k Hk].
  assert (Hafter : after =
    mkLatLng (clampLatitude (lat (tileToLatLng
                (px (latLngToTile (mkLatLng (lat (anchored_center m ax ay newZoom newBearing (Some A)))
                     (lon (anchored_center m ax ay newZoom newBearing (Some A)) + 360 * IZR k)) zInt) + px v)
                (py (latLngToTile (mkLatLng (lat (anchored_center m ax ay newZoom newBearing (Some A)))
                     (lon (anchored_center m ax ay newZoom newBearing (Some A)) + 360 * IZR k)) zInt) + py v)
                zInt)))
             (wrapLongitude (lon (tileToLatLng
                (px (latLngToTile (mkLatLng (lat (anchored_center m ax ay newZoom newBearing (Some A)))
                     (lon (anchored_center m ax ay newZoom newBearing (Some A)) + 360 * IZR k)) zInt) + px v)
                (py (latLngToTile (mkLatLng (lat (anchored_center m ax ay newZoom newBearing (Some A)))
                     (lon (anchored_center m ax ay newZoom newBearing (Some A)) + 360 * IZR k)) zInt) + py v)
                zInt)))).
  { unfold after, screenToLatLon_here, applyZoomRotateAbout, screenToLatLon.
    cbn [center zoom bearing canvas_width canvas_height dpr lat lon].
    rewrite rot_normalizeAngle. rewrite <- Hk, Hnc0. reflexivity. }
  rewrite Hnc_eq in Hnc.
  rewrite Hafter. rewrite Hnc_eq.
  rewrite (anchor_tile_step A v zInt (IZR k) HA Hnc). cbn [lat lon].
  rewrite (clampLatitude_id _ HA). split; [reflexivity|].
  destruct (wrapLongitude_shift (lon A + 360 * IZR k)) as [k' Hk'].
  apply (lon_congruent_in_range (lon A) _ (k + k')).
  - exact HlonA.
  - apply wrapLongitude_range.
  - rewrite Hk', plus_IZR. ring.
Qed.

(** X3: every frame of [animateZoomRotateAbout], whatever the map is at that
    frame, puts the geocoordinate that was under the anchor pixel when the
    animation started back under that pixel (up to the two names of the
    antimeridian), when the new center needs no latitude clamping. *)
Theorem zoomAnim_frame_keeps_anchor (m0 m : atlas) (ax ay toZoom toBearing duration startT now : R)
    (easing : R -> R) :
  let a := animateZoomRotateAbout m0 ax ay toZoom toBearing duration easing startT in
  let m' := fst (zoomAnim_frame m a now) in
  Rabs (lat (center m')) < MAX_LATITUDE ->
  let before := screenToLatLon_here m0 ax ay in
  let after := screenToLatLon_here m' ax ay in
  lat after = lat before /\
  (lon after = lon before \/ (lon before = 180 /\ lon after = -180) \/
   (lon before = -180 /\ lon after = 180)).
Proof.
  intros a m' Hc before after.
  destruct (screenToLatLon_ranges m0 ax ay (zoom m0) (bearing m0) (center m0)) as [Hla Hlo].
  unfold lat_in_range, lon_in_wrapped_range, MIN_LATITUDE in *.
  assert (HA : Rabs (lat (screenToLatLon m0 ax ay (zoom m0) (bearing m0) (center m0)))
               <= MAX_LATITUDE) by (apply Rabs_le; unfold MAX_LATITUDE in *; lra).
  apply (applyZoomRotateAbout_anchor_some m ax ay _ _ before).
  - exact HA.
  - exact Hlo.
  - exact Hc.
Qed.

Lemma normalizeAngle_ext (x y : R) :
  cos x = cos y -> sin x = sin y -> normalizeAngle x = normalizeAngle y.
Proof. intros Hc Hs. unfold normalizeAngle. rewrite Hc, Hs. reflexivity. Qed.

Lemma normalizeAngle_add_diff (s b : R) :
  normalizeAngle (s + shortestAngleDiff s b) = normalizeAngle b.
Proof.
  unfold shortestAngleDiff. destruct (normalizeAngle_cos_sin (b - s)) as [Ec Es].
  apply normalizeAngle_ext.
  - rewrite cos_plus, Ec, Es, <- cos_plus. f_equal. ring.
  - rewrite sin_plus, Ec, Es, <- sin_plus. f_equal. ring.
Qed.

Lemma js_max_1_pos (d : R) : 0 < js_max 1 d.
Proof. unfold js_max. pose proof (Rmax_l 1 d). lra. Qed.

Lemma div_ge_1_iff (x M : R) : 0 < M -> (1 <= x / M <-> M <= x).
Proof.
  intros HM. assert (E : x = x / M * M) by (field; lra).
  split; intros H.
  - rewrite E. pose proof (Rmult_le_compat_r M 1 (x / M) (Rlt_le _ _ HM) H). lra.
  - apply Rmult_le_reg_r with M; [exact HM|]. rewrite <- E. lra.
Qed.

(** X4: a frame of [animateZoomRotateAbout] fires [zoomend] exactly when the
    duration (at least one millisecond) has elapsed, and that final frame
    sets the zoom to the target clamped to the layer's bounds and the bearing
    to the normalized target bearing. *)
Theorem zoomAnim_final_frame (m0 m : atlas) (ax ay toZoom toBearing duration startT now : R)
    (easing : R -> R) :
  let a := animateZoomRotateAbout m0 ax ay toZoom toBearing duration easing startT in
  (snd (zoomAnim_frame m a now) = true <-> startT + js_max 1 duration <= now) /\
  (startT + js_max 1 duration <= now ->
   zoom (fst (zoomAnim_frame m a now)) = clamp_zoom m toZoom /\
   bearing (fst (zoomAnim_frame m a now)) = normalizeAngle toBearing).
Proof.
  cbv zeta.
  pose proof (js_max_1_pos duration) as HM.
  pose proof (div_ge_1_iff (now - startT) (js_max 1 duration) HM) as Hiff.
  unfold zoomAnim_frame, za_t, animateZoomRotateAbout. cbn [za_startT za_duration za_easing za_toZoom za_sZoom
    za_sBear za_deltaBear za_ax za_ay za_anchorLL fst snd].
  split.
  - destruct (Rlt_dec ((now - startT) / js_max 1 duration) 1) as [H|H].
    + split; [discriminate | intros H'; exfalso].
      assert (1 <= (now - startT) / js_max 1 duration) by (apply Hiff; lra). lra.
    + split; [intros _ | reflexivity].
      assert (~ ((now - startT) / js_max 1 duration < 1)) by exact H.
      assert (1 <= (now - startT) / js_max 1 duration) by lra. apply Hiff in H1. lra.
  - intros Hn. assert (Ht : 1 <= (now - startT) / js_max 1 duration) by (apply Hiff; lra).
    destruct (Rle_dec 1 ((now - startT) / js_max 1 duration)) as [_|H]; [|contradiction].
    unfold applyZoomRotateAbout. cbn [zoom bearing]. split.
    + f_equal. ring.
    + rewrite Rmult_1_r. apply normalizeAngle_add_diff.
Qed.


(** ** Extra: gestures and keyboard *)

Lemma angle_unique (x y : R) :
  - PI < x <= PI -> - PI < y <= PI -> cos x = cos y -> sin x = sin y -> x = y.
Proof.
  intros Hx Hy Hc Hs.
  destruct (Rle_dec 0 x) as [x0|x0].
  - assert (0 <= y).
    { destruct (Rle_dec 0 y) as [|y0]; [assumption|].
      assert (sin y < 0) by (apply sin_lt_0_var; lra).
      assert (0 <= sin x) by (apply sin_ge_0; lra). lra. }
    apply cos_inj; lra.
  - assert (y < 0).
    { destruct (Rlt_dec y 0) as [|y0]; [assumption|].
      assert (sin x < 0) by (apply sin_lt_0_var; lra).
      assert (0 <= sin y) by (apply sin_ge_0; lra). lra. }
    assert (- x = - y) by (apply cos_inj; [lra | lra | rewrite !cos_neg; exact Hc]). lra.
Qed.

Lemma normalizeAngle_id (b : R) : bearing_in_range b -> normalizeAngle b = b.
Proof.
  intros Hb. destruct (normalizeAngle_cos_sin b) as [Ec Es].
  apply angle_unique; [apply normalizeAngle_range | exact Hb | exact Ec | exact Es].
Qed.

Lemma clamp_zoom_idem (m : atlas) (z : R) : clamp_zoom m (clamp_zoom m z) = clamp_zoom m z.
Proof. unfold clamp_zoom, js_max, js_min, Rmax, Rmin. repeat destruct Rle_dec; lra. Qed.

Lemma clamp_zoom_base (m m1 : atlas) (z : R) :
  baseLayer m1 = baseLayer m -> clamp_zoom m1 z = clamp_zoom m z.
Proof. intros E. unfold clamp_zoom, map_min_zoom, map_max_zoom. rewrite E. reflexivity. Qed.

Lemma js_max_1_const (d : R) : 1 <= d -> js_max 1 d = d.
Proof. intros H. unfold js_max. apply Rmax_right. exact H. Qed.

(** The state after the final frame of a zoom animation. *)
Lemma zoomAnim_final_state (m0 m : atlas) (ax ay toZoom toBearing duration startT now : R)
    (easing : R -> R) :
  let a := animateZoomRotateAbout m0 ax ay toZoom toBearing duration easing startT in
  startT + js_max 1 duration <= now ->
  zoom (fst (zoomAnim_frame m a now)) = clamp_zoom m toZoom /\
  bearing (fst (zoomAnim_frame m a now)) = normalizeAngle toBearing.
Proof.
  cbv zeta. intros Hn.
  pose proof (js_max_1_pos duration) as HM.
  assert (Ht : 1 <= (now - startT) / js_max 1 duration)
    by (apply (div_ge_1_iff (now - startT) (js_max 1 duration) HM); lra).
  unfold zoomAnim_frame, za_t, animateZoomRotateAbout.
  cbn [za_startT za_duration za_easing za_toZoom za_sZoom za_sBear za_deltaBear fst].
  destruct (Rle_dec 1 ((now - startT) / js_max 1 duration)) as [_|H]; [|contradiction].
  unfold applyZoomRotateAbout. cbn [zoom bearing]. split.
  - f_equal. ring.
  - rewrite Rmult_1_r. apply normalizeAngle_add_diff.
Qed.

(** X5: the animations started by the wheel, by a double click and by the
    ["n"] key end, once their duration has elapsed, at the zoom [zoom +/- 0.25],
    [zoom + 1] and [zoom] clamped to the layer's bounds; the wheel and the
    double click keep the bearing and ["n"] turns it to north ([0]). *)
Theorem gesture_animation_targets (m m1 : atlas) (cx cy deltaY startT now : R) :
  baseLayer m1 = baseLayer m -> bearing_in_range (bearing m) ->
  let wheel := onWheel m cx cy deltaY startT in
  let dbl := onDoubleClick m cx cy startT in
  (startT + WHEEL_ZOOM_DURATION <= now ->
   zoom (fst (zoomAnim_frame m1 wheel now)) =
     clamp_zoom m (zoom m + (if Rlt_dec deltaY 0 then WHEEL_ZOOM_STEP else - WHEEL_ZOOM_STEP)) /\
   bearing (fst (zoomAnim_frame m1 wheel now)) = bearing m) /\
  (startT + TAP_ZOOM_DURATION <= now ->
   zoom (fst (zoomAnim_frame m1 dbl now)) = clamp_zoom m (zoom m + 1) /\
   bearing (fst (zoomAnim_frame m1 dbl now)) = bearing m) /\
  (exists north, onKeyDown m KeyN startT = KeyAnim north /\
   (startT + SNAP_DURATION <= now ->
    zoom (fst (zoomAnim_frame m1 north now)) = clamp_zoom m (zoom m) /\
    bearing (fst (zoomAnim_frame m1 north now)) = 0)).
Proof.
  intros Hbase Hb wheel dbl.
  split; [| split].
  - intros Hn. unfold wheel, onWheel, smoothZoomAt.
    destruct (zoomAnim_final_state m m1 cx cy
                (js_max (map_min_zoom m) (js_min (map_max_zoom m)
                   (zoom m + (if Rlt_dec deltaY 0 then WHEEL_ZOOM_STEP else - WHEEL_ZOOM_STEP))))
                (bearing m) WHEEL_ZOOM_DURATION startT now easeInOutCubic) as [Ez Eb].
    { rewrite js_max_1_const by (unfold WHEEL_ZOOM_DURATION; lra). exact Hn. }
    rewrite Ez, Eb, normalizeAngle_id by exact Hb. split; [| reflexivity].
    rewrite (clamp_zoom_base m m1 _ Hbase). apply clamp_zoom_idem.
  - intros Hn. unfold dbl, onDoubleClick.
    destruct (zoomAnim_final_state m m1 cx cy (zoom m + 1) (bearing m) TAP_ZOOM_DURATION
                startT now easeInOutCubic) as [Ez Eb].
    { rewrite js_max_1_const by (unfold TAP_ZOOM_DURATION; lra). exact Hn. }
    rewrite Ez, Eb, normalizeAngle_id by exact Hb. split; [| reflexivity].
    apply (clamp_zoom_base m m1 _ Hbase).
  - eexists. split; [reflexivity |]. intros Hn.
    destruct (zoomAnim_final_state m m1 (canvas_width m / dpr m / 2) (canvas_height m / dpr m / 2)
                (zoom m) 0 SNAP_DURATION startT now easeInOutCubic) as [Ez Eb].
    { rewrite js_max_1_const by (unfold SNAP_DURATION; lra). exact Hn. }
    rewrite Ez, Eb. split.
    + apply (clamp_zoom_base m m1 _ Hbase).
    + apply normalizeAngle_id. unfold bearing_in_range. pose proof PI_RGT_0. lra.
Qed.

(** X6: on a zoom that can go one level up, the ["+"] (or ["="]) key zooms in
    by exactly one level without moving or turning the map, and ["-"] then
    gives back the original viewport. *)
Theorem key_zoom_in_out (m : atlas) (now : R) :
  map_min_zoom m <= zoom m -> zoom m + 1 <= map_max_zoom m ->
  exists m1, onKeyDown m KeyPlus now = KeyView m1 /\ onKeyDown m KeyEqual now = KeyView m1 /\
    zoom m1 = zoom m + 1 /\ center m1 = center m /\ bearing m1 = bearing m /\
    onKeyDown m1 KeyMinus now = KeyView m.
Proof.
  intros Hmin Hmax.
  assert (E1 : js_max (map_min_zoom m) (js_min (map_max_zoom m) (zoom m + 1)) = zoom m + 1).
  { unfold js_max, js_min. rewrite Rmin_right by lra. rewrite Rmax_right by lra. reflexivity. }
  assert (Hs : setZoom m (zoom m + 1) = set_zoom_field m (zoom m + 1)).
  { unfold setZoom. rewrite E1. destruct (Req_dec_T (zoom m + 1) (zoom m)); [lra | reflexivity]. }
  exists (set_zoom_field m (zoom m + 1)).
  cbv beta iota zeta delta [onKeyDown]. rewrite Hs.
  split; [reflexivity | split; [reflexivity | split; [reflexivity | split; [reflexivity | split; [reflexivity |]]]]].
  unfold setZoom.
  change (map_min_zoom (set_zoom_field m (zoom m + 1))) with (map_min_zoom m).
  change (map_max_zoom (set_zoom_field m (zoom m + 1))) with (map_max_zoom m).
  change (zoom (set_zoom_field m (zoom m + 1))) with (zoom m + 1).
  replace (zoom m + 1 - 1) with (zoom m) by ring.
  assert (E2 : js_max (map_min_zoom m) (js_min (map_max_zoom m) (zoom m)) = zoom m).
  { unfold js_max, js_min. rewrite Rmin_right by lra. rewrite Rmax_right by lra. reflexivity. }
  rewrite E2. destruct (Req_dec_T (zoom m) (zoom m + 1)); [lra |].
  destruct m; reflexivity.
Qed.

Lemma DEG2RAD_15 : DEG2RAD * 15 = PI / 12.
Proof. unfold DEG2RAD. field. Qed.

(** Turning a normalized bearing by [c] (more than [1e-6] and at most a
    quarter turn) changes it by more than setBearing's threshold. *)
Lemma rotate_step_far (b c : R) :
  bearing_in_range b -> / 1000000 < c <= PI / 2 ->
  ~ Rabs (normalizeAngle (b + c) - b) < / 1000000.
Proof.
  intros Hb Hc Hd.
  destruct (normalizeAngle_cos_sin (b + c)) as [Ec Es].
  set (nr := normalizeAngle (b + c)) in *. clearbody nr. apply Rabs_def2 in Hd.
  assert (Hone : cos ((b + c) - nr) = 1).
  { rewrite cos_minus, <- Ec, <- Es. pose proof (sin2_cos2 nr) as H. unfold Rsqr in H. rewrite Rplus_comm. exact H. }
  replace ((b + c) - nr) with (c - (nr - b)) in Hone by ring.
  assert (c - (nr - b) = 0).
  { apply cos_inj; [pose proof PI2_3_2; lra | pose proof PI2_3_2; lra |].
    rewrite Hone, cos_0. reflexivity. }
  lra.
Qed.

Lemma rotate_back (b c : R) :
  bearing_in_range b -> normalizeAngle (normalizeAngle (b + c) - c) = b.
Proof.
  intros Hb. destruct (normalizeAngle_cos_sin (b + c)) as [Ec Es].
  rewrite <- (normalizeAngle_id b Hb) at 2. apply normalizeAngle_ext.
  - rewrite cos_minus, Ec, Es, <- cos_minus. f_equal. ring.
  - rewrite sin_minus, Ec, Es, <- sin_minus. f_equal. ring.
Qed.

(** X7: from a normalized bearing, the ["r"] key turns the map by 15 degrees
    (the bearing changes, the center and zoom do not) and the ["l"] key then
    gives back the original viewport. *)
Theorem key_rotate_back (m : atlas) (now : R) :
  bearing_in_range (bearing m) ->
  exists m1, onKeyDown m KeyR now = KeyView m1 /\
    bearing m1 = normalizeAngle (bearing m + PI / 12) /\ bearing m1 <> bearing m /\
    center m1 = center m /\ zoom m1 = zoom m /\
    onKeyDown m1 KeyL now = KeyView m.
Proof.
  intros Hb.
  assert (Hc : / 1000000 < PI / 12 <= PI / 2) by (pose proof PI2_3_2; lra).
  pose proof (rotate_step_far (bearing m) (PI / 12) Hb Hc) as Hfar.
  set (nr := normalizeAngle (bearing m + PI / 12)) in *.
  assert (Hs : setBearing m (bearing m + DEG2RAD * 15) = set_bearing_field m nr).
  { unfold setBearing. rewrite DEG2RAD_15. fold nr.
    destruct (Rlt_dec (Rabs (nr - bearing m)) (/ 1000000)); [contradiction | reflexivity]. }
  exists (set_bearing_field m nr).
  cbv beta iota zeta delta [onKeyDown]. rewrite Hs.
  split; [reflexivity | split; [reflexivity | split]].
  { cbn [bearing set_bearing_field]. intros E. apply Hfar. rewrite E, Rminus_diag, Rabs_R0.
    apply Rinv_0_lt_compat. lra. }
  split; [reflexivity | split; [reflexivity |]].
  unfold setBearing. cbn [bearing set_bearing_field]. rewrite DEG2RAD_15.
  unfold nr. rewrite rotate_back by exact Hb. fold nr.
  destruct (Rlt_dec (Rabs (bearing m - nr)) (/ 1000000)) as [H|H].
  - exfalso. apply Hfar. rewrite Rabs_minus_sym. exact H.
  - destruct m; reflexivity.
Qed.


(** ** Extra: keyboard panning *)

Lemma pow2_split (z zi : R) : TILE_SIZE * pow2 (z - zi) * pow2 zi = TILE_SIZE * pow2 z.
Proof.
  unfold pow2. rewrite Rmult_assoc, <- Rpower_plus. f_equal. f_equal. ring.
Qed.

Lemma tileToLatLng_lon (x y z : R) : lon (tileToLatLng x y z) = (2 * x / pow2 z - 1) * 180.
Proof.
  unfold tileToLatLng, unproject, RAD2DEG. cbn [px py lon].
  pose proof (pow2_pos z). pose proof EARTH_RADIUS_pos. pose proof PI_neq0'.
  field. lra.
Qed.

Lemma tileToLatLng_lat_x (x x' y z : R) : lat (tileToLatLng x y z) = lat (tileToLatLng x' y z).
Proof. reflexivity. Qed.

Lemma tileToLatLng_lat_decreasing (x y1 y2 z : R) :
  y1 < y2 -> lat (tileToLatLng x y2 z) < lat (tileToLatLng x y1 z).
Proof.
  intros Hy. unfold tileToLatLng, unproject, RAD2DEG. cbn [px py lat].
  pose proof (pow2_pos z) as Hs. pose proof EARTH_RADIUS_pos as HR. pose proof PI_RGT_0 as Hpi.
  apply Rmult_lt_compat_r; [apply Rdiv_lt_0_compat; lra |].
  apply Rplus_lt_compat_r. apply Rmult_lt_compat_l; [lra |].
  apply atan_increasing. apply exp_increasing.
  assert (H1 : y1 / pow2 z < y2 / pow2 z)
    by (apply Rmult_lt_compat_r; [apply Rinv_0_lt_compat; exact Hs | exact Hy]).
  assert (H2 : 0 < 2 * PI * EARTH_RADIUS) by (apply Rmult_lt_0_compat; lra).
  pose proof (Rmult_lt_compat_r _ _ _ H2 H1) as H3.
  assert (A : PI * EARTH_RADIUS - y2 / pow2 z * 2 * PI * EARTH_RADIUS <
              PI * EARTH_RADIUS - y1 / pow2 z * 2 * PI * EARTH_RADIUS).
  { replace (y1 / pow2 z * 2 * PI * EARTH_RADIUS) with (y1 / pow2 z * (2 * PI * EARTH_RADIUS)) by ring.
    replace (y2 / pow2 z * 2 * PI * EARTH_RADIUS) with (y2 / pow2 z * (2 * PI * EARTH_RADIUS)) by ring.
    lra. }
  apply Rmult_lt_compat_r with (r := / EARTH_RADIUS) in A; [exact A |].
  apply Rinv_0_lt_compat. exact HR.
Qed.

(** [screenToLatLon] at a pixel offset [(dx, dy)] from the middle of a
    north-up view. *)
Lemma screenToLatLon_north_up (m : atlas) (dx dy : R) :
  bearing m = 0 ->
  screenToLatLon m (canvas_width m / dpr m / 2 + dx) (canvas_height m / dpr m / 2 + dy)
    (zoom m) (bearing m) (center m) =
  mkLatLng
    (clampLatitude (lat (tileToLatLng
       (px (latLngToTile (center m) (IZR (js_floor (zoom m))))
          + dx / (TILE_SIZE * pow2 (zoom m - IZR (js_floor (zoom m)))))
       (py (latLngToTile (center m) (IZR (js_floor (zoom m))))
          + dy / (TILE_SIZE * pow2 (zoom m - IZR (js_floor (zoom m)))))
       (IZR (js_floor (zoom m))))))
    (wrapLongitude (lon (tileToLatLng
       (px (latLngToTile (center m) (IZR (js_floor (zoom m))))
          + dx / (TILE_SIZE * pow2 (zoom m - IZR (js_floor (zoom m)))))
       (py (latLngToTile (center m) (IZR (js_floor (zoom m))))
          + dy / (TILE_SIZE * pow2 (zoom m - IZR (js_floor (zoom m)))))
       (IZR (js_floor (zoom m)))))).
Proof.
  intros Hb. unfold screenToLatLon. rewrite Hb. cbv zeta. cbn [px py].
  replace (canvas_width m / dpr m / 2 + dx - canvas_width m / dpr m / 2) with dx by ring.
  replace (canvas_height m / dpr m / 2 + dy - canvas_height m / dpr m / 2) with dy by ring.
  unfold rot. rewrite Ropp_0, cos_0, sin_0. cbn [px py].
  f_equal; f_equal; f_equal; f_equal; ring.
Qed.

(** X8: on a north-up view, the ["ArrowUp"] key moves the center south (it
    never moves it north, and it does move it unless the center is already
    at the southern limit) and ["ArrowDown"] moves it north, both keeping the
    longitude. *)
Theorem key_pan_vertical (m : atlas) (now : R) :
  bearing m = 0 -> Rabs (lat (center m)) <= MAX_LATITUDE -> -180 <= lon (center m) <= 180 ->
  (exists m1, onKeyDown m KeyArrowUp now = KeyView m1 /\
     lon (center m1) = lon (center m) /\ lat (center m1) <= lat (center m) /\
     (MIN_LATITUDE < lat (center m) -> lat (center m1) < lat (center m))) /\
  (exists m1, onKeyDown m KeyArrowDown now = KeyView m1 /\
     lon (center m1) = lon (center m) /\ lat (center m) <= lat (center m1) /\
     (lat (center m) < MAX_LATITUDE -> lat (center m) < lat (center m1))).
Proof.
  intros Hb Hla Hlo.
  set (zInt := IZR (js_floor (zoom m))).
  set (ts := TILE_SIZE * pow2 (zoom m - zInt)).
  set (ct := latLngToTile (center m) zInt).
  assert (Hts : 0 < ts) by apply tile_px_pos.
  assert (Hct : tileToLatLng (px ct) (py ct) zInt = center m)
    by (apply latlng_of_tile_of_latlng; exact Hla).
  assert (Hlon : forall d, wrapLongitude (lon (tileToLatLng (px ct + 0 / ts) (py ct + d / ts) zInt))
                           = lon (center m)).
  { intros d. rewrite !tileToLatLng_lon.
    replace (px ct + 0 / ts) with (px ct) by (field; lra).
    rewrite <- (tileToLatLng_lon (px ct) (py ct)), Hct. apply wrapLongitude_id. exact Hlo. }
  apply Rabs_le_between' in Hla. unfold MIN_LATITUDE.
  split; eexists; (split; [reflexivity |]); cbn [center set_center];
    rewrite screenToLatLon_north_up by exact Hb; fold zInt ts ct; cbn [lat lon];
    (split; [apply Hlon |]).
  - assert (Hlt : lat (tileToLatLng (px ct + 0 / ts) (py ct + PAN_STEP_PX / ts) zInt) < lat (center m)).
    { rewrite <- Hct. rewrite (tileToLatLng_lat_x (px ct) (px ct + 0 / ts) (py ct)).
      apply tileToLatLng_lat_decreasing. unfold PAN_STEP_PX.
      assert (0 < 100 / ts) by (apply Rdiv_lt_0_compat; lra). lra. }
    unfold clampLatitude, js_max, js_min, MIN_LATITUDE, MAX_LATITUDE, Rmax, Rmin in *.
    split; [| intros]; repeat destruct Rle_dec; lra.
  - assert (Hlt : lat (center m) < lat (tileToLatLng (px ct + 0 / ts) (py ct + - PAN_STEP_PX / ts) zInt)).
    { rewrite <- Hct. rewrite (tileToLatLng_lat_x (px ct) (px ct + 0 / ts) (py ct)).
      apply tileToLatLng_lat_decreasing. unfold PAN_STEP_PX.
      assert (0 < 100 / ts) by (apply Rdiv_lt_0_compat; lra).
      replace (- 100 / ts) with (- (100 / ts)) by (field; lra). lra. }
    unfold clampLatitude, js_max, js_min, MIN_LATITUDE, MAX_LATITUDE, Rmax, Rmin in *.
    split; [| intros]; repeat destruct Rle_dec; lra.
Qed.

(** X9: on a north-up view, the ["ArrowLeft"] key moves the center east and
    ["ArrowRight"] west, by [100] pixels' worth of longitude
    ([100 * 360 / (256 * 2^zoom)] degrees, up to whole turns), keeping the
    latitude. *)
Theorem key_pan_horizontal (m : atlas) (now : R) :
  bearing m = 0 -> Rabs (lat (center m)) <= MAX_LATITUDE ->
  (exists m1 k, onKeyDown m KeyArrowLeft now = KeyView m1 /\
     lat (center m1) = lat (center m) /\
     lon (center m1) = lon (center m) + PAN_STEP_PX * 360 / (TILE_SIZE * pow2 (zoom m)) + 360 * IZR k) /\
  (exists m1 k, onKeyDown m KeyArrowRight now = KeyView m1 /\
     lat (center m1) = lat (center m) /\
     lon (center m1) = lon (center m) - PAN_STEP_PX * 360 / (TILE_SIZE * pow2 (zoom m)) + 360 * IZR k).
Proof.
  intros Hb Hla.
  set (zInt := IZR (js_floor (zoom m))).
  set (ts := TILE_SIZE * pow2 (zoom m - zInt)).
  set (ct := latLngToTile (center m) zInt).
  assert (Hts : 0 < ts) by apply tile_px_pos.
  assert (Hs : 0 < pow2 zInt) by apply pow2_pos.
  assert (Hsplit : ts * pow2 zInt = TILE_SIZE * pow2 (zoom m)) by apply pow2_split.
  assert (Hct : tileToLatLng (px ct) (py ct) zInt = center m)
    by (apply latlng_of_tile_of_latlng; exact Hla).
  assert (Hlat : forall d, clampLatitude (lat (tileToLatLng (px ct + d / ts) (py ct + 0 / ts) zInt))
                           = lat (center m)).
  { intros d. rewrite (tileToLatLng_lat_x _ (px ct)).
    replace (py ct + 0 / ts) with (py ct) by (field; lra).
    rewrite Hct. apply clampLatitude_id. exact Hla. }
  assert (Hlon : forall d, lon (tileToLatLng (px ct + d / ts) (py ct + 0 / ts) zInt)
                           = lon (center m) + d * 360 / (TILE_SIZE * pow2 (zoom m))).
  { intros d. rewrite <- Hct. rewrite !tileToLatLng_lon, <- Hsplit. field. lra. }
  split.
  - destruct (wrapLongitude_shift (lon (tileToLatLng (px ct + PAN_STEP_PX / ts) (py ct + 0 / ts) zInt)))
      as [k Hk].
    exists (set_center m (screenToLatLon m (canvas_width m / dpr m / 2 + PAN_STEP_PX)
                            (canvas_height m / dpr m / 2 + 0) (zoom m) (bearing m) (center m))), k.
    split; [reflexivity |]. cbn [center set_center].
    rewrite screenToLatLon_north_up by exact Hb. fold zInt ts ct. cbn [lat lon].
    split; [apply Hlat |]. rewrite Hk, Hlon. reflexivity.
  - destruct (wrapLongitude_shift (lon (tileToLatLng (px ct + - PAN_STEP_PX / ts) (py ct + 0 / ts) zInt)))
      as [k Hk].
    exists (set_center m (screenToLatLon m (canvas_width m / dpr m / 2 + - PAN_STEP_PX)
                            (canvas_height m / dpr m / 2 + 0) (zoom m) (bearing m) (center m))), k.
    split; [reflexivity |]. cbn [center set_center].
    rewrite screenToLatLon_north_up by exact Hb. fold zInt ts ct. cbn [lat lon].
    split; [apply Hlat |]. rewrite Hk, Hlon. field. unfold TILE_SIZE. pose proof (pow2_pos (zoom m)). lra.
Qed.


(** ** Extra: easing curves and [GISUtils] *)

Lemma cube_le (a b : R) : 0 <= a -> a <= b -> a * (a * (a * 1)) <= b * (b * (b * 1)).
Proof.
  intros Ha Hab.
  assert (0 <= (b - a) * (b * b + a * b + a * a)) by (apply Rmult_le_pos; nra).
  nra.
Qed.

Lemma easeInOutCubic_ok : easing_ok easeInOutCubic.
Proof.
  unfold easing_ok, easing_in_unit, easeInOutCubic. cbn [pow].
  split; [| split; [| split]].
  - destruct (Rlt_dec 0 (1 / 2)); [ring | lra].
  - destruct (Rlt_dec 1 (1 / 2)); [lra | field].
  - intros t Ht. destruct (Rlt_dec t (1 / 2)).
    + pose proof (cube_le 0 t) as H0. pose proof (cube_le t (1 / 2)) as H1. nra.
    + pose proof (cube_le 0 (-2 * t + 2)) as H0. pose proof (cube_le (-2 * t + 2) 1) as H1. nra.
  - intros s t Hs Hst Ht.
    destruct (Rlt_dec s (1 / 2)), (Rlt_dec t (1 / 2)).
    + pose proof (cube_le s t Hs Hst). lra.
    + pose proof (cube_le s (1 / 2)) as H0. pose proof (cube_le (-2 * t + 2) 1) as H1. nra.
    + lra.
    + pose proof (cube_le (-2 * t + 2) (-2 * s + 2)) as H0. nra.
Qed.

Lemma easeOutCubic_ok : easing_ok easeOutCubic.
Proof.
  unfold easing_ok, easing_in_unit, easeOutCubic. cbn [pow].
  split; [ring | split; [ring | split]].
  - intros t Ht. pose proof (cube_le 0 (1 - t)) as H0. pose proof (cube_le (1 - t) 1) as H1. nra.
  - intros s t Hs Hst Ht. pose proof (cube_le (1 - t) (1 - s)) as H0. nra.
Qed.

Lemma linear_ok : easing_ok linear.
Proof. unfold easing_ok, easing_in_unit, linear. repeat split; intros; lra. Qed.

(** X10: the three curves of [EASING] start at [0], end at [1], stay in
    [[0, 1]] and never go back on [[0, 1]]; in particular each one is an
    easing into [[0, 1]], as the fly-to frames require of theirs. *)
Theorem easings_ok :
  easing_ok easeInOutCubic /\ easing_ok easeOutCubic /\ easing_ok linear /\
  easing_in_unit easeInOutCubic /\ easing_in_unit easeOutCubic /\ easing_in_unit linear.
Proof.
  pose proof easeInOutCubic_ok as H1. pose proof easeOutCubic_ok as H2. pose proof linear_ok as H3.
  unfold easing_ok in *. tauto.
Qed.

Lemma EARTH_CIRCUMFERENCE_pos : 0 < EARTH_CIRCUMFERENCE.
Proof.
  unfold EARTH_CIRCUMFERENCE. pose proof PI_RGT_0. pose proof EARTH_RADIUS_pos.
  apply Rmult_lt_0_compat; [lra | assumption].
Qed.

(** X11: [GISUtils.getResolution] halves from one zoom level to the next, is
    the same north and south of the equator, is positive away from the
    poles, and is the ground length along the parallel of one pixel's worth
    of longitude in the projection ([1 / TILE_SIZE] of a tile). *)
Theorem getResolution_props (la z : R) :
  getResolution la (z + 1) = getResolution la z / 2 /\
  getResolution (- la) z = getResolution la z /\
  (Rabs la < 90 -> 0 < getResolution la z) /\
  (forall x y, (lon (tileToLatLng (x + 1 / TILE_SIZE) y z) - lon (tileToLatLng x y z)) *
               (EARTH_CIRCUMFERENCE * cos (toRadians la) / 360) = getResolution la z).
Proof.
  pose proof (pow2_pos z) as Hs. unfold getResolution.
  split; [| split; [| split]].
  - unfold pow2 at 1. rewrite Rpower_plus, Rpower_1 by lra. fold (pow2 z).
    unfold TILE_SIZE. field. lra.
  - unfold toRadians. replace (- la * PI / 180) with (- (la * PI / 180)) by field.
    rewrite cos_neg. reflexivity.
  - intros Hla. apply Rabs_def2 in Hla. pose proof PI_RGT_0 as Hpi.
    assert (Hc : 0 < cos (toRadians la)).
    { unfold toRadians. apply cos_gt_0; nra. }
    pose proof EARTH_CIRCUMFERENCE_pos. unfold TILE_SIZE.
    apply Rdiv_lt_0_compat; [nra | lra].
  - intros x y. rewrite !tileToLatLng_lon. unfold TILE_SIZE. field. lra.
Qed.

(** X12: [GISUtils.toRadians] and [GISUtils.toDegrees] are inverse to each
    other, and agree with the [DEG2RAD] and [RAD2DEG] factors of the
    projection. *)
Theorem toRadians_toDegrees (d r : R) :
  toDegrees (toRadians d) = d /\ toRadians (toDegrees r) = r /\
  toRadians d = d * DEG2RAD /\ toDegrees r = r * RAD2DEG.
Proof.
  pose proof PI_neq0'. unfold toDegrees, toRadians, DEG2RAD, RAD2DEG.
  repeat split; field; assumption.
Qed.


(** ** Lemmas on association-list maps *)

Lemma map_get_cons {A} (k a : string) (b : A) (c : list (string * A)) :
  map_get k ((a, b) :: c) = if String.eqb a k then Some b else map_get k c.
Proof. unfold map_get. simpl. destruct (String.eqb a k); reflexivity. Qed.

Lemma map_has_cons {A} (k a : string) (b : A) (c : list (string * A)) :
  map_has k ((a, b) :: c) = (String.eqb a k || map_has k c)%bool.
Proof. reflexivity. Qed.

Lemma map_get_repl {A} (k k' : string) (v : A) (c : list (string * A)) :
  map_get k' (map (fun e => if String.eqb (fst e) k then (k, v) else e) c) =
  if (String.eqb k k' && map_has k c)%bool then Some v else map_get k' c.
Proof.
  induction c as [| [a b] c IH]; [simpl; destruct (String.eqb k k'); reflexivity |].
  simpl map. rewrite map_has_cons, (map_get_cons k' a b c).
  destruct (String.eqb_spec a k) as [Eak | Eak]; simpl fst.
  - subst a. rewrite map_get_cons. destruct (String.eqb_spec k k'); simpl; [reflexivity |].
    rewrite IH. reflexivity.
  - rewrite map_get_cons. simpl orb.
    destruct (String.eqb_spec a k') as [Eak' | Eak'].
    + subst a. assert (E : String.eqb k k' = false) by (apply String.eqb_neq; congruence).
      rewrite E. reflexivity.
    + exact IH.
Qed.

Lemma map_get_snoc {A} (k k' : string) (v : A) (c : list (string * A)) :
  map_get k' (c ++ [(k, v)]) =
  match map_get k' c with Some x => Some x | None => if String.eqb k k' then Some v else None end.
Proof.
  induction c as [| [a b] c IH].
  - simpl. rewrite map_get_cons. reflexivity.
  - simpl app. rewrite !map_get_cons, IH. destruct (String.eqb a k'); reflexivity.
Qed.

Lemma map_get_none_has {A} (k : string) (c : list (string * A)) :
  map_has k c = false -> map_get k c = None.
Proof.
  induction c as [| [a b] c IH]; [reflexivity |].
  rewrite map_has_cons, map_get_cons. intros H. apply orb_false_iff in H as [H1 H2].
  rewrite H1. apply IH, H2.
Qed.

Lemma map_get_set_same {A} (k : string) (v : A) (c : list (string * A)) :
  map_get k (map_set k v c) = Some v.
Proof.
  unfold map_set. destruct (map_has k c) eqn:Hh.
  - rewrite map_get_repl, String.eqb_refl, Hh. reflexivity.
  - rewrite map_get_snoc, map_get_none_has by exact Hh. rewrite String.eqb_refl. reflexivity.
Qed.

Lemma map_get_set_other {A} (k k' : string) (v : A) (c : list (string * A)) :
  k' <> k -> map_get k' (map_set k v c) = map_get k' c.
Proof.
  intros Hne. assert (E : String.eqb k k' = false) by (apply String.eqb_neq; congruence).
  unfold map_set. destruct (map_has k c).
  - rewrite map_get_repl, E. reflexivity.
  - rewrite map_get_snoc, E. destruct (map_get k' c); reflexivity.
Qed.

(** ** Extra: input handlers *)

Lemma alt_calls_step_add (n : nat) :
  Nat.odd n = false -> alt_calls n ++ [AddEvents] = alt_calls (S n).
Proof.
  intros H. simpl. rewrite <- Nat.negb_even in H.
  destruct (Nat.even n); [reflexivity | discriminate].
Qed.

Lemma alt_calls_step_remove (n : nat) :
  Nat.odd n = true -> alt_calls n ++ [RemoveEvents] = alt_calls (S n).
Proof.
  intros H. simpl. rewrite <- Nat.negb_even in H.
  destruct (Nat.even n); [discriminate | reflexivity].
Qed.

Lemma h_apply_alt (h : handler) (op : handler_op) (n : nat) :
  h_calls h = alt_calls n -> h_enabled h = Nat.odd n ->
  exists n', h_calls (h_apply h op) = alt_calls n' /\ h_enabled (h_apply h op) = Nat.odd n'.
Proof.
  intros Hc He.
  assert (Hen : exists n', h_calls (h_enable h) = alt_calls n' /\ h_enabled (h_enable h) = Nat.odd n').
  { unfold h_enable. destruct (h_enabled h) eqn:E.
    - exists n. split; congruence.
    - exists (S n). cbn [h_calls h_enabled]. rewrite Hc, alt_calls_step_add by congruence.
      rewrite Nat.odd_succ, <- Nat.negb_odd, <- He. split; reflexivity. }
  assert (Hdis : exists n', h_calls (h_disable h) = alt_calls n' /\ h_enabled (h_disable h) = Nat.odd n').
  { unfold h_disable. destruct (h_enabled h) eqn:E; cbn [negb].
    - exists (S n). cbn [h_calls h_enabled]. rewrite Hc, alt_calls_step_remove by congruence.
      rewrite Nat.odd_succ, <- Nat.negb_odd, <- He. split; reflexivity.
    - exists n. split; congruence. }
  destruct op; simpl.
  - exact Hen.
  - exact Hdis.
  - unfold h_toggle. destruct (h_enabled h); assumption.
  - unfold h_destroy. simpl. exact Hdis.
Qed.

Lemma h_run_alt (ops : list handler_op) : forall (h : handler) (n : nat),
  h_calls h = alt_calls n -> h_enabled h = Nat.odd n ->
  exists n', h_calls (h_run h ops) = alt_calls n' /\ h_enabled (h_run h ops) = Nat.odd n'.
Proof.
  induction ops as [| op ops IH]; intros h n Hc He.
  - exists n. split; assumption.
  - unfold h_run. simpl. destruct (h_apply_alt h op n Hc He) as [n' [Hc' He']].
    apply (IH _ n' Hc' He').
Qed.

(** X13: whatever sequence of [enable], [disable], [toggle] and [destroy]
    a new handler receives, its calls to [_addEvents] and [_removeEvents]
    strictly alternate, starting with [_addEvents], and it is enabled
    exactly when it made one more [_addEvents] call than [_removeEvents]
    calls; a final [destroy] leaves it disabled with no listeners. *)
Theorem handler_hooks_alternate (ops : list handler_op) :
  (exists n, h_calls (h_run new_handler ops) = alt_calls n /\
             h_enabled (h_run new_handler ops) = Nat.odd n) /\
  h_enabled (h_run new_handler (ops ++ [HDestroy])) = false /\
  h_eventListeners (h_run new_handler (ops ++ [HDestroy])) = 0%nat.
Proof.
  split.
  - apply (h_run_alt ops new_handler 0); reflexivity.
  - unfold h_run. rewrite fold_left_app. simpl. unfold h_destroy, h_disable. simpl.
    destruct (h_enabled (fold_left h_apply ops new_handler)) eqn:E; simpl; rewrite ?E;
      split; reflexivity.
Qed.


(** ** Extra: drag velocity *)

Definition sample_le (a b : sample) : Prop := s_t a <= s_t b.

Lemma sample_le_trans : Relations_1.Transitive sample_le.
Proof. unfold Relations_1.Transitive, sample_le. intros; lra. Qed.

Lemma SSorted_app_r {A} (Rel : A -> A -> Prop) (l1 l2 : list A) :
  StronglySorted Rel (l1 ++ l2) -> StronglySorted Rel l2.
Proof.
  induction l1 as [| a l1 IH]; intros H; [exact H |].
  apply StronglySorted_inv in H as [H _]. apply IH, H.
Qed.

Lemma SSorted_snoc {A} (Rel : A -> A -> Prop) (l : list A) (x : A) :
  StronglySorted Rel l -> (forall y, In y l -> Rel y x) -> StronglySorted Rel (l ++ [x]).
Proof.
  induction l as [| a l IH]; intros H Hx.
  - simpl. constructor; [constructor | constructor].
  - apply StronglySorted_inv in H as [H Ha]. simpl. constructor.
    + apply IH; [exact H | intros y Hy; apply Hx; right; exact Hy].
    + apply Forall_app. split; [exact Ha |]. constructor; [apply Hx; left; reflexivity | constructor].
Qed.

Lemma drop_old_suffix (c : R) (l : list sample) : exists pre, l = pre ++ drop_old c l.
Proof.
  induction l as [| s l IH]; [exists []; reflexivity |].
  simpl. destruct (Rlt_dec (s_t s) c).
  - destruct IH as [pre Hp]. exists (s :: pre). simpl. f_equal. exact Hp.
  - exists []. reflexivity.
Qed.

Lemma drop_old_head (c : R) (l : list sample) :
  match drop_old c l with [] => True | s :: _ => c <= s_t s end.
Proof.
  induction l as [| s l IH]; [exact I |].
  simpl. destruct (Rlt_dec (s_t s) c) as [_ | Hn]; [exact IH |]. lra.
Qed.

Lemma drop_old_snoc (c : R) (l : list sample) (e : sample) :
  c <= s_t e -> exists l2, drop_old c (l ++ [e]) = l2 ++ [e].
Proof.
  intros He. induction l as [| s l IH].
  - simpl. destruct (Rlt_dec (s_t e) c); [lra |]. exists []. reflexivity.
  - simpl. destruct (Rlt_dec (s_t s) c); [exact IH |]. exists (s :: l). reflexivity.
Qed.

(** X14: when the samples are in time order and none is later than [t],
    [_pushVelocitySample] keeps a suffix of the samples followed by the new
    one, still in time order, and every kept sample lies in the window
    [[t - VELOCITY_WINDOW_MS, t]]. *)
Theorem pushVelocitySample_window (samples : list sample) (t x y : R) :
  Sorted sample_le samples ->
  (forall s, In s samples -> s_t s <= t) ->
  let l := pushVelocitySample samples t x y in
  (exists pre, samples ++ [mkSample t x y] = pre ++ l) /\
  last l dummy_sample = mkSample t x y /\
  Sorted sample_le l /\
  (forall s, In s l -> t - VELOCITY_WINDOW_MS <= s_t s <= t).
Proof.
  intros Hs Ht l.
  assert (Hall : StronglySorted sample_le (samples ++ [mkSample t x y])).
  { apply SSorted_snoc; [apply Sorted_StronglySorted; [exact sample_le_trans | exact Hs] |].
    intros s Hin. unfold sample_le. simpl. apply Ht, Hin. }
  destruct (drop_old_suffix (t - VELOCITY_WINDOW_MS) (samples ++ [mkSample t x y])) as [pre Hpre].
  assert (Hl : StronglySorted sample_le l).
  { unfold l, pushVelocitySample. rewrite Hpre in Hall. apply SSorted_app_r in Hall. exact Hall. }
  split; [exists pre; exact Hpre |].
  split.
  { unfold l, pushVelocitySample.
    destruct (drop_old_snoc (t - VELOCITY_WINDOW_MS) samples (mkSample t x y)) as [l2 Hl2].
    - simpl. unfold VELOCITY_WINDOW_MS. lra.
    - rewrite Hl2. apply last_last. }
  split; [apply StronglySorted_Sorted, Hl |].
  intros s Hin. split.
  - pose proof (drop_old_head (t - VELOCITY_WINDOW_MS) (samples ++ [mkSample t x y])) as Hh.
    fold (pushVelocitySample samples t x y) in Hh. fold l in Hh.
    destruct l as [| s0 rest] eqn:El; [destruct Hin |].
    destruct Hin as [<- | Hin]; [exact Hh |].
    apply StronglySorted_inv in Hl as [_ Hf]. rewrite Forall_forall in Hf.
    specialize (Hf s Hin). unfold sample_le in Hf. lra.
  - assert (Hin' : In s (samples ++ [mkSample t x y])).
    { rewrite Hpre. apply in_or_app. right. exact Hin. }
    apply in_app_or in Hin' as [Hin' | [<- | []]]; [apply Ht, Hin' | simpl; lra].
Qed.

Lemma vel_ref_index_le (samples : list sample) (lastT : R) (i : nat) :
  (vel_ref_index samples lastT i <= i)%nat.
Proof.
  induction i as [| i IH]; simpl; [lia |].
  destruct (Rlt_dec _ _); lia.
Qed.

Lemma hypot_div_le (dx dy dt : R) : 1 <= dt -> hypot (dx / dt) (dy / dt) <= hypot dx dy.
Proof.
  intros Hdt. unfold Rdiv. rewrite hypot_scale by (left; apply Rinv_0_lt_compat; lra).
  pose proof (hypot_nonneg dx dy).
  assert (/ dt <= 1) by (rewrite <- Rinv_1; apply Rinv_le_contravar; lra).
  assert (0 < / dt) by (apply Rinv_0_lt_compat; lra).
  nra.
Qed.

(** X15: [_endDrag] starts the inertia only when the drag left at least
    two samples and the newest one is at least [INERTIA_STOP_SPEED] pixels
    away from an earlier one; in particular a drag whose pointer never moved
    starts no inertia. *)
Theorem endDrag_inertia_needs_motion (samples : list sample) (now : R) :
  (endDrag_inertia samples now <> None ->
   (2 <= List.length samples)%nat /\
   exists i, (i < List.length samples - 1)%nat /\
     INERTIA_STOP_SPEED <=
       hypot (s_x (nth (List.length samples - 1) samples dummy_sample) - s_x (nth i samples dummy_sample))
             (s_y (nth (List.length samples - 1) samples dummy_sample) - s_y (nth i samples dummy_sample))) /\
  (forall x0 y0, (forall s, In s samples -> s_x s = x0 /\ s_y s = y0) ->
   endDrag_inertia samples now = None).
Proof.
  assert (Hmain : endDrag_inertia samples now <> None ->
   (2 <= List.length samples)%nat /\
   exists i, (i < List.length samples - 1)%nat /\
     INERTIA_STOP_SPEED <=
       hypot (s_x (nth (List.length samples - 1) samples dummy_sample) - s_x (nth i samples dummy_sample))
             (s_y (nth (List.length samples - 1) samples dummy_sample) - s_y (nth i samples dummy_sample))).
  { unfold endDrag_inertia, computeVelocity, inertia_start.
    destruct (Nat.ltb_spec (List.length samples) 2) as [Hlt | Hge].
    - simpl fst; simpl snd. destruct (Rlt_dec (hypot 0 0) INERTIA_STOP_SPEED) as [_ | Hn].
      + intros H; exfalso; apply H; reflexivity.
      + exfalso. apply Hn. unfold hypot. replace (0 * 0 + 0 * 0) with 0 by ring.
        rewrite sqrt_0. unfold INERTIA_STOP_SPEED. lra.
    - simpl fst; simpl snd.
      set (n := List.length samples) in *.
      set (last := nth (n - 1) samples dummy_sample).
      set (i := vel_ref_index samples (s_t last) (n - 2)).
      set (ref := nth i samples dummy_sample).
      set (dt := js_max 1 (s_t last - s_t ref)).
      destruct (Rlt_dec (hypot ((s_x last - s_x ref) / dt) ((s_y last - s_y ref) / dt)) INERTIA_STOP_SPEED)
        as [_ | Hn].
      + intros H; exfalso; apply H; reflexivity.
      + intros _. split; [exact Hge |]. exists i. split.
        * pose proof (vel_ref_index_le samples (s_t last) (n - 2)). fold i in H. lia.
        * assert (Hdt : 1 <= dt) by (unfold dt, js_max; apply Rmax_l).
          pose proof (hypot_div_le (s_x last - s_x ref) (s_y last - s_y ref) dt Hdt).
          apply Rnot_lt_le in Hn. fold ref. lra. }
  split; [exact Hmain |].
  intros x0 y0 Hc. destruct (endDrag_inertia samples now) as [st |] eqn:E; [| reflexivity].
  exfalso. destruct Hmain as [H2 [i [Hi Hh]]]; [discriminate |].
  destruct (Hc (nth (List.length samples - 1) samples dummy_sample)) as [Hx1 Hy1];
    [apply nth_In; lia |].
  destruct (Hc (nth i samples dummy_sample)) as [Hx2 Hy2]; [apply nth_In; lia |].
  rewrite Hx1, Hy1, Hx2, Hy2 in Hh. unfold hypot in Hh.
  replace ((x0 - x0) * (x0 - x0) + (y0 - y0) * (y0 - y0)) with 0 in Hh by ring.
  rewrite sqrt_0 in Hh. unfold INERTIA_STOP_SPEED in Hh. lra.
Qed.


(** ** Extra: the layer list *)

Lemma existsb_eqb_In (l : nat) (xs : list nat) : existsb (Nat.eqb l) xs = true <-> In l xs.
Proof.
  rewrite existsb_exists. split.
  - intros [x [Hx E]]. apply Nat.eqb_eq in E. subst. exact Hx.
  - intros H. exists l. split; [exact H | apply Nat.eqb_refl].
Qed.

Lemma existsb_eqb_notIn (l : nat) (xs : list nat) : existsb (Nat.eqb l) xs = false <-> ~ In l xs.
Proof.
  rewrite <- existsb_eqb_In. destruct (existsb (Nat.eqb l) xs); split; congruence.
Qed.

Lemma remove_first_incl (l x : nat) (xs : list nat) : In x (remove_first l xs) -> In x xs.
Proof.
  induction xs as [| a xs IH]; simpl; [tauto |].
  destruct (Nat.eqb a l); [tauto |]. simpl. tauto.
Qed.

Lemma remove_first_other (l x : nat) (xs : list nat) :
  x <> l -> In x xs -> In x (remove_first l xs).
Proof.
  intros Hne. induction xs as [| a xs IH]; simpl; [tauto |].
  destruct (Nat.eqb_spec a l) as [E | E].
  - subst. intros [H | H]; [congruence | exact H].
  - simpl. tauto.
Qed.

Lemma remove_first_NoDup (l : nat) (xs : list nat) : NoDup xs -> NoDup (remove_first l xs).
Proof.
  induction xs as [| a xs IH]; intros H; simpl; [constructor |].
  apply NoDup_cons_iff in H as [Ha H].
  destruct (Nat.eqb a l); [exact H |].
  constructor; [| apply IH, H]. intros Hi. apply Ha. apply remove_first_incl in Hi. exact Hi.
Qed.

Lemma remove_first_snoc (l : nat) (xs : list nat) : ~ In l xs -> remove_first l (xs ++ [l]) = xs.
Proof.
  induction xs as [| a xs IH]; intros H; simpl.
  - rewrite Nat.eqb_refl. reflexivity.
  - destruct (Nat.eqb_spec a l) as [E | E].
    + exfalso. apply H. left. exact E.
    + f_equal. apply IH. intros Hi. apply H. right. exact Hi.
Qed.

Lemma NoDup_snoc (l : nat) (xs : list nat) : NoDup xs -> ~ In l xs -> NoDup (xs ++ [l]).
Proof.
  intros Hn Hi. apply (Permutation_NoDup (Permutation_cons_append xs l)).
  constructor; assumption.
Qed.

Lemma addLayer_ok (l : nat) (s : layer_state) : layers_ok s -> layers_ok (addLayer l s).
Proof.
  intros [Hn Hb]. unfold addLayer. destruct (existsb (Nat.eqb l) (ls_layers s)) eqn:E.
  - split; assumption.
  - apply existsb_eqb_notIn in E. split; simpl.
    + apply NoDup_snoc; assumption.
    + intros b Hsb. apply in_or_app. destruct (ls_base s) as [b0 |].
      * left. apply Hb. congruence.
      * right. left. congruence.
Qed.

Lemma removeLayer_ok (is_tile : nat -> bool) (l : nat) (s : layer_state) :
  layers_ok s -> layers_ok (removeLayer is_tile l s).
Proof.
  intros [Hn Hb]. unfold removeLayer. destruct (existsb (Nat.eqb l) (ls_layers s)); [| split; assumption].
  split; simpl; [apply remove_first_NoDup, Hn |].
  intros b Hsb. destruct (ls_base s) as [b0 |] eqn:Eb; [| discriminate].
  destruct (Nat.eqb_spec b0 l) as [E | E].
  - apply find_some in Hsb as [Hsb _]. exact Hsb.
  - injection Hsb as <-. apply remove_first_other; [exact E | apply Hb; reflexivity].
Qed.

Lemma setBaseLayer_ok (is_tile : nat -> bool) (bounds : nat -> zoom_bounds) (nl : nat)
    (s s' : layer_state) :
  layers_ok s -> setBaseLayer is_tile bounds nl s = Some s' -> layers_ok s'.
Proof.
  intros Hok. unfold setBaseLayer. destruct (negb (is_tile nl)); [discriminate |].
  set (s1 := match ls_base s with
             | Some b => if negb (Nat.eqb b nl) then removeLayer is_tile b s else s
             | None => s end).
  assert (Hok1 : layers_ok s1).
  { unfold s1. destruct (ls_base s); [destruct (negb _); [apply removeLayer_ok |] |]; exact Hok. }
  destruct (negb (existsb (Nat.eqb nl) (ls_layers s1))) eqn:E; intros H; injection H as <-.
  - apply addLayer_ok, Hok1.
  - destruct Hok1 as [Hn _]. split; [exact Hn |]. simpl. intros b Hb. injection Hb as <-.
    apply existsb_eqb_In. destruct (existsb (Nat.eqb nl) (ls_layers s1)); [reflexivity | discriminate].
Qed.

(** X16: whatever sequence of [addLayer], [removeLayer] and
    [setBaseLayer] calls the map receives (a throwing call changing
    nothing), its layer list keeps no layer twice and its base layer, when
    set, is in the list. *)
Theorem layers_invariant (is_tile : nat -> bool) (bounds : nat -> zoom_bounds)
    (ops : list layer_op) (s : layer_state) :
  layers_ok s -> layers_ok (layer_run is_tile bounds s ops).
Proof.
  revert s. induction ops as [| op ops IH]; intros s Hok; [exact Hok |].
  unfold layer_run. simpl. apply IH. destruct op as [l | l | l]; simpl.
  - apply addLayer_ok, Hok.
  - apply removeLayer_ok, Hok.
  - destruct (setBaseLayer is_tile bounds l s) eqn:E; [| exact Hok].
    apply (setBaseLayer_ok is_tile bounds l s); assumption.
Qed.

(** X17: [setBaseLayer(newLayer)] throws for a layer that is not a tile
    layer. Otherwise it removes the old base layer. A layer already on the
    map becomes the base and the zoom is clamped to its bounds. A layer not
    yet on the map is appended with the zoom unchanged, and it becomes the
    base only if there was no base or no other tile layer remains. *)
Theorem setBaseLayer_effect (is_tile : nat -> bool) (bounds : nat -> zoom_bounds)
    (s : layer_state) (nl : nat) :
  layers_ok s ->
  (is_tile nl = false -> setBaseLayer is_tile bounds nl s = None) /\
  (is_tile nl = true ->
   let rest := match ls_base s with
               | Some b => if Nat.eqb b nl then ls_layers s else remove_first b (ls_layers s)
               | None => ls_layers s
               end in
   (In nl (ls_layers s) ->
    setBaseLayer is_tile bounds nl s =
      Some (mkLayerState rest (Some nl)
              (js_max (minZoom (bounds nl)) (js_min (maxZoom (bounds nl)) (ls_zoom s))))) /\
   (~ In nl (ls_layers s) ->
    exists s', setBaseLayer is_tile bounds nl s = Some s' /\
      ls_layers s' = rest ++ [nl] /\ ls_zoom s' = ls_zoom s /\
      (ls_base s' = Some nl <-> (ls_base s = None \/ forall t, In t rest -> is_tile t = false)))).
Proof.
  intros [Hn Hb]. split.
  { intros Ht. unfold setBaseLayer. rewrite Ht. reflexivity. }
  intros Ht rest. unfold setBaseLayer. rewrite Ht. cbv beta iota zeta. simpl negb.
  destruct (ls_base s) as [b |] eqn:Eb.
  - assert (Hbin : In b (ls_layers s)) by (apply Hb; reflexivity).
    destruct (Nat.eqb_spec b nl) as [E | E].
    + subst b. simpl negb. split.
      * intros Hin. apply existsb_eqb_In in Hin. rewrite Hin. simpl. reflexivity.
      * intros Hnin. exfalso. exact (Hnin Hbin).
    + simpl negb. unfold removeLayer.
      assert (Hb1 : existsb (Nat.eqb b) (ls_layers s) = true) by (apply existsb_eqb_In, Hbin).
      rewrite Hb1. cbn [ls_layers ls_base ls_zoom]. rewrite Eb, Nat.eqb_refl. split.
      * intros Hin. assert (Hr : existsb (Nat.eqb nl) (remove_first b (ls_layers s)) = true).
        { apply existsb_eqb_In, remove_first_other; [congruence | exact Hin]. }
        rewrite Hr. reflexivity.
      * intros Hnin. assert (Hr : existsb (Nat.eqb nl) (remove_first b (ls_layers s)) = false).
        { apply existsb_eqb_notIn. intros Hi. apply Hnin. apply remove_first_incl in Hi. exact Hi. }
        rewrite Hr. simpl negb. unfold addLayer. cbn [ls_layers ls_base ls_zoom]. rewrite Hr.
        eexists. split; [reflexivity |]. cbn [ls_layers ls_base ls_zoom].
        split; [reflexivity | split; [reflexivity |]].
        destruct (find is_tile (remove_first b (ls_layers s))) as [t |] eqn:Ef.
        -- apply find_some in Ef as [Hti Htt]. split.
           ++ intros Heq. injection Heq as <-. exfalso. apply Hnin.
              apply remove_first_incl in Hti. exact Hti.
           ++ intros [Hc | Hc]; [discriminate |]. rewrite (Hc t Hti) in Htt. discriminate.
        -- split; [intros _; right; intros t Hti; apply (find_none _ _ Ef t Hti) | reflexivity].
  - split.
    + intros Hin. apply existsb_eqb_In in Hin. rewrite Hin. reflexivity.
    + intros Hnin. apply existsb_eqb_notIn in Hnin as Hr. rewrite Hr. simpl negb.
      unfold addLayer. rewrite Hr. eexists. split; [reflexivity |].
      cbn [ls_layers ls_base ls_zoom]. rewrite Eb. split; [reflexivity | split; [reflexivity |]].
      split; [intros _; left; reflexivity | reflexivity].
Qed.



(** ** Extra: tile timeouts, failed tiles and preloading *)

Lemma map_has_get {A} (k : string) (c : list (string * A)) :
  map_has k c = match map_get k c with Some _ => true | None => false end.
Proof.
  induction c as [| [a b] c IH]; [reflexivity |].
  rewrite map_has_cons, map_get_cons. destruct (String.eqb a k); [reflexivity | exact IH].
Qed.

Lemma map_has_set_mono {A} (k k' : string) (v : A) (c : list (string * A)) :
  map_has k' c = true -> map_has k' (map_set k v c) = true.
Proof.
  rewrite !map_has_get. destruct (String.eqb_spec k' k) as [E | E].
  - subst. rewrite map_get_set_same. reflexivity.
  - rewrite map_get_set_other by exact E. exact (fun H => H).
Qed.

Lemma set_has_add_same (k : string) (s : list string) : set_has k (set_add k s) = true.
Proof.
  unfold set_add. destruct (set_has k s) eqn:E; [exact E |].
  unfold set_has. rewrite existsb_app. simpl. rewrite String.eqb_refl, orb_true_r. reflexivity.
Qed.

Lemma set_has_add_mono (k k' : string) (s : list string) :
  set_has k' s = true -> set_has k' (set_add k s) = true.
Proof.
  intros H. unfold set_add. destruct (set_has k s); [exact H |].
  unfold set_has in *. rewrite existsb_app, H. reflexivity.
Qed.

Lemma map_delete_absent {A} (k : string) (c : list (string * A)) :
  map_has k c = false -> map_delete k c = c.
Proof.
  induction c as [| [a b] c IH]; [reflexivity |].
  rewrite map_has_cons. intros H. apply orb_false_iff in H as [H1 H2].
  unfold map_delete in *. simpl. rewrite H1. simpl. f_equal. apply IH, H2.
Qed.

Lemma set_delete_absent (k : string) (s : list string) :
  set_has k s = false -> set_delete k s = s.
Proof.
  induction s as [| a s IH]; [reflexivity |].
  unfold set_has. simpl. intros H. apply orb_false_iff in H as [H1 H2].
  unfold set_delete in *. simpl. rewrite String.eqb_sym, H1. simpl. f_equal. apply IH, H2.
Qed.

Lemma map_delete_set_new {A} (k : string) (v : A) (c : list (string * A)) :
  map_has k c = false -> map_delete k (map_set k v c) = c.
Proof.
  intros H. unfold map_set. rewrite H. unfold map_delete. rewrite filter_app. simpl.
  rewrite String.eqb_refl. simpl. rewrite app_nil_r. apply map_delete_absent, H.
Qed.

Lemma set_delete_add_new (k : string) (s : list string) :
  set_has k s = false -> set_delete k (set_add k s) = s.
Proof.
  intros H. unfold set_add. rewrite H. unfold set_delete. rewrite filter_app. simpl.
  rewrite String.eqb_refl. simpl. rewrite app_nil_r. apply set_delete_absent, H.
Qed.

(** X19: when a new tile's load times out before any answer, the layer's
    cache, [loadingTiles] and [loadingControllers] are as before the
    request; the only traces are the one image request and one [tileerror]
    event, the promise is rejected and the load is aborted. The next
    [render] requests the tile again. *)
Theorem tile_timeout_roundtrip (L : tile_layer) (key url : string) (now now' : Z) :
  map_get key (tileCache L) = None ->
  set_has key (loadingTiles L) = false ->
  set_has key (loadingControllers L) = false ->
  match loadTile L key url now with
  | (L1, Started _ j) =>
      let '(L2, j2) := tile_timeout L1 j in
      tileCache L2 = tileCache L /\ loadingTiles L2 = loadingTiles L /\
      loadingControllers L2 = loadingControllers L /\
      requests L2 = requests L ++ [(key, url)] /\
      events L2 = events L ++ [TileErrorEv key url] /\
      lj_result j2 = PRejected /\ lj_aborted j2 = true /\
      requests (render_tile L2 key url now') = requests L2 ++ [(key, url)]
  | _ => False
  end.
Proof.
  intros Hc Hl Hk. assert (Hh : map_has key (tileCache L) = false) by (rewrite map_has_get, Hc; reflexivity).
  unfold loadTile. rewrite Hc. unfold tile_timeout. cbn [lj_timer lj_key lj_url lj_src lj_result loadingTiles].
  rewrite set_has_add_same. simpl andb. cbv iota.
  cbn [tileCache loadingTiles loadingControllers requests events lj_result lj_aborted].
  rewrite map_delete_set_new, !set_delete_add_new by assumption.
  split; [reflexivity | split; [reflexivity | split; [reflexivity |]]].
  split; [reflexivity | split; [reflexivity | split; [reflexivity | split; [reflexivity |]]]].
  unfold render_tile. cbn [tileCache]. rewrite Hc. unfold loadTile. cbn [tileCache]. rewrite Hc.
  reflexivity.
Qed.


Lemma preload_run_spec (tiles : list (string * string)) (now : Z) : forall (L : tile_layer),
  exists new, requests (preload_run L tiles now) = requests L ++ new /\
    NoDup (map fst new) /\
    (forall k, In k (map fst new) ->
       map_has k (tileCache L) = false /\ set_has k (loadingTiles L) = false) /\
    incl new tiles.
Proof.
  induction tiles as [| [k u] rest IH]; intros L.
  - exists []. split; [symmetry; apply app_nil_r |]. split; [constructor |].
    split; [intros k []| intros x []].
  - unfold preload_run. simpl. fold (preload_run (preload_tile L k u now) rest now).
    unfold preload_tile.
    destruct (map_has k (tileCache L)) eqn:Ec; destruct (set_has k (loadingTiles L)) eqn:El; simpl.
    1-3: destruct (IH L) as [new [Hr [Hn [Hk Hi]]]]; exists new;
         split; [exact Hr | split; [exact Hn | split; [exact Hk |]]];
         intros x Hx; right; apply Hi, Hx.
    assert (Hg : map_get k (tileCache L) = None).
    { rewrite map_has_get in Ec. destruct (map_get k (tileCache L)); [discriminate | reflexivity]. }
    unfold loadTile. rewrite Hg. simpl fst.
    set (L1 := mkTileLayer _ _ _ _ _ _ _ _ _).
    destruct (IH L1) as [new [Hr [Hn [Hk Hi]]]].
    exists ((k, u) :: new). split; [| split; [| split]].
    + rewrite Hr. simpl. rewrite <- app_assoc. reflexivity.
    + simpl. constructor; [| exact Hn].
      intros Hin. destruct (Hk k Hin) as [_ Hl]. simpl in Hl.
      rewrite set_has_add_same in Hl. discriminate.
    + intros k' [<- | Hin]; [split; assumption |].
      destruct (Hk k' Hin) as [Hc' Hl']. simpl in Hc', Hl'. split.
      * destruct (map_has k' (tileCache L)) eqn:E; [| reflexivity].
        rewrite (map_has_set_mono k k' _ _ E) in Hc'. discriminate.
      * destruct (set_has k' (loadingTiles L)) eqn:E; [| reflexivity].
        rewrite (set_has_add_mono k k' _ E) in Hl'. discriminate.
    + intros x [<- | Hx]; [left; reflexivity | right; apply Hi, Hx].
Qed.

(** X21: one pass of the preload loop requests each tile key at most once,
    even when the key recurs, and only keys that were neither cached nor
    loading when the pass began; every request is one of the pass's
    (key, url) pairs. *)
Theorem preload_requests_once (L : tile_layer) (tiles : list (string * string)) (now : Z) :
  exists new, requests (preload_run L tiles now) = requests L ++ new /\
    NoDup (map fst new) /\
    (forall k, In k (map fst new) ->
       map_has k (tileCache L) = false /\ set_has k (loadingTiles L) = false) /\
    incl new tiles.
Proof. apply preload_run_spec. Qed.


(** ** Extra: hit testing *)

(** The edges [(ring[i], ring[j])] visited by the loop of [_pointInRing]. *)
Fixpoint ring_edges (prev : point) (ring : list point) : list (point * point) :=
  match ring with
  | [] => []
  | p :: rest => (p, prev) :: ring_edges p rest
  end.

Definition crossings_parity (x y : R) (es : list (point * point)) : bool :=
  fold_right (fun e acc => xorb (edge_crosses x y (fst e) (snd e)) acc) false es.

Lemma ring_loop_parity (x y : R) (ring : list point) : forall (prev : point) (b : bool),
  ring_loop x y prev ring b = xorb b (crossings_parity x y (ring_edges prev ring)).
Proof.
  induction ring as [| p rest IH]; intros prev b; simpl.
  - destruct b; reflexivity.
  - rewrite IH. destruct (edge_crosses x y p prev), b; simpl;
      destruct (crossings_parity x y (ring_edges p rest)); reflexivity.
Qed.

Lemma crossings_parity_perm (x y : R) (es es' : list (point * point)) :
  Permutation es es' -> crossings_parity x y es = crossings_parity x y es'.
Proof.
  intros H. induction H; simpl; try congruence.
  destruct (edge_crosses x y (fst x0) (snd x0)), (edge_crosses x y (fst y0) (snd y0)); simpl;
    destruct (crossings_parity x y l); reflexivity.
Qed.

Lemma last_default_irrel {A} (l : list A) (d d' : A) : l <> [] -> last l d = last l d'.
Proof.
  induction l as [| a l IH]; intros H; [congruence |].
  destruct l as [| b l]; [reflexivity |]. simpl. simpl in IH. apply IH. discriminate.
Qed.

Lemma last_cons_default {A} (p : A) (l : list A) (d : A) : last (p :: l) d = last l p.
Proof.
  destruct l as [| b l]; [reflexivity |].
  change (last (p :: b :: l) d) with (last (b :: l) d). apply last_default_irrel. discriminate.
Qed.

Lemma last_in_list {A} (l : list A) (d : A) : l <> [] -> In (last l d) l.
Proof.
  induction l as [| a l IH]; intros H; [congruence |].
  destruct l as [| b l]; [left; reflexivity |].
  right. apply IH. discriminate.
Qed.

Lemma ring_edges_snoc (a : point) (l : list point) : forall (prev : point),
  ring_edges prev (l ++ [a]) = ring_edges prev l ++ [(a, last l prev)].
Proof.
  induction l as [| p l IH]; intros prev; [reflexivity |].
  simpl. rewrite IH, <- last_cons_default with (d := prev). reflexivity.
Qed.

Lemma pointInRing_parity (x y : R) (ring : list point) :
  pointInRing x y ring = crossings_parity x y (ring_edges (last ring origin) ring).
Proof.
  unfold pointInRing. destruct ring as [| p rest]; [reflexivity |].
  rewrite ring_loop_parity. reflexivity.
Qed.

Lemma pointInRing_rotate1 (x y : R) (a : point) (r : list point) :
  pointInRing x y (a :: r) = pointInRing x y (r ++ [a]).
Proof.
  rewrite !pointInRing_parity, last_last, ring_edges_snoc.
  cbn [ring_edges]. rewrite <- (last_cons_default a r origin).
  apply crossings_parity_perm, Permutation_cons_append.
Qed.

Lemma edge_crosses_same (x y : R) (a : point) : edge_crosses x y a a = false.
Proof.
  unfold edge_crosses. destruct (Rlt_dec y (py a)); reflexivity.
Qed.

Lemma ring_loop_no_cross (x y : R) (P : point -> Prop) (ring : list point) :
  (forall p q, P p -> P q -> edge_crosses x y p q = false) ->
  forall prev b, P prev -> (forall p, In p ring -> P p) -> ring_loop x y prev ring b = b.
Proof.
  intros HP. induction ring as [| p rest IH]; intros prev b Hprev Hall; [reflexivity |].
  simpl. rewrite (HP p prev); [| apply Hall; left; reflexivity | exact Hprev].
  apply IH; [apply Hall; left; reflexivity |]. intros q Hq. apply Hall. right. exact Hq.
Qed.

(** X22: [_pointInRing] only depends on the ring up to rotation, so it does
    not matter at which vertex the ring starts; a ring whose first vertex
    is repeated at its end (as GeoJSON rings are written) gives the same
    answer as the open ring; and a point lying above all the vertices, or
    at or below all of them, is outside. *)
Theorem pointInRing_props (x y : R) (r1 r2 ring : list point) (a : point) :
  pointInRing x y (r1 ++ r2) = pointInRing x y (r2 ++ r1) /\
  pointInRing x y (a :: ring ++ [a]) = pointInRing x y (a :: ring) /\
  ((forall p, In p ring -> y < py p) \/ (forall p, In p ring -> py p <= y) ->
   pointInRing x y ring = false).
Proof.
  split; [| split].
  - revert r2. induction r1 as [| b r1 IH]; intros r2; [rewrite app_nil_r; reflexivity |].
    change ((b :: r1) ++ r2) with (b :: (r1 ++ r2)).
    rewrite pointInRing_rotate1, <- app_assoc, IH, <- app_assoc. reflexivity.
  - rewrite !pointInRing_parity.
    replace (last (a :: ring ++ [a]) origin) with a
      by (rewrite app_comm_cons; symmetry; apply last_last).
    rewrite last_cons_default. cbn [ring_edges]. rewrite ring_edges_snoc.
    unfold crossings_parity at 1. cbn [fold_right fst snd]. rewrite edge_crosses_same. cbn [xorb].
    fold (crossings_parity x y (ring_edges a ring ++ [(a, last ring a)])).
    apply crossings_parity_perm. apply Permutation_sym, Permutation_cons_append.
  - intros Hy. unfold pointInRing. destruct ring as [| p rest] eqn:Er; [reflexivity |].
    rewrite <- Er in *.
    assert (Hl : In (last ring origin) ring) by (rewrite Er; apply last_in_list; discriminate).
    destruct Hy as [Hy | Hy].
    + apply (ring_loop_no_cross x y (fun p => y < py p)); [| apply Hy, Hl | exact Hy].
      intros p0 q Hp Hq. unfold edge_crosses.
      destruct (Rlt_dec y (py p0)); [| contradiction]. destruct (Rlt_dec y (py q)); [| contradiction].
      reflexivity.
    + apply (ring_loop_no_cross x y (fun p => py p <= y)); [| apply Hy, Hl | exact Hy].
      intros p0 q Hp Hq. unfold edge_crosses.
      destruct (Rlt_dec y (py p0)); [lra |]. destruct (Rlt_dec y (py q)); [lra |].
      reflexivity.
Qed.

Lemma holes_loop_forallb (x y : R) (holes : list (list point)) :
  holes_loop x y holes = forallb (fun h => negb (pointInRing x y h)) holes.
Proof.
  induction holes as [| h holes IH]; [reflexivity |].
  simpl. destruct (pointInRing x y h); [reflexivity | exact IH].
Qed.

(** X23: [_pointInPolygon] reports a point inside exactly when it is in the
    outer ring and in none of the holes; so the order of the holes does not
    matter, and a polygon without rings makes it throw. *)
Theorem pointInPolygon_holes (x y : R) (outer : list point) (holes holes' : list (list point)) :
  pointInPolygon x y (outer :: holes) =
    Some (pointInRing x y outer && forallb (fun h => negb (pointInRing x y h)) holes) /\
  (Permutation holes holes' ->
   pointInPolygon x y (outer :: holes) = pointInPolygon x y (outer :: holes')) /\
  pointInPolygon x y [] = None.
Proof.
  assert (Hc : forall hs, pointInPolygon x y (outer :: hs) =
    Some (pointInRing x y outer && forallb (fun h => negb (pointInRing x y h)) hs)).
  { intros hs. unfold pointInPolygon. rewrite holes_loop_forallb.
    destruct (pointInRing x y outer); reflexivity. }
  split; [apply Hc | split; [| reflexivity]].
  intros Hp. rewrite !Hc. f_equal. f_equal.
  induction Hp; simpl; try congruence.
  destruct (negb (pointInRing x y x0)), (negb (pointInRing x y y0)); reflexivity.
Qed.

Lemma pointOnLine_app (x y w : R) (l1 l2 : list point) :
  pointOnLine x y l2 w = true -> pointOnLine x y (l1 ++ l2) w = true.
Proof.
  intros H. induction l1 as [| a l1 IH]; [exact H |].
  simpl. destruct (l1 ++ l2) as [| b l] eqn:E.
  - discriminate.
  - destruct (segment_hit x y a b w) as [[|] |]; [reflexivity | exact IH | exact IH].
Qed.

Lemma segment_hit_on (p1 p2 : point) (s w : R) :
  w <> 0 -> 0 <= s <= 1 -> p1 <> p2 ->
  segment_hit (px p1 + s * (px p2 - px p1)) (py p1 + s * (py p2 - py p1)) p1 p2 w = Some true.
Proof.
  intros Hw Hs Hne. unfold segment_hit.
  set (dx := px p2 - px p1). set (dy := py p2 - py p1).
  destruct (Req_dec_T (dx * dx + dy * dy) 0) as [E | E].
  - exfalso. apply Hne. assert (dx = 0 /\ dy = 0) as [Ex Ey] by nra.
    destruct p1 as [a1 b1], p2 as [a2 b2]. unfold dx, dy in *. simpl in *.
    f_equal; lra.
  - replace ((px p1 + s * dx - px p1) * dx + (py p1 + s * dy - py p1) * dy) with
      (s * (dx * dx + dy * dy)) by ring.
    replace (s * (dx * dx + dy * dy) / (dx * dx + dy * dy)) with s by (field; exact E).
    replace (js_max 0 (js_min 1 s)) with s
      by (unfold js_max, js_min; rewrite Rmin_right by lra; rewrite Rmax_right by lra; reflexivity).
    replace ((px p1 + s * dx - (px p1 + s * dx)) * (px p1 + s * dx - (px p1 + s * dx)) +
             (py p1 + s * dy - (py p1 + s * dy)) * (py p1 + s * dy - (py p1 + s * dy))) with 0 by ring.
    destruct (Rlt_dec 0 (w / 2 * (w / 2))) as [_ | Hn]; [reflexivity |].
    exfalso. apply Hn. assert (w / 2 <> 0) by lra. nra.
Qed.

Lemma pointOnLine_degenerate (x y w : R) (p : point) (line : list point) :
  (forall q, In q line -> q = p) -> pointOnLine x y line w = false.
Proof.
  induction line as [| a line IH]; intros H; [reflexivity |].
  simpl. destruct line as [| b l]; [reflexivity |].
  assert (Ha : a = p) by (apply H; left; reflexivity).
  assert (Hb : b = p) by (apply H; right; left; reflexivity).
  subst a b. unfold segment_hit at 1.
  replace (px p - px p) with 0 by ring. replace (py p - py p) with 0 by ring.
  destruct (Req_dec_T (0 * 0 + 0 * 0) 0) as [_ | Hn]; [| exfalso; apply Hn; ring].
  apply IH. intros q Hq. apply H. right. exact Hq.
Qed.

(** X24: with a nonzero width, [_pointOnLine] hits every point of every
    segment of the line whose two ends differ, whatever comes before or
    after it; a line whose points all coincide (including a line of fewer
    than two points) is never hit. *)
Theorem pointOnLine_props (x y w s : R) (l1 l2 line : list point) (p1 p2 : point) :
  (w <> 0 -> 0 <= s <= 1 -> p1 <> p2 ->
   pointOnLine (px p1 + s * (px p2 - px p1)) (py p1 + s * (py p2 - py p1)) (l1 ++ p1 :: p2 :: l2) w
   = true) /\
  ((forall q, In q line -> q = p1) -> pointOnLine x y line w = false).
Proof.
  split.
  - intros Hw Hs Hne. apply pointOnLine_app. simpl. rewrite segment_hit_on by assumption.
    reflexivity.
  - apply pointOnLine_degenerate.
Qed.


(** ** Extra: the base-layer key *)

Lemma remove_first_gone (l : nat) (xs : list nat) : NoDup xs -> ~ In l (remove_first l xs).
Proof.
  induction xs as [| a xs IH]; intros Hn; simpl; [tauto |].
  apply NoDup_cons_iff in Hn as [Ha Hn].
  destruct (Nat.eqb_spec a l) as [E | E].
  - subst. exact Ha.
  - intros [H | H]; [congruence | exact (IH Hn H)].
Qed.

Lemma find_none_all (f : nat -> bool) (xs : list nat) :
  (forall t, In t xs -> f t = false) -> find f xs = None.
Proof.
  induction xs as [| a xs IH]; intros H; simpl; [reflexivity |].
  rewrite (H a (or_introl eq_refl)). apply IH. intros t Ht. apply H. right. exact Ht.
Qed.

(** X25: when the base layer is [TILE_LAYERS.OSM], [TILE_LAYERS.ESRI] is
    not on the map and no other tile layer is, pressing ["s"] makes ESRI the
    base and pressing it again makes OSM the base again. ESRI is gone from
    the list, OSM has moved to its end, and the zoom is never clamped to
    either layer's bounds. *)
Theorem key_s_toggle (is_tile : nat -> bool) (bounds : nat -> zoom_bounds) (esri osm : nat)
    (s : layer_state) :
  layers_ok s -> esri <> osm -> is_tile esri = true -> is_tile osm = true ->
  ls_base s = Some osm -> ~ In esri (ls_layers s) ->
  (forall t, In t (ls_layers s) -> t <> osm -> is_tile t = false) ->
  exists s1 s2,
    key_s is_tile bounds esri osm s = Some s1 /\ ls_base s1 = Some esri /\
    ls_layers s1 = remove_first osm (ls_layers s) ++ [esri] /\ ls_zoom s1 = ls_zoom s /\
    key_s is_tile bounds esri osm s1 = Some s2 /\ ls_base s2 = Some osm /\
    ls_layers s2 = remove_first osm (ls_layers s) ++ [osm] /\ ls_zoom s2 = ls_zoom s.
Proof.
  intros [Hn Hb] Hne Hte Hto Hbase Hnin Hother.
  set (rest := remove_first osm (ls_layers s)).
  assert (Hosm : ~ In osm rest) by (apply remove_first_gone, Hn).
  assert (Hesri : ~ In esri rest) by (intros Hi; apply Hnin; apply remove_first_incl in Hi; exact Hi).
  assert (Hfind : find is_tile rest = None).
  { apply find_none_all. intros t Ht. apply Hother.
    - apply remove_first_incl in Ht. exact Ht.
    - intros ->. exact (Hosm Ht). }
  assert (Hin_osm : existsb (Nat.eqb osm) (ls_layers s) = true) by (apply existsb_eqb_In, Hb, Hbase).
  set (s1 := mkLayerState (rest ++ [esri]) (Some esri) (ls_zoom s)).
  set (s2 := mkLayerState (rest ++ [osm]) (Some osm) (ls_zoom s)).
  assert (E1 : key_s is_tile bounds esri osm s = Some s1).
  { unfold key_s. rewrite Hbase.
    assert (E : Nat.eqb osm esri = false) by (apply Nat.eqb_neq; congruence). rewrite E.
    unfold setBaseLayer. rewrite Hte. cbn [negb]. rewrite Hbase, E. cbn [negb].
    unfold removeLayer. rewrite Hin_osm. cbn [ls_layers ls_base ls_zoom].
    rewrite Hbase, Nat.eqb_refl. fold rest. rewrite Hfind.
    assert (Er : existsb (Nat.eqb esri) rest = false) by (apply existsb_eqb_notIn, Hesri).
    rewrite Er. cbn [negb]. unfold addLayer. cbn [ls_layers ls_base ls_zoom]. rewrite Er.
    reflexivity. }
  assert (E2 : key_s is_tile bounds esri osm s1 = Some s2).
  { unfold key_s, s1. cbn [ls_base]. rewrite Nat.eqb_refl.
    unfold setBaseLayer. rewrite Hto. cbn [negb ls_base].
    assert (E : Nat.eqb esri osm = false) by (apply Nat.eqb_neq; congruence). rewrite E.
    cbn [negb]. unfold removeLayer. cbn [ls_layers ls_base ls_zoom].
    assert (Ee : existsb (Nat.eqb esri) (rest ++ [esri]) = true).
    { apply existsb_eqb_In, in_or_app. right. left. reflexivity. }
    rewrite Ee, Nat.eqb_refl, remove_first_snoc by exact Hesri. rewrite Hfind.
    assert (Eo : existsb (Nat.eqb osm) rest = false) by (apply existsb_eqb_notIn, Hosm).
    cbn [ls_layers]. rewrite Eo. cbn [negb]. unfold addLayer. cbn [ls_layers ls_base ls_zoom].
    rewrite Eo. reflexivity. }
  exists s1, s2. repeat split; assumption || reflexivity.
Qed.


(** ** Extra: examples *)

Lemma rot_zero (a : R) : rot 0 0 a = mkPoint 0 0.
Proof. unfold rot. f_equal; ring. Qed.

(** The anchored zoom about the middle of the canvas with a given anchor
    keeps that anchor as the center. *)
Lemma anchored_center_middle (m : atlas) (nz nb : R) (A : latlng) :
  Rabs (lat A) <= MAX_LATITUDE ->
  anchored_center m (canvas_width m / dpr m / 2) (canvas_height m / dpr m / 2) nz nb (Some A) = A.
Proof.
  intros HA. unfold anchored_center. cbv zeta. cbn [px py].
  rewrite !Rminus_diag, !Rdiv_0_l, rot_zero. cbn [px py].
  rewrite !Rminus_0_r. apply latlng_of_tile_of_latlng, HA.
Qed.

(** The middle of the canvas shows the center. *)
Lemma screenToLatLon_middle (m : atlas) :
  Rabs (lat (center m)) <= MAX_LATITUDE -> -180 <= lon (center m) <= 180 ->
  screenToLatLon_here m (canvas_width m / dpr m / 2) (canvas_height m / dpr m / 2) = center m.
Proof.
  intros Hla Hlo. unfold screenToLatLon_here, screenToLatLon. cbv zeta. cbn [px py].
  rewrite !Rminus_diag, !Rdiv_0_l, rot_zero. cbn [px py].
  rewrite !Rplus_0_r, latlng_of_tile_of_latlng by exact Hla.
  rewrite clampLatitude_id by exact Hla. rewrite wrapLongitude_id by exact Hlo.
  apply latlng_eta.
Qed.

Lemma zoomAnim_center_middle (m : atlas) (toZoom toBearing duration startT now : R)
    (easing : R -> R) :
  Rabs (lat (center m)) <= MAX_LATITUDE -> -180 <= lon (center m) <= 180 ->
  center (fst (zoomAnim_frame m
    (animateZoomRotateAbout m (canvas_width m / dpr m / 2) (canvas_height m / dpr m / 2)
       toZoom toBearing duration easing startT) now)) = center m.
Proof.
  intros Hla Hlo. unfold zoomAnim_frame, animateZoomRotateAbout. cbv zeta.
  cbn [fst za_ax za_ay za_anchorLL]. unfold applyZoomRotateAbout. cbv zeta. cbn [center].
  rewrite anchored_center_middle.
  - change (screenToLatLon m (canvas_width m / dpr m / 2) (canvas_height m / dpr m / 2)
              (zoom m) (bearing m) (center m))
      with (screenToLatLon_here m (canvas_width m / dpr m / 2) (canvas_height m / dpr m / 2)).
    rewrite screenToLatLon_middle by assumption.
    rewrite clampLatitude_id by exact Hla. rewrite wrapLongitude_id by exact Hlo.
    apply latlng_eta.
  - change (screenToLatLon m (canvas_width m / dpr m / 2) (canvas_height m / dpr m / 2)
              (zoom m) (bearing m) (center m))
      with (screenToLatLon_here m (canvas_width m / dpr m / 2) (canvas_height m / dpr m / 2)).
    rewrite screenToLatLon_middle by assumption. exact Hla.
Qed.

Lemma view_near_antimeridian_ranges :
  Rabs (lat (center view_near_antimeridian)) <= MAX_LATITUDE /\
  -180 <= lon (center view_near_antimeridian) <= 180.
Proof.
  unfold view_near_antimeridian. cbn [center lat lon]. rewrite Rabs_R0.
  unfold MAX_LATITUDE. lra.
Qed.

Lemma latLngToContainerPoint_roundtrip_witness :
  let p := latLngToContainerPoint view_near_antimeridian (mkLatLng 45 (-120)) in
  screenToLatLon_here view_near_antimeridian (px p) (py p) = mkLatLng 45 (-120).
Proof.
  apply latLngToContainerPoint_roundtrip; cbn [lat lon].
  - rewrite Rabs_pos_eq by lra. unfold MAX_LATITUDE. lra.
  - lra.
Defined.

Lemma geojson_screen_point_witness :
  screenToLatLon_here view_near_antimeridian
    (px (latLngToScreenPoint (Some view_near_antimeridian) (-120) 45))
    (py (latLngToScreenPoint (Some view_near_antimeridian) (-120) 45)) = mkLatLng 45 (-120).
Proof.
  refine (proj1 (proj2 (geojson_screen_point view_near_antimeridian (-120) 45 _ _))).
  - rewrite Rabs_pos_eq by lra. unfold MAX_LATITUDE. lra.
  - lra.
Defined.

Lemma zoomAnim_frame_keeps_anchor_witness :
  let cx := canvas_width view_near_antimeridian / dpr view_near_antimeridian / 2 in
  let cy := canvas_height view_near_antimeridian / dpr view_near_antimeridian / 2 in
  let a := animateZoomRotateAbout view_near_antimeridian cx cy 2 (PI / 2) 100 easeInOutCubic 0 in
  let m' := fst (zoomAnim_frame view_near_antimeridian a 50) in
  lat (screenToLatLon_here m' cx cy) = lat (screenToLatLon_here view_near_antimeridian cx cy).
Proof.
  intros cx cy a m'.
  destruct view_near_antimeridian_ranges as [Hla Hlo].
  refine (proj1 (zoomAnim_frame_keeps_anchor view_near_antimeridian view_near_antimeridian
                   cx cy 2 (PI / 2) 100 0 50 easeInOutCubic _)).
  unfold cx, cy. rewrite zoomAnim_center_middle by assumption.
  unfold view_near_antimeridian. cbn [center lat]. rewrite Rabs_R0. unfold MAX_LATITUDE. lra.
Defined.

Lemma zoomAnim_final_frame_witness :
  let a := animateZoomRotateAbout view_near_antimeridian 100 200 2 (PI / 2) 100 easeInOutCubic 0 in
  zoom (fst (zoomAnim_frame view_near_antimeridian a 200)) = clamp_zoom view_near_antimeridian 2 /\
  bearing (fst (zoomAnim_frame view_near_antimeridian a 200)) = normalizeAngle (PI / 2).
Proof.
  intros a.
  apply (proj2 (zoomAnim_final_frame view_near_antimeridian view_near_antimeridian
                  100 200 2 (PI / 2) 100 0 200 easeInOutCubic)).
  unfold js_max. rewrite Rmax_right by lra. lra.
Defined.

Lemma view_near_antimeridian_bearing : bearing_in_range (bearing view_near_antimeridian).
Proof.
  unfold bearing_in_range, view_near_antimeridian. cbn [bearing]. pose proof PI_RGT_0. lra.
Qed.

Lemma gesture_animation_targets_witness :
  zoom (fst (zoomAnim_frame view_near_antimeridian
               (onWheel view_near_antimeridian 100 200 (-1) 0) 500)) =
    clamp_zoom view_near_antimeridian
      (zoom view_near_antimeridian + (if Rlt_dec (-1) 0 then WHEEL_ZOOM_STEP else - WHEEL_ZOOM_STEP)) /\
  bearing (fst (zoomAnim_frame view_near_antimeridian
                  (onWheel view_near_antimeridian 100 200 (-1) 0) 500)) =
    bearing view_near_antimeridian.
Proof.
  apply (proj1 (gesture_animation_targets view_near_antimeridian view_near_antimeridian
                  100 200 (-1) 0 500 eq_refl view_near_antimeridian_bearing)).
  unfold WHEEL_ZOOM_DURATION. lra.
Defined.

Lemma key_zoom_in_out_witness :
  exists m1, onKeyDown view_near_antimeridian KeyPlus 0 = KeyView m1 /\
    onKeyDown view_near_antimeridian KeyEqual 0 = KeyView m1 /\
    zoom m1 = zoom view_near_antimeridian + 1 /\
    center m1 = center view_near_antimeridian /\ bearing m1 = bearing view_near_antimeridian /\
    onKeyDown m1 KeyMinus 0 = KeyView view_near_antimeridian.
Proof.
  apply key_zoom_in_out; unfold map_min_zoom, map_max_zoom, view_near_antimeridian;
    cbn [baseLayer zoom]; lra.
Defined.

Lemma key_rotate_back_witness :
  exists m1, onKeyDown view_near_antimeridian KeyR 0 = KeyView m1 /\
    bearing m1 = normalizeAngle (bearing view_near_antimeridian + PI / 12) /\
    bearing m1 <> bearing view_near_antimeridian /\
    center m1 = center view_near_antimeridian /\ zoom m1 = zoom view_near_antimeridian /\
    onKeyDown m1 KeyL 0 = KeyView view_near_antimeridian.
Proof. apply key_rotate_back, view_near_antimeridian_bearing. Defined.

Lemma key_pan_vertical_witness :
  exists m1, onKeyDown view_near_antimeridian KeyArrowUp 0 = KeyView m1 /\
    lon (center m1) = lon (center view_near_antimeridian) /\
    lat (center m1) <= lat (center view_near_antimeridian) /\
    (MIN_LATITUDE < lat (center view_near_antimeridian) ->
     lat (center m1) < lat (center view_near_antimeridian)).
Proof.
  destruct view_near_antimeridian_ranges as [Hla Hlo].
  exact (proj1 (key_pan_vertical view_near_antimeridian 0 eq_refl Hla Hlo)).
Defined.

Lemma key_pan_horizontal_witness :
  exists m1 k, onKeyDown view_near_antimeridian KeyArrowLeft 0 = KeyView m1 /\
    lat (center m1) = lat (center view_near_antimeridian) /\
    lon (center m1) = lon (center view_near_antimeridian) +
      PAN_STEP_PX * 360 / (TILE_SIZE * pow2 (zoom view_near_antimeridian)) + 360 * IZR k.
Proof.
  destruct view_near_antimeridian_ranges as [Hla _].
  exact (proj1 (key_pan_horizontal view_near_antimeridian 0 eq_refl Hla)).
Defined.

Lemma getResolution_props_witness : 0 < getResolution 45 3.
Proof.
  apply (proj1 (proj2 (proj2 (getResolution_props 45 3)))).
  rewrite Rabs_pos_eq by lra. lra.
Defined.

Lemma pushVelocitySample_window_witness :
  let l := pushVelocitySample [mkSample 0 0 0; mkSample 50 3 4] 100 5 5 in
  (exists pre, [mkSample 0 0 0; mkSample 50 3 4] ++ [mkSample 100 5 5] = pre ++ l) /\
  last l dummy_sample = mkSample 100 5 5 /\
  Sorted sample_le l /\
  (forall s, In s l -> 100 - VELOCITY_WINDOW_MS <= s_t s <= 100).
Proof.
  apply pushVelocitySample_window.
  - apply Sorted_cons; [apply Sorted_cons; constructor |].
    constructor. unfold sample_le. cbn [s_t]. lra.
  - intros s [<- | [<- | []]]; cbn [s_t]; lra.
Defined.

Lemma endDrag_inertia_needs_motion_witness :
  endDrag_inertia [mkSample 0 0 0; mkSample 10 0 0] 10 = None.
Proof.
  apply (proj2 (endDrag_inertia_needs_motion [mkSample 0 0 0; mkSample 10 0 0] 10) 0 0).
  intros s [<- | [<- | []]]; cbn [s_x s_y]; split; reflexivity.
Defined.

Lemma layers_invariant_witness :
  layers_ok (layer_run (fun l => Nat.even l) (fun _ => mkZoomBounds 0 18)
               (layers_init 3) [AddL 1; AddL 2; SetBaseL 2; RemoveL 1; SetBaseL 4]).
Proof.
  apply layers_invariant. split; [constructor | discriminate].
Defined.

Lemma setBaseLayer_effect_witness :
  exists s', setBaseLayer (fun _ => true) (fun _ => mkZoomBounds 0 4) 2 (mkLayerState [1; 3]%nat (Some 1%nat) 5)
             = Some s' /\
    ls_layers s' = [3; 2]%nat /\ ls_zoom s' = 5 /\
    (ls_base s' = Some 2%nat <->
     (Some 1%nat = None \/ forall t, In t [3%nat] -> true = false)).
Proof.
  refine (proj2 (proj2 (setBaseLayer_effect (fun _ => true) (fun _ => mkZoomBounds 0 4)
                           (mkLayerState [1; 3]%nat (Some 1%nat) 5) 2 _) eq_refl) _).
  - split; [repeat constructor; cbn; lia |]. intros b Hb. injection Hb as <-. left. reflexivity.
  - cbn. lia.
Defined.


Lemma tile_timeout_roundtrip_witness :
  match loadTile (new_tile_layer osm_template false 500) tileA urlA 1 with
  | (L1, Started _ j) =>
      let '(L2, j2) := tile_timeout L1 j in
      tileCache L2 = [] /\ loadingTiles L2 = [] /\ loadingControllers L2 = [] /\
      requests L2 = [] ++ [(tileA, urlA)] /\ events L2 = [] ++ [TileErrorEv tileA urlA] /\
      lj_result j2 = PRejected /\ lj_aborted j2 = true /\
      requests (render_tile L2 tileA urlA 2) = requests L2 ++ [(tileA, urlA)]
  | _ => False
  end.
Proof.
  exact (tile_timeout_roundtrip (new_tile_layer osm_template false 500) tileA urlA 1 2
           eq_refl eq_refl eq_refl).
Defined.


Lemma pointInRing_props_witness :
  pointInRing 0 0 [mkPoint 0 1; mkPoint 1 2; mkPoint 2 1] = false.
Proof.
  apply (proj2 (proj2 (pointInRing_props 0 0 [] [] [mkPoint 0 1; mkPoint 1 2; mkPoint 2 1]
                         (mkPoint 0 0)))).
  left. intros p [<- | [<- | [<- | []]]]; cbn [py]; lra.
Defined.

Lemma pointInPolygon_holes_witness :
  pointInPolygon 0 0 ([mkPoint 0 1] :: [[mkPoint 1 1]; [mkPoint 2 2]]) =
  pointInPolygon 0 0 ([mkPoint 0 1] :: [[mkPoint 2 2]; [mkPoint 1 1]]).
Proof.
  apply (proj1 (proj2 (pointInPolygon_holes 0 0 [mkPoint 0 1] [[mkPoint 1 1]; [mkPoint 2 2]]
                         [[mkPoint 2 2]; [mkPoint 1 1]]))).
  apply perm_swap.
Defined.

Lemma pointOnLine_props_witness :
  pointOnLine (px (mkPoint 0 0) + 1 / 2 * (px (mkPoint 2 0) - px (mkPoint 0 0)))
              (py (mkPoint 0 0) + 1 / 2 * (py (mkPoint 2 0) - py (mkPoint 0 0)))
              ([] ++ mkPoint 0 0 :: mkPoint 2 0 :: []) 2 = true.
Proof.
  apply (proj1 (pointOnLine_props 0 0 2 (1 / 2) [] [] [] (mkPoint 0 0) (mkPoint 2 0))).
  - lra.
  - lra.
  - intros H. injection H as H. lra.
Defined.

Lemma key_s_toggle_witness :
  exists s1 s2,
    key_s (fun _ => true) (fun _ => mkZoomBounds 0 4) 2 1 (mkLayerState [1%nat] (Some 1%nat) 9) = Some s1 /\
    ls_base s1 = Some 2%nat /\ ls_layers s1 = remove_first 1 [1%nat] ++ [2%nat] /\ ls_zoom s1 = 9 /\
    key_s (fun _ => true) (fun _ => mkZoomBounds 0 4) 2 1 s1 = Some s2 /\ ls_base s2 = Some 1%nat /\
    ls_layers s2 = remove_first 1 [1%nat] ++ [1%nat] /\ ls_zoom s2 = 9.
Proof.
  apply key_s_toggle.
  - split; [repeat constructor; cbn; lia |]. intros b Hb. injection Hb as <-. left. reflexivity.
  - lia.
  - reflexivity.
  - reflexivity.
  - reflexivity.
  - cbn. lia.
  - intros t [<- | []] H. exfalso. apply H. reflexivity.
Defined.


(** ** Examples for the viewport, inertia and tile URL theorems *)

Lemma viewport_writes_invariant_witness :
  lon (center (apply_op flyto_dateline_map
         (OpFlyFrame (flyTo_start flyto_dateline_map flyto_dateline_options 0) 600))) =
  lon (fj_sC (flyTo_start flyto_dateline_map flyto_dateline_options 0)) +
  fj_dLon (flyTo_start flyto_dateline_map flyto_dateline_options 0) *
  fly_p (flyTo_start flyto_dateline_map flyto_dateline_options 0) 600.
Proof.
  set (j := flyTo_start flyto_dateline_map flyto_dateline_options 0).
  assert (H1 : map_min_zoom flyto_dateline_map <= map_max_zoom flyto_dateline_map).
  { unfold map_min_zoom, map_max_zoom, flyto_dateline_map. cbn [baseLayer]. lra. }
  assert (H2 : viewport_ok flyto_dateline_map).
  { unfold viewport_ok, lat_in_range, bearing_in_range, zoom_in_range, map_min_zoom,
      map_max_zoom, flyto_dateline_map, MIN_LATITUDE, MAX_LATITUDE.
    cbn [center lat bearing zoom baseLayer]. pose proof PI_RGT_0. lra. }
  assert (H3 : op_ready flyto_dateline_map (OpFlyFrame j 600)).
  { unfold op_ready, j, flyTo_start, flyto_dateline_map, flyto_dateline_options.
    cbn [fj_sZ fj_eZ fj_easing fo_zoom fo_easing num_or zoom].
    unfold map_min_zoom, map_max_zoom, js_max, js_min. cbn [baseLayer].
    rewrite (Rmin_right 18 3) by lra. rewrite (Rmax_right 0 3) by lra.
    split; [lra | split; [lra |]]. intros t Ht. unfold linear. lra. }
  assert (Ht : fly_t j 600 < 1).
  { unfold fly_t, j, flyTo_start, flyto_dateline_options.
    cbn [fj_startT fj_duration fo_duration num_or].
    unfold FLYTO_DURATION, js_max. rewrite Rmax_right by lra. lra. }
  destruct (viewport_writes_invariant flyto_dateline_map (OpFlyFrame j 600) H1 H2 H3)
    as [[_ Hlon] _].
  exact (proj2 Hlon Ht).
Defined.

Lemma inertia_decay_witness :
  match inertia_run view_near_antimeridian (inertia_start 1 0 0) [300; 600] with
  | (_, st', evs, _) => st' = None /\ count_moveend evs = 1%nat
  end.
Proof.
  assert (H1 : (0 : R) < 300) by lra.
  assert (H2 : spaced 300 0 [300; 600]) by (cbn; repeat split; lra).
  assert (H3 : INERTIA_STOP_SPEED <= hypot 1 0)
    by (rewrite hypot_1_0; unfold INERTIA_STOP_SPEED; lra).
  assert (H4 : hypot 1 0 - INERTIA_STOP_SPEED < INERTIA_DECEL * 300 * INR (List.length [300; 600])).
  { rewrite hypot_1_0. replace (INR (List.length [300; 600])) with 2 by (cbn; ring).
    unfold INERTIA_STOP_SPEED, INERTIA_DECEL. lra. }
  exact (proj2 (proj2 (proj2
    (inertia_decay view_near_antimeridian 1 0 0 300 [300; 600] H1 H2 H3 H4)))).
Defined.

Lemma tile_url_resolution_witness :
  exists sub, In sub osm_subdomains /\
    urlTemplate (TILE_LAYERS_OSM (1 / 2)) = osm_url_template sub /\
    includes (urlTemplate (TILE_LAYERS_OSM (1 / 2))) "{s}" = false /\
    forall L', urlTemplate L' = urlTemplate (TILE_LAYERS_OSM (1 / 2)) ->
    forall mode' dpr' x' y' z', exists rest,
      getTileUrl L' mode' dpr' x' y' z' =
        ("https://" ++ sub ++ ".tile.openstreetmap.org/" ++ rest)%string.
Proof.
  apply (proj2 (proj2 (proj2 (proj2
    (tile_url_resolution (TILE_LAYERS_OSM (1 / 2)) CONFIG_retina None 0 0 0))))).
  lra.
Defined.
